(** * Admission-control core of the AnsBSA chat backend

    A shallow embedding of the three services that gate a paid provider call:

    - [Ledger]  : [server/services/credit-manager.ts] with the [users] and
                  [credit_transactions] tables of [shared/schema.ts];
    - [Pool]    : [server/services/gemini-manager.ts] (credential registry,
                  rate limiter, failure state machine, selection);
    - [Cache]   : the response cache of the quota optimizer
                  ([generateQueryHash], [getCachedResponse], [setCachedResponse]).

    Integers are [Z]; times are milliseconds since the epoch, in [Z]. *)

From Stdlib Require Import ZArith List Lia Bool String Ascii DecimalString.
From Stdlib Require Import DecimalPos DecimalZ.
From stdpp Require Import gmap strings list.

Open Scope Z_scope.

(** JavaScript's [a || b] on numbers that are integers: [0] is falsy. *)
Definition js_or (a b : Z) : Z := if a =? 0 then b else a.

(* ===================================================================== *)
(** * The credit ledger *)
(* ===================================================================== *)

Module Ledger.

(** [CreditType = keyof typeof CREDIT_COSTS]. *)
Inductive CreditType :=
| chat | imageGeneration | videoAnalysis | webScraping | deepSearch | learning.

Definition CREDIT_COSTS (t : CreditType) : Z :=
  match t with
  | chat => 100
  | imageGeneration => 200
  | videoAnalysis => 300
  | webScraping => 150
  | deepSearch => 200
  | learning => 100
  end.

(** The [type] column of a transaction: a feature or ['admin_adjustment']. *)
Inductive TxType :=
| feature (t : CreditType)
| admin_adjustment.

(** The [description] column.  The defaults are template strings; they are
    kept symbolic. *)
Inductive Description :=
| Text (s : string)
| UsedFor (amount : Z) (t : CreditType).

(** A row of [credit_transactions] (the generated [id] and [createdAt] are
    left to the position in the table). *)
Record CreditTransaction := {
  userId : string;
  messageId : option string;
  type : TxType;
  amount : Z;
  balanceAfter : Z;
  description : Description
}.

(** The database: the [credits] column of [users] by [users.id], the
    [credit_transactions] table in creation order (newest last), and whether
    the connection answers at all. *)
Record DB := {
  users : gmap string Z;
  creditTransactions : list CreditTransaction;
  reachable : bool
}.

(** A Postgres [integer] column holds a signed 32-bit value; writing anything
    else makes the statement fail. *)
Definition int4 (z : Z) : bool := (-2147483648 <=? z) && (z <=? 2147483647).

(** [db.select({credits}).from(users).where(eq(users.id, userId))]:
    [None] when the query throws, otherwise the selected row if any. *)
Definition select_credits (d : DB) (uid : string) : option (option Z) :=
  if reachable d then Some (users d !! uid) else None.

(** [db.update(users).set({credits}).where(eq(users.id, userId))]: touches the
    row when there is one, and no row otherwise. *)
Definition update_credits (d : DB) (uid : string) (v : Z) : option DB :=
  if reachable d && int4 v then
    Some {| users := match users d !! uid with
                     | Some _ => <[uid := v]> (users d)
                     | None => users d
                     end;
            creditTransactions := creditTransactions d;
            reachable := reachable d |}
  else None.

(** [db.insert(creditTransactions).values(row)]. *)
Definition insert_transaction (d : DB) (row : CreditTransaction) : option DB :=
  if reachable d && int4 (amount row) && int4 (balanceAfter row) then
    Some {| users := users d;
            creditTransactions := creditTransactions d ++ [row];
            reachable := reachable d |}
  else None.

(** [getUserCredits]: [user?.credits || 0], and [0] from the [catch]. *)
Definition getUserCredits (d : DB) (uid : string) : Z :=
  match select_credits d uid with
  | Some (Some credits) => js_or credits 0
  | Some None => 0
  | None => 0
  end.

Record Affordability := {
  canAfford_ok : bool;
  currentCredits : Z;
  required : Z
}.

Definition canAfford (d : DB) (uid : string) (creditType : CreditType) : Affordability :=
  let current := getUserCredits d uid in
  let req := CREDIT_COSTS creditType in
  {| canAfford_ok := req <=? current; currentCredits := current; required := req |}.

(** The [message] of a result, by the template that produced it. *)
Inductive Message :=
| NotEnough (need have : Z)
| Used (amount balance : Z)
| Added (amount balance : Z)
| Updated (newAmount difference : Z)
| Failure.

Record Outcome := {
  success : bool;
  newBalance : Z;
  message : Message
}.

Definition failed_outcome : Outcome :=
  {| success := false; newBalance := 0; message := Failure |}.

(** The two writes every mutation performs inside its [try]: the update of the
    balance, then the insertion of the transaction row.  An exception of
    either one lands in the [catch]; what was written before it stays. *)
Definition write_back (d : DB) (uid : string) (balance : Z)
    (row : CreditTransaction) (ok : Outcome) : Outcome * DB :=
  match update_credits d uid balance with
  | None => (failed_outcome, d)
  | Some d1 =>
      match insert_transaction d1 row with
      | None => (failed_outcome, d1)
      | Some d2 => (ok, d2)
      end
  end.

Definition debit_amount (creditType : CreditType) (customAmount : option Z) : Z :=
  match customAmount with
  | Some a => js_or a (CREDIT_COSTS creditType)
  | None => CREDIT_COSTS creditType
  end.

Definition debit_row (uid : string) (creditType : CreditType) (mid : option string)
    (amt balance : Z) (descr : option string) : CreditTransaction :=
  {| userId := uid; messageId := mid; type := feature creditType;
     amount := - amt; balanceAfter := balance;
     description := match descr with
                    | Some s => if String.eqb s "" then UsedFor amt creditType else Text s
                    | None => UsedFor amt creditType
                    end |}.

Definition deductCredits (d : DB) (uid : string) (creditType : CreditType)
    (mid : option string) (customAmount : option Z) (descr : option string)
    : Outcome * DB :=
  let amt := debit_amount creditType customAmount in
  let current := getUserCredits d uid in
  if current <? amt then
    ({| success := false; newBalance := current; message := NotEnough amt current |}, d)
  else
    let balance := current - amt in
    write_back d uid balance (debit_row uid creditType mid amt balance descr)
      {| success := true; newBalance := balance; message := Used amt balance |}.

Definition admin_row (uid : string) (amt balance : Z) (descr : string) : CreditTransaction :=
  {| userId := uid; messageId := None; type := admin_adjustment;
     amount := amt; balanceAfter := balance; description := Text descr |}.

Definition addCredits (d : DB) (uid : string) (amt : Z) (descr : string) : Outcome * DB :=
  let current := getUserCredits d uid in
  let balance := current + amt in
  write_back d uid balance (admin_row uid amt balance descr)
    {| success := true; newBalance := balance; message := Added amt balance |}.

Definition setCredits (d : DB) (uid : string) (newAmount : Z) (descr : string) : Outcome * DB :=
  let current := getUserCredits d uid in
  let difference := newAmount - current in
  write_back d uid newAmount (admin_row uid difference newAmount descr)
    {| success := true; newBalance := newAmount; message := Updated newAmount difference |}.

(** ** Sequences of ledger operations *)

Inductive Op :=
| Debit (uid : string) (creditType : CreditType) (mid : option string)
        (customAmount : option Z) (descr : option string)
| Credit (uid : string) (amt : Z) (descr : string)
| SetBalance (uid : string) (newAmount : Z) (descr : string).

Definition apply_op (d : DB) (o : Op) : Outcome * DB :=
  match o with
  | Debit uid ct mid custom descr => deductCredits d uid ct mid custom descr
  | Credit uid amt descr => addCredits d uid amt descr
  | SetBalance uid newAmount descr => setCredits d uid newAmount descr
  end.

(** Runs the operations one after the other; the outcomes come back in order. *)
Fixpoint run (d : DB) (ops : list Op) : list Outcome * DB :=
  match ops with
  | [] => ([], d)
  | o :: rest =>
      let '(r, d1) := apply_op d o in
      let '(rs, d2) := run d1 rest in
      (r :: rs, d2)
  end.


(** ** A debit as the event loop runs it

    [deductCredits] is an [async] function: it gives control back at each
    [await], namely the balance read inside [getUserCredits], [db.update] and
    [db.insert].  Each statement runs against the database on its own; nothing
    (no transaction, no lock) ties the three together, so other calls may be
    resumed in between. *)

Record Call := {
  call_user : string;
  call_type : CreditType;
  call_message : option string;
  call_custom : option Z;
  call_descr : option string
}.

Inductive Phase :=
| Reading                         (* waiting for the balance read *)
| Updating (balance amt : Z)      (* funds verified, [db.update] pending *)
| Inserting (balance amt : Z)     (* balance written, [db.insert] pending *)
| Settled (r : Outcome).          (* the promise is resolved *)

(** Resumes a call at its pending [await] and runs it up to the next one. *)
Definition resume (c : Call) (p : Phase) (d : DB) : Phase * DB :=
  match p with
  | Reading =>
      let amt := debit_amount (call_type c) (call_custom c) in
      let current := getUserCredits d (call_user c) in
      if current <? amt then
        (Settled {| success := false; newBalance := current;
                    message := NotEnough amt current |}, d)
      else (Updating (current - amt) amt, d)
  | Updating balance amt =>
      match update_credits d (call_user c) balance with
      | None => (Settled failed_outcome, d)
      | Some d1 => (Inserting balance amt, d1)
      end
  | Inserting balance amt =>
      match insert_transaction d
              (debit_row (call_user c) (call_type c) (call_message c) amt balance
                         (call_descr c)) with
      | None => (Settled failed_outcome, d)
      | Some d2 =>
          (Settled {| success := true; newBalance := balance;
                      message := Used amt balance |}, d2)
      end
  | Settled r => (Settled r, d)
  end.

(** Two calls in flight, and the database they share. *)
Record Flight := {
  first : Phase;
  second : Phase;
  store : DB
}.

(** One turn of the event loop: [false] resumes the first call, [true] the
    second. *)
Definition turn (c1 c2 : Call) (f : Flight) (who : bool) : Flight :=
  if who then
    let '(p, d) := resume c2 (second f) (store f) in
    {| first := first f; second := p; store := d |}
  else
    let '(p, d) := resume c1 (first f) (store f) in
    {| first := p; second := second f; store := d |}.

Definition interleave (c1 c2 : Call) (schedule : list bool) (f : Flight) : Flight :=
  fold_left (turn c1 c2) schedule f.

Definition took_off (d : DB) : Flight :=
  {| first := Reading; second := Reading; store := d |}.

Definition settled (p : Phase) : option Outcome :=
  match p with
  | Settled r => Some r
  | _ => None
  end.

Definition insufficient (r : Outcome) : bool :=
  match message r with
  | NotEnough _ _ => negb (success r)
  | _ => false
  end.

(** ** Vocabulary of the ledger properties *)

Definition op_user (o : Op) : string :=
  match o with
  | Debit uid _ _ _ _ => uid
  | Credit uid _ _ => uid
  | SetBalance uid _ _ => uid
  end.



Definition account1000 : DB :=
  {| users := {[ "u"%string := 1000 ]}; creditTransactions := []; reachable := true |}.

Definition sample_ops : list Op :=
  [Debit "u" videoAnalysis None None None;
   Credit "u" 50 "gift";
   Debit "u" chat None (Some 700) None;
   SetBalance "u" 0 "reset"].

(** Two debits of 700 against one account holding 1000. *)
Definition debit700 : Call :=
  {| call_user := "u"; call_type := chat; call_message := None;
     call_custom := Some 700; call_descr := None |}.

Definition ok300 : Outcome :=
  {| success := true; newBalance := 300; message := Used 700 300 |}.

Definition short300 : Outcome :=
  {| success := false; newBalance := 300; message := NotEnough 700 300 |}.

(** How many more turns a call needs at most before it is settled. *)
Definition awaits (p : Phase) : nat :=
  match p with
  | Reading => 3
  | Updating _ _ => 2
  | Inserting _ _ => 1
  | Settled _ => 0
  end.

Definition early (p : Phase) : Prop :=
  p = Reading \/ p = Updating 300 700.

Definition wrote (p : Phase) : Prop :=
  p = Inserting 300 700 \/ p = Settled ok300.

Definition late (p : Phase) : Prop :=
  early p \/ wrote p \/ p = Settled short300.

(** What holds of two debits of 700 in flight on an account that held 1000:
    either nothing is written yet, or 300 is stored and one of the two calls
    wrote it. *)
Definition in_flight (uid : string) (f : Flight) : Prop :=
  reachable (store f) = true /\
  ((users (store f) !! uid = Some 1000 /\ early (first f) /\ early (second f)) \/
   (users (store f) !! uid = Some 300 /\ late (first f) /\ late (second f) /\
    (wrote (first f) \/ wrote (second f)))).

(** ** Calls on a connection that comes and goes

    The statements of a call are awaited one by one, so the connection may
    fail one of them and answer the next: [getUserCredits] then gives 0 from
    its own [catch] and the [try] of its caller goes on to the update and the
    insertion.  [Answers] says which of the three statements of one call the
    database answers; a connection that is up, or down, for the whole call is
    the case of the definitions above. *)

Record Answers := {
  read_answered : bool;
  update_answered : bool;
  insert_answered : bool
}.

Definition steady (up : bool) : Answers :=
  {| read_answered := up; update_answered := up; insert_answered := up |}.

(** The database as one statement finds it. *)
Definition connection (up : bool) (d : DB) : DB :=
  {| users := users d; creditTransactions := creditTransactions d; reachable := up |}.

Definition write_back_when (a : Answers) (d : DB) (uid : string) (balance : Z)
    (row : CreditTransaction) (ok : Outcome) : Outcome * DB :=
  match update_credits (connection (update_answered a) d) uid balance with
  | None => (failed_outcome, d)
  | Some d1 =>
      match insert_transaction (connection (insert_answered a) d1) row with
      | None => (failed_outcome, connection (reachable d) d1)
      | Some d2 => (ok, connection (reachable d) d2)
      end
  end.

Definition deductCredits_when (a : Answers) (d : DB) (uid : string)
    (creditType : CreditType) (mid : option string) (customAmount : option Z)
    (descr : option string) : Outcome * DB :=
  let amt := debit_amount creditType customAmount in
  let current := getUserCredits (connection (read_answered a) d) uid in
  if current <? amt then
    ({| success := false; newBalance := current; message := NotEnough amt current |}, d)
  else
    let balance := current - amt in
    write_back_when a d uid balance (debit_row uid creditType mid amt balance descr)
      {| success := true; newBalance := balance; message := Used amt balance |}.

Definition addCredits_when (a : Answers) (d : DB) (uid : string) (amt : Z)
    (descr : string) : Outcome * DB :=
  let current := getUserCredits (connection (read_answered a) d) uid in
  let balance := current + amt in
  write_back_when a d uid balance (admin_row uid amt balance descr)
    {| success := true; newBalance := balance; message := Added amt balance |}.

Definition setCredits_when (a : Answers) (d : DB) (uid : string) (newAmount : Z)
    (descr : string) : Outcome * DB :=
  let current := getUserCredits (connection (read_answered a) d) uid in
  let difference := newAmount - current in
  write_back_when a d uid newAmount (admin_row uid difference newAmount descr)
    {| success := true; newBalance := newAmount; message := Updated newAmount difference |}.

Definition apply_op_when (d : DB) (call : Answers * Op) : Outcome * DB :=
  match snd call with
  | Debit uid ct mid custom descr => deductCredits_when (fst call) d uid ct mid custom descr
  | Credit uid amt descr => addCredits_when (fst call) d uid amt descr
  | SetBalance uid newAmount descr => setCredits_when (fst call) d uid newAmount descr
  end.

(** Runs the calls one after the other, each with its answers. *)
Fixpoint run_when (d : DB) (calls : list (Answers * Op)) : list Outcome * DB :=
  match calls with
  | [] => ([], d)
  | call :: rest =>
      let '(r, d1) := apply_op_when d call in
      let '(rs, d2) := run_when d1 rest in
      (r :: rs, d2)
  end.



End Ledger.

(* ===================================================================== *)
(** * The provider pool *)
(* ===================================================================== *)

(** A stable sort by an integer rank, as [Array.prototype.sort] with the
    comparator [(a, b) => rank(a) - rank(b)]: elements of equal rank keep
    their order. *)
Fixpoint insert_by {A : Type} (rank : A -> Z) (x : A) (l : list A) : list A :=
  match l with
  | [] => [x]
  | y :: rest =>
      if rank x <=? rank y then x :: y :: rest
      else y :: insert_by rank x rest
  end.

Definition sort_by {A : Type} (rank : A -> Z) (l : list A) : list A :=
  fold_right (insert_by rank) [] l.

(** [haystack.includes(needle)]. *)
Fixpoint includes (haystack needle : string) : bool :=
  String.prefix needle haystack ||
  match haystack with
  | EmptyString => false
  | String _ rest => includes rest needle
  end.

Module Pool.

Inductive Status := active | failed | quota_exceeded | disabled.

Definition status_eqb (a b : Status) : bool :=
  match a, b with
  | active, active | failed, failed
  | quota_exceeded, quota_exceeded | disabled, disabled => true
  | _, _ => false
  end.

(** [FeatureType = keyof typeof QUOTA_RATES]. *)
Inductive FeatureType :=
| chat | imageGeneration | videoAnalysis | webScraping | deepSearch | learning.

Inductive PriorityClass := high | medium | low.

Record Rate := {
  rate_requests : Z;
  rate_tokens : Z;
  rate_images : option Z;     (* present only for image generation *)
  rate_videos : option Z;     (* present only for video analysis *)
  rate_priority : PriorityClass
}.

Definition QUOTA_RATES (f : FeatureType) : Rate :=
  match f with
  | chat => {| rate_requests := 1; rate_tokens := 100; rate_images := None;
               rate_videos := None; rate_priority := medium |}
  | imageGeneration => {| rate_requests := 1; rate_tokens := 200; rate_images := Some 1;
                          rate_videos := None; rate_priority := high |}
  | videoAnalysis => {| rate_requests := 1; rate_tokens := 300; rate_images := None;
                        rate_videos := Some 1; rate_priority := high |}
  | webScraping => {| rate_requests := 1; rate_tokens := 150; rate_images := None;
                      rate_videos := None; rate_priority := medium |}
  | deepSearch => {| rate_requests := 1; rate_tokens := 200; rate_images := None;
                     rate_videos := None; rate_priority := medium |}
  | learning => {| rate_requests := 1; rate_tokens := 100; rate_images := None;
                   rate_videos := None; rate_priority := low |}
  end.

Record QuotaUsage := {
  requests : Z;
  tokens : Z;
  images : Z;
  videos : Z;
  resetTime : Z
}.

Record GeminiAPIConfig := {
  api_id : string;                      (* [id] *)
  key : string;
  priority : Z;
  name : string;
  status : Status;
  lastUsed : option Z;
  requestCount : Z;
  failureCount : Z;
  lastError : option string;
  maxRequestsPerMinute : option Z;
  quotaUsage : QuotaUsage
}.

(** An entry of [rateLimitTracker]. *)
Record Window := {
  window_requests : Z;                  (* [requests] *)
  window_resetTime : Z                  (* [resetTime] *)
}.

(** A pending [setTimeout] of [handleAPIFailure]: when it is due, which
    configuration object its callback holds (by id), and the status the
    callback expects to find before it reactivates. *)
Record Timer := {
  due : Z;
  target : string;
  expects : Status
}.

(** The manager: [apis] lists the values of the [Map] in insertion order (a
    [Map] keeps the position of a key that is set again), [clients] is the
    set of ids that have a client pair, and [timers] the reactivations not yet
    run. *)
Record Manager := {
  apis : list GeminiAPIConfig;
  clients : gset string;
  rateLimitTracker : gmap string Window;
  timers : list Timer
}.

Definition empty_manager : Manager :=
  {| apis := []; clients := ∅; rateLimitTracker := ∅; timers := [] |}.

(** ** The [apis] map *)

Definition apis_get (apiId : string) (l : list GeminiAPIConfig) : option GeminiAPIConfig :=
  find (fun api => String.eqb (api_id api) apiId) l.

Fixpoint apis_set (config : GeminiAPIConfig) (l : list GeminiAPIConfig)
    : list GeminiAPIConfig :=
  match l with
  | [] => [config]
  | api :: rest =>
      if String.eqb (api_id api) (api_id config) then config :: rest
      else api :: apis_set config rest
  end.

(** Assignment to fields of the configuration object stored under an id. *)
Definition apis_update (apiId : string) (f : GeminiAPIConfig -> GeminiAPIConfig)
    (l : list GeminiAPIConfig) : list GeminiAPIConfig :=
  map (fun api => if String.eqb (api_id api) apiId then f api else api) l.

Definition with_health (st : Status) (failures : Z) (err : option string)
    (api : GeminiAPIConfig) : GeminiAPIConfig :=
  {| api_id := api_id api; key := key api; priority := priority api; name := name api;
     status := st; lastUsed := lastUsed api; requestCount := requestCount api;
     failureCount := failures; lastError := err;
     maxRequestsPerMinute := maxRequestsPerMinute api; quotaUsage := quotaUsage api |}.

Definition with_usage (used : option Z) (count : Z) (usage : QuotaUsage)
    (api : GeminiAPIConfig) : GeminiAPIConfig :=
  {| api_id := api_id api; key := key api; priority := priority api; name := name api;
     status := status api; lastUsed := used; requestCount := count;
     failureCount := failureCount api; lastError := lastError api;
     maxRequestsPerMinute := maxRequestsPerMinute api; quotaUsage := usage |}.

Definition with_apis (l : list GeminiAPIConfig) (m : Manager) : Manager :=
  {| apis := l; clients := clients m; rateLimitTracker := rateLimitTracker m;
     timers := timers m |}.

Definition with_tracker (t : gmap string Window) (m : Manager) : Manager :=
  {| apis := apis m; clients := clients m; rateLimitTracker := t; timers := timers m |}.

Section Registry.

(** The SDK constructors [new GoogleGenerativeAI(key)] and
    [new GoogleGenAI({apiKey})] belong to the provider's packages: for each
    key, either both return ([None]) or one throws, with this message. *)
Variable sdk_error : string -> option string.

(** [addAPI].  Setting an id that is already there replaces the stored
    object; the timers that hold the replaced object no longer reach the
    registry. *)
Definition addAPI (config : GeminiAPIConfig) (m : Manager) : Manager :=
  if existsb (fun api => String.eqb (key api) (key config)) (apis m) then m
  else
    let pending :=
      List.filter (fun t => negb (String.eqb (target t) (api_id config))) (timers m) in
    match sdk_error (key config) with
    | None =>
        {| apis := apis_set config (apis m);
           clients := {[ api_id config ]} ∪ clients m;
           rateLimitTracker := rateLimitTracker m;
           timers := pending |}
    | Some thrown =>
        {| apis := apis_set (with_health failed (failureCount config) (Some thrown) config)
                            (apis m);
           clients := clients m;
           rateLimitTracker := rateLimitTracker m;
           timers := pending |}
    end.

Definition runtime_config (keyName apiKey : string) (customName : option string)
    (now : Z) (m : Manager) : GeminiAPIConfig :=
  {| api_id := String.append "runtime_" keyName;
     key := apiKey;
     priority := Z.of_nat (length (apis m)) + 1;
     name := match customName with
             | Some n => if String.eqb n "" then
                           String.append "Gemini API (" (String.append keyName ")")
                         else n
             | None => String.append "Gemini API (" (String.append keyName ")")
             end;
     status := active; lastUsed := None; requestCount := 0; failureCount := 0;
     lastError := None; maxRequestsPerMinute := Some 60;
     quotaUsage := {| requests := 0; tokens := 0; images := 0; videos := 0;
                      resetTime := now |} |}.

(** [addAPIAtRuntime]: the boolean it returns. *)
Definition addAPIAtRuntime (keyName apiKey : string) (customName : option string)
    (now : Z) (m : Manager) : bool * Manager :=
  if negb (String.prefix "AIza" apiKey) then (false, m)
  else (true, addAPI (runtime_config keyName apiKey customName now m) m).

(** The configuration [addAPI] stores: the one given, marked failed when
    the SDK refused the key. *)
Definition stored (config : GeminiAPIConfig) : GeminiAPIConfig :=
  match sdk_error (key config) with
  | None => config
  | Some thrown => with_health failed (failureCount config) (Some thrown) config
  end.

Definition register_all (configs : list GeminiAPIConfig) (m : Manager) : Manager :=
  fold_left (fun acc config => addAPI config acc) configs m.

End Registry.

(** [getAllAPIs]. *)
Definition getAllAPIs (m : Manager) : list GeminiAPIConfig := apis m.

(** [updateAPIStatus]. *)
Definition updateAPIStatus (apiId : string) (st : Status) (m : Manager) : Manager :=
  with_apis
    (apis_update apiId
       (fun api => match st with
                   | active => with_health active 0 None api
                   | _ => with_health st (failureCount api) (lastError api) api
                   end)
       (apis m)) m.

(** ** Rate limiting *)

(** [api?.maxRequestsPerMinute || 60]. *)
Definition ceiling (apiId : string) (m : Manager) : Z :=
  match apis_get apiId (apis m) with
  | Some api =>
      match maxRequestsPerMinute api with
      | Some n => js_or n 60
      | None => 60
      end
  | None => 60
  end.

(** [isRateLimited], at the time [now] its [new Date()] reads. *)
Definition isRateLimited (apiId : string) (now : Z) (m : Manager) : bool * Manager :=
  match rateLimitTracker m !! apiId with
  | None => (false, m)
  | Some tracker =>
      if window_resetTime tracker <? now then
        (false,
         with_tracker (<[apiId := {| window_requests := 0;
                                     window_resetTime := now + 60 * 1000 |}]>
                         (rateLimitTracker m)) m)
      else (ceiling apiId m <=? window_requests tracker, m)
  end.

Definition count_use (feature : FeatureType) (now : Z) (api : GeminiAPIConfig)
    : GeminiAPIConfig :=
  let rate := QUOTA_RATES feature in
  let usage := quotaUsage api in
  with_usage (Some now) (requestCount api + 1)
    {| requests := requests usage + rate_requests rate;
       tokens := tokens usage + rate_tokens rate;
       images := match rate_images rate with
                 | Some n => images usage + n
                 | None => images usage
                 end;
       videos := match rate_videos rate with
                 | Some n => videos usage + n
                 | None => videos usage
                 end;
       resetTime := resetTime usage |}
    api.

(** [trackUsage], at the time [now] of its clock reads. *)
Definition trackUsage (apiId : string) (feature : FeatureType) (now : Z) (m : Manager)
    : Manager :=
  match apis_get apiId (apis m) with
  | None => m
  | Some _ =>
      let fresh := {| window_requests := 0; window_resetTime := now + 60 * 1000 |} in
      let tracker :=
        match rateLimitTracker m !! apiId with
        | Some t => if window_resetTime t <? now then fresh else t
        | None => fresh
        end in
      {| apis := apis_update apiId (count_use feature now) (apis m);
         clients := clients m;
         rateLimitTracker :=
           <[apiId := {| window_requests := window_requests tracker + 1;
                         window_resetTime := window_resetTime tracker |}]>
             (rateLimitTracker m);
         timers := timers m |}
  end.

(** ** Selection *)

(** The [filter] of [getBestAPI] over the snapshot of values: [&&] calls
    [isRateLimited] (which may reset a window) only for an active
    credential. *)
Fixpoint keep_available (now : Z) (snapshot : list GeminiAPIConfig) (m : Manager)
    : list GeminiAPIConfig * Manager :=
  match snapshot with
  | [] => ([], m)
  | api :: rest =>
      if status_eqb (status api) active then
        let '(limited, m1) := isRateLimited (api_id api) now m in
        let '(kept, m2) := keep_available now rest m1 in
        (if limited then kept else api :: kept, m2)
      else keep_available now rest m
  end.

(** [getBestAPI]: the configuration handed out is the stored object, seen
    after [trackUsage] has counted the use. *)
Definition getBestAPI (feature : FeatureType) (now : Z) (m : Manager)
    : option GeminiAPIConfig * Manager :=
  let '(available, m1) := keep_available now (apis m) m in
  let sortedAPIs := sort_by priority available in
  match find (fun api => bool_decide (api_id api ∈ clients m1)) sortedAPIs with
  | Some api =>
      (Some (count_use feature now api), trackUsage (api_id api) feature now m1)
  | None => (None, m1)
  end.

(** ** Failures and timed reactivation *)

(** What [handleAPIFailure] may be given: an [Error] with its message, or any
    other value, with its [message] property if it has one. *)
Inductive Thrown :=
| ErrorObject (message : string)
| OtherValue (message : option string).

(** [error instanceof Error ? error.message : 'Unknown error']. *)
Definition error_text (e : Thrown) : string :=
  match e with
  | ErrorObject msg => msg
  | OtherValue _ => "Unknown error"
  end.

(** [error?.message || '']. *)
Definition error_message (e : Thrown) : string :=
  match e with
  | ErrorObject msg => msg
  | OtherValue (Some msg) => msg
  | OtherValue None => ""
  end.

Definition indicates_quota (errorMessage : string) : bool :=
  includes errorMessage "quota" || includes errorMessage "overloaded" ||
  includes errorMessage "rate limit" || includes errorMessage "503".

(** [handleAPIFailure], called at time [now]. *)
Definition handleAPIFailure (apiId : string) (error : Thrown) (now : Z) (m : Manager)
    : Manager :=
  match apis_get apiId (apis m) with
  | None => m
  | Some _ =>
      let verdict :=
        if indicates_quota (error_message error) then (quota_exceeded, 60 * 60 * 1000)
        else (failed, 5 * 60 * 1000) in
      {| apis := apis_update apiId
                   (fun api => with_health (fst verdict) (failureCount api + 1)
                                           (Some (error_text error)) api)
                   (apis m);
         clients := clients m;
         rateLimitTracker := rateLimitTracker m;
         timers := timers m ++
                   [{| due := now + snd verdict; target := apiId;
                       expects := fst verdict |}] |}
  end.

(** The callback of a reactivation timer. *)
Definition reactivate (expected : Status) (api : GeminiAPIConfig) : GeminiAPIConfig :=
  if status_eqb (status api) expected then
    match expected with
    | quota_exceeded => with_health active 0 (lastError api) api
    | _ => with_health active (failureCount api) (lastError api) api
    end
  else api.

Definition fire (t : Timer) (m : Manager) : Manager :=
  with_apis (apis_update (target t) (reactivate (expects t)) (apis m)) m.

(** The clock reaches [now]: the reactivation timers due by then run,
    earliest first.  The two [setInterval] jobs of the constructor (the daily
    reset of [quotaUsage] and the rediscovery of keys every five minutes) are
    not among them. *)
Definition elapse (now : Z) (m : Manager) : Manager :=
  let ripe := List.filter (fun t => due t <=? now) (timers m) in
  let pending := List.filter (fun t => negb (due t <=? now)) (timers m) in
  fold_left (fun acc t => fire t acc) (sort_by due ripe)
            {| apis := apis m; clients := clients m;
               rateLimitTracker := rateLimitTracker m; timers := pending |}.

(** ** The pool over time *)

(** What happens to the pool: a failure is reported, a credential is asked
    for, or time passes (and the timers that become due run). *)
Inductive Event :=
| Report (apiId : string) (error : Thrown)
| Acquire (feature : FeatureType)
| Wait (ms : N).

(** The clock, the manager, and the credentials handed out so far, each with
    the time of the call (latest first). *)
Record World := {
  clock : Z;
  manager : Manager;
  handed : list (Z * string)
}.

Definition happen (w : World) (e : Event) : World :=
  match e with
  | Report apiId error =>
      {| clock := clock w;
         manager := handleAPIFailure apiId error (clock w) (manager w);
         handed := handed w |}
  | Acquire feature =>
      let '(best, m) := getBestAPI feature (clock w) (manager w) in
      {| clock := clock w;
         manager := m;
         handed := match best with
                   | Some config => (clock w, api_id config) :: handed w
                   | None => handed w
                   end |}
  | Wait ms =>
      {| clock := clock w + Z.of_N ms;
         manager := elapse (clock w + Z.of_N ms) (manager w);
         handed := handed w |}
  end.

Definition history (events : list Event) (w : World) : World :=
  fold_left happen events w.

(** Every call on the manager: the registrations and the manual status
    update besides the events above. *)
Inductive Command :=
| Register (config : GeminiAPIConfig)
| RegisterAtRuntime (keyName apiKey : string) (customName : option string)
| SetStatus (apiId : string) (st : Status)
| Occur (e : Event).

Definition perform (sdk_error : string -> option string) (w : World) (c : Command)
    : World :=
  match c with
  | Register config =>
      {| clock := clock w; manager := addAPI sdk_error config (manager w);
         handed := handed w |}
  | RegisterAtRuntime keyName apiKey customName =>
      {| clock := clock w;
         manager := snd (addAPIAtRuntime sdk_error keyName apiKey customName
                                         (clock w) (manager w));
         handed := handed w |}
  | SetStatus apiId st =>
      {| clock := clock w; manager := updateAPIStatus apiId st (manager w);
         handed := handed w |}
  | Occur e => happen w e
  end.

(** ** Vocabulary of the pool properties *)

(** The answer of [isRateLimited], without its effect on the window. *)
Definition limited (now : Z) (m : Manager) (apiId : string) : bool :=
  fst (isRateLimited apiId now m).

(** What [getBestAPI] filters on. *)
Definition available (now : Z) (m : Manager) (api : GeminiAPIConfig) : bool :=
  status_eqb (status api) active && negb (limited now m (api_id api)).

(** The values of a [Map] have pairwise distinct keys. *)
Definition well_keyed (m : Manager) : Prop := List.NoDup (map api_id (apis m)).

(** Every registered credential has its client pair. *)
Definition all_have_clients (m : Manager) : Prop :=
  forall api, In api (apis m) -> api_id api ∈ clients m.

(** Every active credential has its client pair (the one [addAPI] builds
    when the SDK accepts the key). *)
Definition active_have_clients (m : Manager) : Prop :=
  forall api, In api (apis m) -> status api = active -> api_id api ∈ clients m.

(** The secrets of a list of registrations, each at its first occurrence. *)
Definition see (seen : list string) (secret : string) : list string :=
  if existsb (String.eqb secret) seen then seen else seen ++ [secret].

Definition first_seen (secrets : list string) : list string :=
  fold_left see secrets [].

(** Registrations in which credentials with different secrets never come
    under the same id. *)
Definition coherent (configs : list GeminiAPIConfig) : Prop :=
  forall c1 c2, In c1 configs -> In c2 configs ->
                api_id c1 = api_id c2 -> key c1 = key c2.

(** [trackUsage] called for one credential, once per listed feature and
    time. *)
Definition record_uses (apiId : string) (uses : list (FeatureType * Z)) (m : Manager)
    : Manager :=
  fold_left (fun acc use => trackUsage apiId (fst use) (snd use) acc) uses m.

(** At time [t] the credential has no running window: none was ever opened,
    or the last one's reset time is past. *)
Definition window_closed (t : Z) (m : Manager) (apiId : string) : Prop :=
  match rateLimitTracker m !! apiId with
  | Some w => window_resetTime w < t
  | None => True
  end.

(** How long a failure keeps a credential out: one hour when the error
    indicates quota exhaustion, five minutes otherwise. *)
Definition quarantine (error : Thrown) : Z :=
  if indicates_quota (error_message error) then 60 * 60 * 1000 else 5 * 60 * 1000.

Definition fresh_config (apiId secret : string) (prio : Z) : GeminiAPIConfig :=
  {| api_id := apiId; key := secret; priority := prio; name := apiId;
     status := active; lastUsed := None; requestCount := 0; failureCount := 0;
     lastError := None; maxRequestsPerMinute := Some 60;
     quotaUsage := {| requests := 0; tokens := 0; images := 0; videos := 0;
                      resetTime := 0 |} |}.

Definition capped (n : Z) (api : GeminiAPIConfig) : GeminiAPIConfig :=
  {| api_id := api_id api; key := key api; priority := priority api; name := name api;
     status := status api; lastUsed := lastUsed api; requestCount := requestCount api;
     failureCount := failureCount api; lastError := lastError api;
     maxRequestsPerMinute := Some n; quotaUsage := quotaUsage api |}.

(** The SDK accepting every key. *)
Definition sdk_fine (secret : string) : option string := None.

(** A pool of two credentials, [primary] preferred over [api_2]. *)
Definition two_keys : Manager :=
  register_all sdk_fine
    [fresh_config "primary" "AIzaPrimary" 1; fresh_config "api_2" "AIzaSecond" 2]
    empty_manager.

(** The pool of two credentials at time 0, nothing handed out yet. *)
Definition at_start : World :=
  {| clock := 0; manager := two_keys; handed := [] |}.

(** Two requests in flight on [primary] both fail on quota, two seconds
    apart; [getBestAPI] is then called just before and at the hour of the
    first report. *)
Definition two_quota_reports : list Event :=
  [Report "primary" (ErrorObject "429 quota exceeded");
   Wait 2000;
   Report "primary" (ErrorObject "You exceeded your current quota");
   Wait 3597999; Acquire chat;
   Wait 1; Acquire chat].

(** A quota failure of [primary], and a second later a transient failure
    of a request still in flight on it; [getBestAPI] is called just before
    and at five minutes after the second report. *)
Definition quota_then_transient : list Event :=
  [Report "primary" (ErrorObject "429 quota exceeded");
   Wait 1000;
   Report "primary" (ErrorObject "fetch failed");
   Wait 299999; Acquire chat;
   Wait 1; Acquire chat].

(** The event leaves the credential [a] alone: it is not a failure report
    about it. *)
Definition spares (a : string) (e : Event) : Prop :=
  match e with
  | Report b _ => b <> a
  | _ => True
  end.

(** No configuration stored under [a] is active. *)
Definition inactive (a : string) (l : list GeminiAPIConfig) : Prop :=
  forall api, In api l -> api_id api = a -> status api <> active.

(** Until [deadline], the credential [a] is out and no timer will bring it
    back, and it was not handed out before [deadline]. *)
Definition quarantined (a : string) (deadline : Z) (w : World) : Prop :=
  (clock w < deadline ->
   inactive a (apis (manager w)) /\
   (forall t, In t (timers (manager w)) -> target t = a -> deadline <= due t)) /\
  (forall t b, In (t, b) (handed w) -> t < deadline -> b <> a).

(** A pool of one credential allowed two requests a minute. *)
Definition two_a_minute : Manager :=
  register_all sdk_fine [capped 2 (fresh_config "primary" "AIzaPrimary" 1)] empty_manager.

(** ** Status summary and warnings *)

Record QuotaWarning := {
  warning_api : string;                 (* [api]: the credential's name *)
  warning_feature : FeatureType;        (* [feature] *)
  warning_usage : Z                     (* [usage] *)
}.

Record StatusSummary := {
  totalAPIs : Z;
  activeAPIs : Z;
  failedAPIs : Z;
  quotaExceededAPIs : Z;
  quotaWarnings : list QuotaWarning
}.

(** [Object.entries(QUOTA_RATES)], in the order of the declaration. *)
Definition features : list FeatureType :=
  [chat; imageGeneration; videoAnalysis; webScraping; deepSearch; learning].

(** The counters are JavaScript numbers.  The products and sums that
    [getHeaviestFeature] forms from non-negative counters are whole numbers
    no larger than the cost at the heaviest rates (300 tokens, one image, one
    video); while that stays within 2^53 each of them is exact, and the
    integers below compute what the code computes. *)
Definition within_doubles (usage : QuotaUsage) : Prop :=
  requests usage + 300 * tokens usage + images usage + videos usage
    <= 9007199254740992.

(** The cost of one feature in [getHeaviestFeature], for counters
    [within_doubles]. *)
Definition feature_cost (rate : Rate) (usage : QuotaUsage) : Z :=
  rate_requests rate * requests usage + rate_tokens rate * tokens usage +
  match rate_images rate with Some n => n | None => 0 end * images usage +
  match rate_videos rate with Some n => n | None => 0 end * videos usage.

(** [getHeaviestFeature]. *)
Definition getHeaviestFeature (api : GeminiAPIConfig) : FeatureType :=
  fst (fold_left
         (fun acc feature =>
            let cost := feature_cost (QUOTA_RATES feature) (quotaUsage api) in
            if snd acc <? cost then (feature, cost) else acc)
         features (chat, 0)).

Definition count_status (st : Status) (l : list GeminiAPIConfig) : Z :=
  Z.of_nat (length (List.filter (fun api => status_eqb (status api) st) l)).

(** [getStatusSummary]. *)
Definition getStatusSummary (m : Manager) : StatusSummary :=
  {| totalAPIs := Z.of_nat (length (apis m));
     activeAPIs := count_status active (apis m);
     failedAPIs := count_status failed (apis m);
     quotaExceededAPIs := count_status quota_exceeded (apis m);
     quotaWarnings :=
       map (fun api => {| warning_api := name api;
                          warning_feature := getHeaviestFeature api;
                          warning_usage := requests (quotaUsage api) |})
           (List.filter (fun api => 1000 <? requests (quotaUsage api)) (apis m)) |}.

(** The parts of the text of [getQuotaWarningMessage]: the line on exhausted
    credentials (how many of how many) when there is one, and a line per
    warning, followed by the recommendation when there is any. *)
Record WarningMessage := {
  exhausted_line : option (Z * Z);
  consumer_lines : list QuotaWarning;
  recommendation : bool
}.

(** [getQuotaWarningMessage]; [None] is [null]. *)
Definition getQuotaWarningMessage (m : Manager) : option WarningMessage :=
  let status := getStatusSummary m in
  if (0 <? quotaExceededAPIs status) || (0 <? Z.of_nat (length (quotaWarnings status)))
  then
    Some {| exhausted_line :=
              if 0 <? quotaExceededAPIs status
              then Some (quotaExceededAPIs status, totalAPIs status) else None;
            consumer_lines := quotaWarnings status;
            recommendation := 0 <? Z.of_nat (length (quotaWarnings status)) |}
  else None.

(** ** Vocabulary of the further pool properties *)

(** How often a credential was handed out. *)
Definition handed_to (x : string) (w : World) : Z :=
  Z.of_nat (length (List.filter (fun h => String.eqb (snd h) x) (handed w))).

(** No time passes during the event. *)
Definition instant (e : Event) : Prop :=
  match e with
  | Wait _ => False
  | _ => True
  end.

(** No configuration stored under [a] has another status than [disabled]. *)
Definition switched_off (a : string) (l : list GeminiAPIConfig) : Prop :=
  forall api, In api l -> api_id api = a -> status api = disabled.

(** The requests counted in the window of a credential that is running at
    [now]. *)
Definition window_count (now : Z) (m : Manager) (apiId : string) : Z :=
  match rateLimitTracker m !! apiId with
  | Some w => if window_resetTime w <? now then 0 else window_requests w
  | None => 0
  end.

(** The window of the credential, if it has one, ends before [from] or not
    before [till]. *)
Definition window_outside (from till : Z) (m : Manager) (apiId : string) : Prop :=
  match rateLimitTracker m !! apiId with
  | Some w => window_resetTime w < from \/ till <= window_resetTime w
  | None => True
  end.

(** The feature of the ledger with the same name. *)
Definition credit_type (f : FeatureType) : Ledger.CreditType :=
  match f with
  | chat => Ledger.chat
  | imageGeneration => Ledger.imageGeneration
  | videoAnalysis => Ledger.videoAnalysis
  | webScraping => Ledger.webScraping
  | deepSearch => Ledger.deepSearch
  | learning => Ledger.learning
  end.

End Pool.

(* ===================================================================== *)
(** * The response cache *)
(* ===================================================================== *)

Module Cache.

(** A JavaScript string: its UTF-16 code units. *)
Definition jsstring := list Z.

(** What [\s] matches and [trim] removes: the white space and line
    terminator code points of ECMAScript. *)
Definition is_space (c : Z) : bool :=
  ((9 <=? c) && (c <=? 13)) || (c =? 32) || (c =? 160) || (c =? 5760) ||
  ((8192 <=? c) && (c <=? 8202)) || (c =? 8232) || (c =? 8233) ||
  (c =? 8239) || (c =? 8287) || (c =? 12288) || (c =? 65279).

(** What [\w] matches without the [u] flag: [A-Za-z0-9_]. *)
Definition is_word (c : Z) : bool :=
  ((65 <=? c) && (c <=? 90)) || ((97 <=? c) && (c <=? 122)) ||
  ((48 <=? c) && (c <=? 57)) || (c =? 95).

(** [toLowerCase] on one code unit.  The engine applies the Unicode case
    mapping; this covers Basic Latin, the Latin-1 Supplement, Latin
    Extended-A, the letters O-horn and U-horn, Latin Extended Additional and
    the Kelvin and Angstrom signs, which hold every letter of the Vietnamese
    alphabet.  A code unit outside these is left as it is. *)
Definition lower_unit (c : Z) : list Z :=
  if (65 <=? c) && (c <=? 90) then [c + 32]
  else if (192 <=? c) && (c <=? 222) && negb (c =? 215) then [c + 32]
  else if c =? 304 then [105; 775]
  else if c =? 376 then [255]
  else if ((256 <=? c) && (c <=? 311) || (330 <=? c) && (c <=? 375)) && Z.even c
       then [c + 1]
  else if ((313 <=? c) && (c <=? 328) || (377 <=? c) && (c <=? 382)) && Z.odd c
       then [c + 1]
  else if (c =? 416) || (c =? 431) then [c + 1]
  else if c =? 7838 then [223]
  else if ((7680 <=? c) && (c <=? 7829) || (7840 <=? c) && (c <=? 7935)) && Z.even c
       then [c + 1]
  else if c =? 8490 then [107]
  else if c =? 8491 then [229]
  else [c].

Definition toLowerCase (s : jsstring) : jsstring := flat_map lower_unit s.

Fixpoint trimStart (s : jsstring) : jsstring :=
  match s with
  | c :: rest => if is_space c then trimStart rest else s
  | [] => []
  end.

Definition trim (s : jsstring) : jsstring :=
  rev (trimStart (rev (trimStart s))).

(** [replace(/\s+/g, ' ')]: each maximal run of white space becomes one
    space; [in_run] tells that the previous code unit was white space. *)
Fixpoint collapse (in_run : bool) (s : jsstring) : jsstring :=
  match s with
  | [] => []
  | c :: rest =>
      if is_space c then
        if in_run then collapse true rest else 32 :: collapse true rest
      else c :: collapse false rest
  end.

(** [replace(/[^\w\s]/g, '')]. *)
Definition strip (s : jsstring) : jsstring :=
  List.filter (fun c => is_word c || is_space c) s.

Definition normalize (query : jsstring) : jsstring :=
  strip (collapse false (trim (toLowerCase query))).

(** [ToInt32]: the 32-bit two's complement reading of an integer. *)
Definition to_int32 (z : Z) : Z :=
  let r := z mod 4294967296 in
  if r <? 2147483648 then r else r - 4294967296.

(** One round of the loop: [hash = ((hash << 5) - hash) + char] and then
    [hash = hash & hash]. *)
Definition hash_step (hash char : Z) : Z :=
  let sum := to_int32 (Z.shiftl (to_int32 hash) 5) - hash + char in
  Z.land (to_int32 sum) (to_int32 sum).

(** [hash.toString()]. *)
Definition toString (z : Z) : string := NilZero.string_of_int (Z.to_int z).

Definition generateQueryHash (query : jsstring) : string :=
  toString (fold_left hash_step (normalize query) 0).

Inductive CacheType := chat | learning | webScraper | deepSearch.

Definition type_name (t : CacheType) : string :=
  match t with
  | chat => "chat"
  | learning => "learning"
  | webScraper => "webScraper"
  | deepSearch => "deepSearch"
  end.

Record CachedResponse := {
  content : jsstring;
  timestamp : Z;
  expiryTime : Z;
  queryHash : string
}.

(** [responseCache]: the entries of the [Map] in insertion order. *)
Definition ResponseCache := list (string * CachedResponse).

Definition CACHE_DURATION : Z := 30 * 60 * 1000.

Definition cache_get (k : string) (cache : ResponseCache) : option CachedResponse :=
  snd <$> find (fun entry => String.eqb (fst entry) k) cache.

Fixpoint cache_set (k : string) (v : CachedResponse) (cache : ResponseCache)
    : ResponseCache :=
  match cache with
  | [] => [(k, v)]
  | entry :: rest =>
      if String.eqb (fst entry) k then (k, v) :: rest
      else entry :: cache_set k v rest
  end.

Definition cache_delete (k : string) (cache : ResponseCache) : ResponseCache :=
  List.filter (fun entry => negb (String.eqb (fst entry) k)) cache.

(** The template [`${type}_${queryHash}`]. *)
Definition cache_key (query : jsstring) (type : CacheType) : string :=
  String.append (type_name type) (String.append "_" (generateQueryHash query)).

(** [getCachedResponse], at the time [now] of its [new Date()]. *)
Definition getCachedResponse (query : jsstring) (type : CacheType) (now : Z)
    (cache : ResponseCache) : option jsstring * ResponseCache :=
  let cacheKey := cache_key query type in
  match cache_get cacheKey cache with
  | Some cached =>
      if now <? expiryTime cached then (Some (content cached), cache)
      else (None, cache_delete cacheKey cache)
  | None => (None, cache)
  end.

(** [setCachedResponse], at the time [now] of its [new Date()]. *)
Definition setCachedResponse (query response : jsstring) (type : CacheType) (now : Z)
    (cache : ResponseCache) : ResponseCache :=
  let cacheKey := cache_key query type in
  let cache1 :=
    cache_set cacheKey
      {| content := response; timestamp := now;
         expiryTime := now + CACHE_DURATION;
         queryHash := generateQueryHash query |} cache in
  if (100 <? length cache1)%nat then
    match cache1 with
    | (oldestKey, _) :: _ =>
        if String.eqb oldestKey "" then cache1 else cache_delete oldestKey cache1
    | [] => cache1
    end
  else cache1.

(** ** Vocabulary of the cache properties *)

(** The cache holds at most 100 entries, none under the empty key. *)
Definition bounded (cache : ResponseCache) : Prop :=
  (length cache <= 100)%nat /\ forall entry, In entry cache -> fst entry <> ""%string.

(** The space-padded, capitalised and punctuated phrasing and the plain
    phrasing of the same request, as UTF-16 code units. *)
Definition phrase_padded : jsstring :=
  [32; 32; 84; 7841; 111; 32; 7842; 110; 104; 32; 32; 32; 99; 111; 110; 32;
   109; 232; 111; 33].

Definition phrase_plain : jsstring :=
  [116; 7841; 111; 32; 7843; 110; 104; 32; 99; 111; 110; 32; 109; 232; 111].

(** ** The other operations of the optimizer *)

Record CacheStats := {
  totalEntries : Z;
  validEntries : Z;
  expiredEntries : Z;
  cacheHitPotential : bool       (* which of the two texts: is there a valid entry *)
}.

(** [getCacheStats], at the time [now] of its [new Date()]. *)
Definition getCacheStats (now : Z) (cache : ResponseCache) : CacheStats :=
  let valid := List.filter (fun entry => now <? expiryTime (snd entry)) cache in
  {| totalEntries := Z.of_nat (length cache);
     validEntries := Z.of_nat (length valid);
     expiredEntries := Z.of_nat (length cache) - Z.of_nat (length valid);
     cacheHitPotential := 0 <? Z.of_nat (length valid) |}.

(** [cleanupExpiredCache]: the loop runs over a snapshot of the entries and
    deletes by key from the live map. *)
Definition cleanupExpiredCache (now : Z) (cache : ResponseCache) : Z * ResponseCache :=
  fold_left
    (fun acc entry =>
       if expiryTime (snd entry) <=? now
       then (fst acc + 1, cache_delete (fst entry) (snd acc))
       else acc)
    cache (0, cache).

(** [replace(/\n+/g, '\n')]. *)
Fixpoint collapse_newlines (in_run : bool) (s : jsstring) : jsstring :=
  match s with
  | [] => []
  | c :: rest =>
      if c =? 10 then
        if in_run then collapse_newlines true rest
        else 10 :: collapse_newlines true rest
      else c :: collapse_newlines false rest
  end.

(** [optimizePrompt]. *)
Definition optimizePrompt (prompt : jsstring) : jsstring :=
  firstn (Z.to_nat 8000) (trim (collapse_newlines false (collapse false prompt))).

(** ** Vocabulary of the further cache properties *)

(** The keys of a [Map] are pairwise distinct. *)
Definition distinct_keys (cache : ResponseCache) : Prop :=
  List.NoDup (map fst cache).

Definition valid_at (now : Z) (entry : string * CachedResponse) : bool :=
  now <? expiryTime (snd entry).

(** Whether the strings of a list are pairwise distinct. *)
Fixpoint distinctb (l : list string) : bool :=
  match l with
  | [] => true
  | k :: rest => negb (existsb (String.eqb k) rest) && distinctb rest
  end.

(** A cache filled to its bound: 100 entries under the one-character keys of
    codes 33 to 132, expiring at 1000, 1001, ... *)
Definition full_cache : ResponseCache :=
  map (fun n => (String (ascii_of_nat (33 + n)) EmptyString,
                 {| content := [Z.of_nat n]; timestamp := 0;
                    expiryTime := 1000 + Z.of_nat n; queryHash := "0" |}))
      (seq 0 100).

(** The hash before it wraps: [31 * hash + char] at each code unit. *)
Definition polynomial (text : jsstring) : Z :=
  fold_left (fun hash char => 31 * hash + char) text 0.

(** The code units a normalised query is made of: [a-z], [0-9], [_] and the
    space. *)
Definition plain_unit (c : Z) : bool :=
  ((97 <=? c) && (c <=? 122)) || ((48 <=? c) && (c <=? 57)) || (c =? 95) || (c =? 32).

(** An ASCII capital letter made small, any other code unit as it is. *)
Definition small_ascii (c : Z) : Z :=
  if (65 <=? c) && (c <=? 90) then c + 32 else c.

(** No white space but U+0020, never two in a row, and none in front when
    [after_space] is set. *)
Fixpoint single_spaced (after_space : bool) (s : jsstring) : bool :=
  match s with
  | [] => true
  | c :: rest =>
      if is_space c then (c =? 32) && negb after_space && single_spaced true rest
      else single_spaced false rest
  end.

End Cache.

(* ===================================================================== *)
(** * Credit history and analytics *)
(* ===================================================================== *)

Module Reports.
Import Ledger.

(** [db.select().from(creditTransactions).where(userId).orderBy(desc(createdAt))
    .limit(limit)]: the rows of the user, newest first ([createdAt] is the
    insertion time, which grows from row to row).  The query builder writes
    the [LIMIT] clause for a limit that is not negative and leaves it out for
    a negative one, which then returns every row of the user. *)
Definition select_history (d : DB) (uid : string) (limit : Z)
    : option (list CreditTransaction) :=
  if reachable d then
    let rows := rev (List.filter (fun row => String.eqb (userId row) uid)
                                 (creditTransactions d)) in
    Some (if limit <? 0 then rows else firstn (Z.to_nat limit) rows)
  else None.

(** [getCreditHistory]: the rows, or [[]] from the [catch]. *)
Definition getCreditHistory (d : DB) (uid : string) (limit : Z) : list CreditTransaction :=
  match select_history d uid limit with
  | Some rows => rows
  | None => []
  end.

Definition CreditType_eqb (a b : CreditType) : bool :=
  match a, b with
  | chat, chat | imageGeneration, imageGeneration | videoAnalysis, videoAnalysis
  | webScraping, webScraping | deepSearch, deepSearch | learning, learning => true
  | _, _ => false
  end.

Definition TxType_eqb (a b : TxType) : bool :=
  match a, b with
  | feature x, feature y => CreditType_eqb x y
  | admin_adjustment, admin_adjustment => true
  | _, _ => false
  end.

(** [featureCount[t.type] = (featureCount[t.type] || 0) + 1] on an object
    whose keys keep their insertion order. *)
Fixpoint bump (t : TxType) (counts : list (TxType * Z)) : list (TxType * Z) :=
  match counts with
  | [] => [(t, js_or 0 0 + 1)]
  | (u, n) :: rest =>
      if TxType_eqb u t then (u, js_or n 0 + 1) :: rest
      else (u, n) :: bump t rest
  end.

Definition featureCount (transactions : list CreditTransaction) : list (TxType * Z) :=
  fold_left (fun counts row => if amount row <? 0 then bump (type row) counts else counts)
            transactions [].

(** What [getMostUsedFeature] returns: one of its two fixed texts, or a
    transaction type. *)
Inductive MostUsed :=
| NoActivity                       (* 'Chua co hoat dong' *)
| Undetermined                     (* 'Khong xac dinh' *)
| Top (t : TxType).

Definition getMostUsedFeature (transactions : list CreditTransaction) : MostUsed :=
  let entries := featureCount transactions in
  match entries with
  | [] => NoActivity
  | _ :: _ =>
      match sort_by (fun entry => - snd entry) entries with
      | (t, _) :: _ => Top t
      | [] => Undetermined
      end
  end.

Record Analytics := {
  analytics_credits : Z;            (* [currentCredits] *)
  totalSpent : Z;
  totalEarned : Z;
  transactionCount : Z;
  mostUsedFeature : MostUsed;
  recentTransactions : list CreditTransaction
}.

(** The object [getCreditAnalytics] builds from the balance and the history
    it read. *)
Definition analytics_of (current : Z) (history : list CreditTransaction) : Analytics :=
  {| analytics_credits := current;
     totalSpent := fold_left (fun sum row => sum + Z.abs (amount row))
                     (List.filter (fun row => amount row <? 0) history) 0;
     totalEarned := fold_left (fun sum row => sum + amount row)
                      (List.filter (fun row => 0 <? amount row) history) 0;
     transactionCount := Z.of_nat (length history);
     mostUsedFeature := getMostUsedFeature history;
     recentTransactions := firstn 5 history |}.

(** [getCreditAnalytics]; [None] is the [null] of its [catch].  Its two
    reads are awaited one after the other, and each has a [catch] of its own:
    [history_answered] and [credits_answered] say which of them the database
    answers. *)
Definition getCreditAnalytics_when (history_answered credits_answered : bool)
    (d : DB) (uid : string) : option Analytics :=
  let history := getCreditHistory (connection history_answered d) uid 100 in
  let current := getUserCredits (connection credits_answered d) uid in
  Some (analytics_of current history).

(** The same on a connection that is up, or down, for the whole call. *)
Definition getCreditAnalytics (d : DB) (uid : string) : option Analytics :=
  getCreditAnalytics_when (reachable d) (reachable d) d uid.

(** ** Vocabulary of the further ledger properties *)

(** How many debits (rows of negative amount) of a type there are. *)
Definition debits_of (t : TxType) (transactions : list CreditTransaction) : Z :=
  Z.of_nat (length (List.filter
                      (fun row => (amount row <? 0) && TxType_eqb (type row) t)
                      transactions)).

(** The count recorded for a type, 0 when there is none. *)
Definition count_in (counts : list (TxType * Z)) (t : TxType) : Z :=
  match find (fun entry => TxType_eqb (fst entry) t) counts with
  | Some entry => snd entry
  | None => 0
  end.


(** The rows of one user, in creation order. *)
Definition rows_of (uid : string) (rows : list CreditTransaction) : list CreditTransaction :=
  List.filter (fun row => String.eqb (userId row) uid) rows.

End Reports.

(* ===================================================================== *)
(** * Loading the credentials from the environment *)
(* ===================================================================== *)

Module Loader.
Import Pool.

(** [process.env]: the variables in the order [Object.keys] lists them,
    each name once. *)
Definition Env := list (string * string).

(** [process.env[name]]. *)
Definition env_get (name : string) (env : Env) : option string :=
  option_map snd (find (fun entry => String.eqb (fst entry) name) env).

(** What passes [if (value)]: a string that is defined and not empty. *)
Definition truthy (value : option string) : option string :=
  match value with
  | Some s => if String.eqb s "" then None else Some s
  | None => None
  end.

(** [`GEMINI_API_KEY_${i}`] and [`api_${i}`]: the number is printed as
    [toString] prints it. *)
Definition numbered_name (i : Z) : string :=
  String.append "GEMINI_API_KEY_" (Cache.toString i).

Definition numbered_id (i : Z) : string := String.append "api_" (Cache.toString i).

Fixpoint drop (n : nat) (s : string) : string :=
  match n, s with
  | S n', String _ rest => drop n' rest
  | _, _ => s
  end.

Definition is_digit (c : ascii) : bool :=
  (48 <=? nat_of_ascii c)%nat && (nat_of_ascii c <=? 57)%nat.

Fixpoint all_digits (s : string) : bool :=
  match s with
  | EmptyString => true
  | String c rest => is_digit c && all_digits rest
  end.

(** [envKey.match(/^GEMINI_API_KEY_\d+$/)] is not [null]. *)
Definition matches_numbered (envKey : string) : bool :=
  String.prefix "GEMINI_API_KEY_" envKey &&
  negb (String.eqb (drop 15 envKey) "") && all_digits (drop 15 envKey).

(** [s.replace(pattern, '')] for a string pattern: the first occurrence is
    removed. *)
Fixpoint replace_first (pattern s : string) : string :=
  if String.prefix pattern s then drop (String.length pattern) s
  else match s with
       | EmptyString => EmptyString
       | String c rest => String c (replace_first pattern rest)
       end.

(** [toLowerCase] on the names of environment variables, which are ASCII:
    the letters [A] to [Z] are mapped, every other byte is kept. *)
Definition lower (c : ascii) : ascii :=
  if (65 <=? nat_of_ascii c)%nat && (nat_of_ascii c <=? 90)%nat
  then ascii_of_nat (nat_of_ascii c + 32) else c.

Fixpoint toLowerCase (s : string) : string :=
  match s with
  | EmptyString => EmptyString
  | String c rest => String (lower c) (toLowerCase rest)
  end.

(** The configuration object each of the three places of
    [loadAPIConfigurations] builds. *)
Definition loaded (apiId secret : string) (prio : Z) (label : string) (now : Z)
    : GeminiAPIConfig :=
  {| api_id := apiId; key := secret; priority := prio; name := label;
     status := active; lastUsed := None; requestCount := 0; failureCount := 0;
     lastError := None; maxRequestsPerMinute := Some 60;
     quotaUsage := {| requests := 0; tokens := 0; images := 0; videos := 0;
                      resetTime := now |} |}.

(** The test of the scan for custom names. *)
Definition is_custom (envKey : string) : bool :=
  String.prefix "GEMINI_API_KEY_" envKey &&
  negb (String.eqb envKey "GEMINI_API_KEY") &&
  negb (matches_numbered envKey).

Definition custom_id (envKey : string) : string :=
  String.append "custom_" (toLowerCase (replace_first "GEMINI_API_KEY_" envKey)).

Section Loading.

Variable sdk_error : string -> option string.

Variable env : Env.

(** The time [new Date()] reads when the configuration for a variable is
    built. *)
Variable built_at : string -> Z.

Definition load_primary (m : Manager) : Manager :=
  match truthy (env_get "GEMINI_API_KEY" env) with
  | Some apiKey =>
      addAPI sdk_error
        (loaded "primary" apiKey 1 "Gemini Primary API" (built_at "GEMINI_API_KEY")) m
  | None => m
  end.

(** The [while (true)] loop over the numbered variables, from [i] on; it
    gives [None] when [fuel] iterations did not reach the [break]. *)
Fixpoint load_numbered (fuel : nat) (i : Z) (m : Manager) : option Manager :=
  match fuel with
  | O => None
  | S fuel' =>
      match truthy (env_get (numbered_name i) env) with
      | None => if i <=? 50 then load_numbered fuel' (i + 1) m else Some m
      | Some apiKey =>
          load_numbered fuel' (i + 1)
            (addAPI sdk_error
               (loaded (numbered_id i) apiKey i
                       (String.append "Gemini API " (Cache.toString i))
                       (built_at (numbered_name i))) m)
      end
  end.

(** The callback of the scan over [Object.keys(process.env)]. *)
Definition load_custom (m : Manager) (envKey : string) : Manager :=
  if is_custom envKey then
    match truthy (env_get envKey env) with
    | Some apiKey =>
        match apis_get (custom_id envKey) (apis m) with
        | Some _ => m
        | None =>
            addAPI sdk_error
              (loaded (custom_id envKey) apiKey (100 + Z.of_nat (length (apis m)))
                      (String.append "Gemini API ("
                         (String.append
                            (toLowerCase (replace_first "GEMINI_API_KEY_" envKey)) ")"))
                      (built_at envKey)) m
        end
    | None => m
    end
  else m.

(** [loadAPIConfigurations], which the constructor runs on the empty
    manager and the discovery timer every five minutes. *)
Definition loadAPIConfigurations (fuel : nat) (m : Manager) : option Manager :=
  match load_numbered fuel 2 (load_primary m) with
  | Some m' => Some (fold_left load_custom (map fst env) m')
  | None => None
  end.

End Loading.

(** The secrets and ids registered in [m] are registered in [m']. *)
Definition grows (m m' : Manager) : Prop :=
  (forall k, In k (map key (apis m)) -> In k (map key (apis m'))) /\
  (forall x, In x (map api_id (apis m)) -> In x (map api_id (apis m'))).

(** An environment with the primary key, the numbered keys 2, 3 and 52,
    and two custom names that differ in case only. *)
Definition sample_env : Env :=
  [("PATH", "/usr/bin"); ("GEMINI_API_KEY", "AIzaPrimary");
   ("GEMINI_API_KEY_2", "AIzaSecond"); ("GEMINI_API_KEY_3", "AIzaPrimary");
   ("GEMINI_API_KEY_52", "AIzaLate");
   ("GEMINI_API_KEY_Backup", "AIzaBackup"); ("GEMINI_API_KEY_BACKUP", "AIzaOther")]%string.

Definition epoch (name : string) : Z := 0.

(** The pool the constructor builds from [sample_env]. *)
Definition sample_pool : Manager :=
  match loadAPIConfigurations sdk_fine sample_env epoch 60 empty_manager with
  | Some m => m
  | None => empty_manager
  end.

(** The ids the load has used before it looks at the numbered variable
    [i]. *)
Definition early (i : Z) (x : string) : Prop :=
  x = "primary"%string \/ exists j, 2 <= j < i /\ x = numbered_id j.

End Loader.

Module LedgerSpec.
Import Ledger.

(** ** Elementary facts about the statements *)

Lemma js_or_zero (a : Z) : js_or a 0 = a.
Proof. unfold js_or. destruct (Z.eqb_spec a 0); congruence. Qed.

Lemma getUserCredits_row (d : DB) (uid : string) (b : Z) :
  reachable d = true -> users d !! uid = Some b -> getUserCredits d uid = b.
Proof.
  intros Hr Hu. unfold getUserCredits, select_credits.
  rewrite Hr, Hu. apply js_or_zero.
Qed.

Lemma update_credits_Some (d d1 : DB) (uid : string) (v : Z) :
  update_credits d uid v = Some d1 ->
  reachable d = true /\ int4 v = true /\
  reachable d1 = true /\
  creditTransactions d1 = creditTransactions d /\
  (forall u, users d1 !! u =
             if decide (u = uid) then (fun _ => v) <$> users d !! uid else users d !! u).
Proof.
  unfold update_credits. intros H.
  destruct (reachable d) eqn:Hr; simpl in H; [|discriminate].
  destruct (int4 v) eqn:Hv; [|discriminate].
  injection H as <-. simpl. repeat split; try assumption.
  intros u. destruct (decide (u = uid)) as [->|Hne].
  - destruct (users d !! uid) eqn:Hu; simpl.
    + apply lookup_insert_eq.
    + assumption.
  - destruct (users d !! uid); [rewrite lookup_insert_ne by congruence|]; reflexivity.
Qed.

Lemma insert_transaction_Some (d d2 : DB) (row : CreditTransaction) :
  insert_transaction d row = Some d2 ->
  reachable d2 = reachable d /\ users d2 = users d /\
  creditTransactions d2 = creditTransactions d ++ [row].
Proof.
  unfold insert_transaction. intros H.
  destruct (reachable d && int4 (amount row) && int4 (balanceAfter row)); [|discriminate].
  injection H as <-. simpl. auto.
Qed.

(** What a mutation that did not end in its [catch] has done. *)
Lemma write_back_done (d d' : DB) (uid : string) (balance : Z)
    (row : CreditTransaction) (ok r : Outcome) :
  write_back d uid balance row ok = (r, d') ->
  message ok <> Failure -> message r <> Failure ->
  r = ok /\ reachable d = true /\ reachable d' = true /\
  creditTransactions d' = creditTransactions d ++ [row] /\
  (forall u, users d' !! u =
             if decide (u = uid) then (fun _ => balance) <$> users d !! uid
             else users d !! u).
Proof.
  unfold write_back. intros H Hok Hr.
  destruct (update_credits d uid balance) as [d1|] eqn:Hu.
  2:{ injection H as <- <-. exfalso. apply Hr. reflexivity. }
  destruct (insert_transaction d1 row) as [d2|] eqn:Hi.
  2:{ injection H as <- <-. exfalso. apply Hr. reflexivity. }
  injection H as <- <-.
  apply update_credits_Some in Hu as (Hrd & _ & Hr1 & Ht1 & Hu1).
  apply insert_transaction_Some in Hi as (Hr2 & Hu2 & Ht2).
  repeat split; try congruence.
  intros u. rewrite Hu2. apply Hu1.
Qed.



Lemma succeeded_not_Failure (d : DB) (o : Op) :
  success (fst (apply_op d o)) = true -> message (fst (apply_op d o)) <> Failure.
Proof.
  destruct o as [u ct mid custom descr | u amt descr | u newAmount descr]; simpl.
  - unfold deductCredits.
    destruct (getUserCredits d u <? debit_amount ct custom); [discriminate|].
    unfold write_back.
    destruct (update_credits _ _ _); [|discriminate].
    destruct (insert_transaction _ _); simpl; discriminate.
  - unfold addCredits, write_back.
    destruct (update_credits _ _ _); [|discriminate].
    destruct (insert_transaction _ _); simpl; discriminate.
  - unfold setCredits, write_back.
    destruct (update_credits _ _ _); [|discriminate].
    destruct (insert_transaction _ _); simpl; discriminate.
Qed.

(** ** Replaying the log on a connection that comes and goes *)

Lemma connection_same (d : DB) : connection (reachable d) d = d.
Proof. destruct d. reflexivity. Qed.


(** With the same answer to its three statements, a call is the call of
    the steady connection. *)
Lemma apply_op_when_steady (d : DB) (o : Op) :
  apply_op_when d (steady (reachable d), o) = apply_op d o.
Proof.
  assert (Hw : forall uid balance row ok,
             write_back_when (steady (reachable d)) d uid balance row ok =
             write_back d uid balance row ok).
  { intros uid balance row ok. unfold write_back_when, write_back. simpl.
    rewrite connection_same.
    destruct (update_credits d uid balance) as [d1|] eqn:Hu; [|reflexivity].
    apply update_credits_Some in Hu as (Hr & _ & Hr1 & _).
    rewrite Hr. rewrite <- Hr1 at 1. rewrite connection_same.
    destruct (insert_transaction d1 row) as [d2|] eqn:Hi.
    - apply insert_transaction_Some in Hi as (Hr2 & _).
      rewrite <- Hr1, <- Hr2, connection_same. reflexivity.
    - rewrite <- Hr1, connection_same. reflexivity. }
  destruct o as [u ct mid custom descr | u amt descr | u newAmount descr];
    unfold apply_op_when, apply_op; simpl;
    unfold deductCredits_when, deductCredits, addCredits_when, addCredits,
           setCredits_when, setCredits; simpl;
    rewrite connection_same; try rewrite Hw; reflexivity.
Qed.

Lemma apply_op_reachable (d : DB) (o : Op) :
  reachable (snd (apply_op d o)) = reachable d.
Proof.
  assert (Hw : forall uid balance row ok,
             reachable (snd (write_back d uid balance row ok)) = reachable d).
  { intros uid balance row ok. unfold write_back.
    destruct (update_credits d uid balance) as [d1|] eqn:Eu; [|reflexivity].
    apply update_credits_Some in Eu as (Hr & _ & Hr1 & _).
    destruct (insert_transaction d1 row) as [d2|] eqn:Ei; simpl; [|congruence].
    apply insert_transaction_Some in Ei as (H2 & _). congruence. }
  destruct o; simpl; [unfold deductCredits; destruct (_ <? _); [reflexivity|]|..];
    apply Hw.
Qed.

(** A run on a connection that is up, or down, throughout is the run in which
    every statement gets that answer. *)
Lemma run_when_steady (ops : list Op) : forall d : DB,
  run_when d (map (pair (steady (reachable d))) ops) = run d ops.
Proof.
  induction ops as [|o ops IH]; intros d; simpl; [reflexivity|].
  rewrite apply_op_when_steady.
  pose proof (apply_op_reachable d o) as Hr.
  destruct (apply_op d o) as [r d1]. simpl in Hr. rewrite <- Hr, IH. reflexivity.
Qed.










(** ** Non-negative balances *)






Lemma run_app (xs ys : list Op) : forall d : DB,
  snd (run d (xs ++ ys)) = snd (run (snd (run d xs)) ys).
Proof.
  induction xs as [|x xs IH]; intros d; simpl; [reflexivity|].
  destruct (apply_op d x) as [r d1]. specialize (IH d1).
  destruct (run d1 (xs ++ ys)) as [rs d2].
  destruct (run d1 xs) as [rs1 d3]. simpl in *.
  destruct (run d3 ys) as [rs2 d4]. simpl in *. assumption.
Qed.






(** ** Accounts that cannot be read *)

(** C10. With no stored account, and also when the balance lookup fails,
    [getUserCredits] is 0, and [canAfford] answers
    [canAfford = false], [currentCredits = 0] and [required] the configured
    cost of the feature, which is positive for every feature. *)
Theorem missing_account_cannot_afford (d : DB) (uid : string) (creditType : CreditType) :
  select_credits d uid = Some None \/ select_credits d uid = None ->
  getUserCredits d uid = 0 /\
  0 < CREDIT_COSTS creditType /\
  canAfford d uid creditType =
    {| canAfford_ok := false; currentCredits := 0;
       required := CREDIT_COSTS creditType |}.
Proof.
  intros H.
  assert (H0 : getUserCredits d uid = 0).
  { unfold getUserCredits. destruct H as [-> | ->]; reflexivity. }
  split; [exact H0|]. split; [destruct creditType; reflexivity|].
  unfold canAfford. rewrite H0. destruct creditType; reflexivity.
Qed.

Lemma missing_account_cannot_afford_witness :
  select_credits account1000 "nobody" = Some None /\
  getUserCredits account1000 "nobody" = 0 /\
  canAfford account1000 "nobody" imageGeneration =
    {| canAfford_ok := false; currentCredits := 0; required := 200 |}.
Proof.
  split; [reflexivity|].
  destruct (missing_account_cannot_afford account1000 "nobody" imageGeneration
              (or_introl eq_refl)) as (H0 & _ & Hc).
  split; [exact H0 | exact Hc].
Defined.

(** ** Two debits in flight *)

Lemma resume_awaits (c : Call) (p : Phase) (d : DB) :
  (awaits (fst (resume c p d)) <= pred (awaits p))%nat.
Proof.
  destruct p as [|b a|b a|r]; simpl.
  - destruct (_ <? _); simpl; lia.
  - destruct (update_credits _ _ _); simpl; lia.
  - destruct (insert_transaction _ _); simpl; lia.
  - lia.
Qed.

Lemma interleave_awaits (c1 c2 : Call) (schedule : list bool) : forall f : Flight,
  (awaits (first (interleave c1 c2 schedule f)) <=
     awaits (first f) - count_occ bool_dec schedule false)%nat /\
  (awaits (second (interleave c1 c2 schedule f)) <=
     awaits (second f) - count_occ bool_dec schedule true)%nat.
Proof.
  induction schedule as [|who schedule IH]; intros f; simpl.
  - lia.
  - specialize (IH (turn c1 c2 f who)). unfold interleave in *.
    pose proof (resume_awaits c1 (first f) (store f)) as H1.
    pose proof (resume_awaits c2 (second f) (store f)) as H2.
    unfold turn in *. destruct who.
    + destruct (resume c2 (second f) (store f)) as [q d']; simpl in *.
      destruct (bool_dec true false); [discriminate|].
      destruct (bool_dec true true); [|congruence]. lia.
    + destruct (resume c1 (first f) (store f)) as [q d']; simpl in *.
      destruct (bool_dec false true); [discriminate|].
      destruct (bool_dec false false); [|congruence]. lia.
Qed.

Lemma awaits_settled (p : Phase) : awaits p = 0%nat -> exists r, settled p = Some r.
Proof. destruct p; simpl; try discriminate. eauto. Qed.

(** Resumed three times with nobody in between, a call does what
    [deductCredits] does. *)
Lemma alone_is_deductCredits (c : Call) (d : DB) :
  let '(p1, d1) := resume c Reading d in
  let '(p2, d2) := resume c p1 d1 in
  resume c p2 d2 =
    (Settled (fst (deductCredits d (call_user c) (call_type c) (call_message c)
                                  (call_custom c) (call_descr c))),
     snd (deductCredits d (call_user c) (call_type c) (call_message c)
                        (call_custom c) (call_descr c))).
Proof.
  unfold deductCredits, write_back. simpl.
  destruct (_ <? _); simpl; [reflexivity|].
  destruct (update_credits _ _ _); simpl; [|reflexivity].
  destruct (insert_transaction _ _); reflexivity.
Qed.

Section TwoDebits.

Variables (uid : string) (c : Call).
Hypothesis c_user : call_user c = uid.
Hypothesis c_amount : call_custom c = Some 700.

Lemma resume_reading_1000 (d : DB) :
  reachable d = true -> users d !! uid = Some 1000 ->
  resume c Reading d = (Updating 300 700, d).
Proof.
  intros Hr Hu. simpl. rewrite c_user, c_amount.
  rewrite (getUserCredits_row d uid 1000 Hr Hu). reflexivity.
Qed.

Lemma resume_reading_300 (d : DB) :
  reachable d = true -> users d !! uid = Some 300 ->
  resume c Reading d = (Settled short300, d).
Proof.
  intros Hr Hu. simpl. rewrite c_user, c_amount.
  rewrite (getUserCredits_row d uid 300 Hr Hu). reflexivity.
Qed.

Lemma resume_updating (d : DB) (b : Z) :
  reachable d = true -> users d !! uid = Some b ->
  exists d1, resume c (Updating 300 700) d = (Inserting 300 700, d1) /\
             reachable d1 = true /\ users d1 !! uid = Some 300.
Proof.
  intros Hr Hu. simpl. rewrite c_user. unfold update_credits.
  rewrite Hr, Hu. simpl. eexists. split; [reflexivity|]. simpl.
  split; [reflexivity|apply lookup_insert_eq].
Qed.

Lemma resume_inserting (d : DB) :
  reachable d = true ->
  exists d2, resume c (Inserting 300 700) d = (Settled ok300, d2) /\
             reachable d2 = true /\ users d2 = users d.
Proof.
  intros Hr. simpl. unfold insert_transaction. rewrite Hr. simpl.
  eexists. split; [reflexivity|]. simpl. auto.
Qed.

End TwoDebits.

Lemma turn_in_flight (uid : string) (c1 c2 : Call) (f : Flight) (who : bool) :
  call_user c1 = uid -> call_custom c1 = Some 700 ->
  call_user c2 = uid -> call_custom c2 = Some 700 ->
  in_flight uid f -> in_flight uid (turn c1 c2 f who).
Proof.
  intros U1 A1 U2 A2 (Hr & Hcases).
  destruct f as [p1 p2 d]. simpl in *. unfold turn; simpl.
  pose proof (resume_reading_1000 uid c1 U1 A1 d Hr) as R1k.
  pose proof (resume_reading_1000 uid c2 U2 A2 d Hr) as R2k.
  pose proof (resume_reading_300 uid c1 U1 A1 d Hr) as R1s.
  pose proof (resume_reading_300 uid c2 U2 A2 d Hr) as R2s.
  pose proof (fun b => resume_updating uid c1 U1 d b Hr) as W1.
  pose proof (fun b => resume_updating uid c2 U2 d b Hr) as W2.
  pose proof (resume_inserting c1 d Hr) as I1.
  pose proof (resume_inserting c2 d Hr) as I2.
  unfold in_flight, late, early, wrote in *; simpl.
  destruct who.
  - (* the second call moves *)
    destruct Hcases as [(Hu & E1 & E2) | (Hu & L1 & L2 & Hw)].
    + destruct E2 as [-> | ->].
      * rewrite (R2k Hu). simpl. tauto.
      * destruct (W2 _ Hu) as (d1 & -> & Hr1 & Hu1). simpl.
        split; [exact Hr1|]. right. tauto.
    + destruct L2 as [[-> | ->] | [[-> | ->] | ->]].
      * rewrite (R2s Hu). simpl. split; [assumption|]. right.
        repeat split; try tauto. destruct Hw as [Hw | [Hw | Hw]]; try discriminate; tauto.
      * destruct (W2 _ Hu) as (d1 & -> & Hr1 & Hu1). simpl.
        split; [exact Hr1|]. right. tauto.
      * destruct I2 as (d2 & -> & Hr2 & Hu2). simpl. rewrite Hu2.
        split; [exact Hr2|]. right. tauto.
      * simpl. tauto.
      * simpl. tauto.
  - (* the first call moves *)
    destruct Hcases as [(Hu & E1 & E2) | (Hu & L1 & L2 & Hw)].
    + destruct E1 as [-> | ->].
      * rewrite (R1k Hu). simpl. tauto.
      * destruct (W1 _ Hu) as (d1 & -> & Hr1 & Hu1). simpl.
        split; [exact Hr1|]. right. tauto.
    + destruct L1 as [[-> | ->] | [[-> | ->] | ->]].
      * rewrite (R1s Hu). simpl. split; [assumption|]. right.
        repeat split; try tauto. destruct Hw as [[Hw | Hw] | Hw]; try discriminate; tauto.
      * destruct (W1 _ Hu) as (d1 & -> & Hr1 & Hu1). simpl.
        split; [exact Hr1|]. right. tauto.
      * destruct I1 as (d2 & -> & Hr2 & Hu2). simpl. rewrite Hu2.
        split; [exact Hr2|]. right. tauto.
      * simpl. tauto.
      * simpl. tauto.
Qed.

Lemma interleave_in_flight (uid : string) (c1 c2 : Call) (schedule : list bool) :
  call_user c1 = uid -> call_custom c1 = Some 700 ->
  call_user c2 = uid -> call_custom c2 = Some 700 ->
  forall f, in_flight uid f -> in_flight uid (interleave c1 c2 schedule f).
Proof.
  intros U1 A1 U2 A2.
  induction schedule as [|who schedule IH]; intros f Hf; simpl; [assumption|].
  apply IH, turn_in_flight; assumption.
Qed.

(** C1, as stated, fails: nothing serialises two calls of [deductCredits].
    On an account holding 1000, when both debits of 700 read the balance
    before either writes it, both succeed, both report a new balance of 300,
    and two rows of -700 are logged against a stored balance of 300. *)
Lemma debit_both_succeed_when_interleaved :
  first (interleave debit700 debit700 [false; true; false; true; false; true]
                    (took_off account1000)) = Settled ok300 /\
  second (interleave debit700 debit700 [false; true; false; true; false; true]
                     (took_off account1000)) = Settled ok300 /\
  users (store (interleave debit700 debit700 [false; true; false; true; false; true]
                           (took_off account1000))) !! "u"%string = Some 300 /\
  map amount (creditTransactions
                (store (interleave debit700 debit700
                                   [false; true; false; true; false; true]
                                   (took_off account1000)))) = [-700; -700].
Proof. repeat split; vm_compute; reflexivity. Qed.

(** C1 (amended). Debits are not serialised.  For two debits of 700 on an
    account holding 1000:
    - run one after the other, the first succeeds with new balance 300, the
      second is refused for insufficient funds, the stored balance is 300
      and one row is logged;
    - resumed in any order at their [await]s, each call is settled once it
      has been resumed three times, each settles either as that success or
      as that refusal, at least one succeeds, and the stored balance is 300
      (both may succeed). *)
Theorem debit_two_in_flight (d : DB) (uid : string) (c1 c2 : Call) :
  reachable d = true -> users d !! uid = Some 1000 ->
  call_user c1 = uid -> call_custom c1 = Some 700 ->
  call_user c2 = uid -> call_custom c2 = Some 700 ->
  (let r1 := deductCredits d uid (call_type c1) (call_message c1) (Some 700)
                           (call_descr c1) in
   let r2 := deductCredits (snd r1) uid (call_type c2) (call_message c2) (Some 700)
                           (call_descr c2) in
   fst r1 = ok300 /\ fst r2 = short300 /\ insufficient (fst r2) = true /\
   users (snd r2) !! uid = Some 300 /\
   length (creditTransactions (snd r2)) = S (length (creditTransactions d))) /\
  (forall schedule,
     let f := interleave c1 c2 schedule (took_off d) in
     ((3 <= count_occ bool_dec schedule false)%nat ->
      exists r1, settled (first f) = Some r1) /\
     ((3 <= count_occ bool_dec schedule true)%nat ->
      exists r2, settled (second f) = Some r2) /\
     (forall r1 r2,
        settled (first f) = Some r1 -> settled (second f) = Some r2 ->
        (r1 = ok300 \/ r1 = short300) /\ (r2 = ok300 \/ r2 = short300) /\
        (r1 = ok300 \/ r2 = ok300) /\
        users (store f) !! uid = Some 300)).
Proof.
  intros Hr Hu U1 A1 U2 A2. split.
  - (* one after the other: follow the three resumptions of each call *)
    pose proof (alone_is_deductCredits c1 d) as P1.
    rewrite (resume_reading_1000 uid c1 U1 A1 d Hr Hu) in P1.
    destruct (resume_updating uid c1 U1 d 1000 Hr Hu) as (d1 & E1 & Hr1 & Hu1).
    rewrite E1 in P1.
    destruct (resume_inserting c1 d1 Hr1) as (d2 & E2 & Hr2 & Hu2).
    rewrite E2, U1, A1 in P1. injection P1 as Pr Pd.
    assert (Ht2 : length (creditTransactions d2) = S (length (creditTransactions d))).
    { simpl in E1, E2. rewrite U1 in E1.
      destruct (update_credits d uid 300) as [d1'|] eqn:Eu; [|discriminate].
      injection E1 as ->.
      destruct (insert_transaction d1 _) as [d2'|] eqn:Ei; [|discriminate].
      injection E2 as ->.
      apply update_credits_Some in Eu as (_ & _ & _ & Ht & _).
      apply insert_transaction_Some in Ei as (_ & _ & Ht').
      rewrite Ht', length_app, Ht. simpl. lia. }
    cbv zeta. rewrite <- Pr, <- Pd. simpl.
    rewrite <- Hu2 in Hu1.
    pose proof (alone_is_deductCredits c2 d2) as P2.
    rewrite (resume_reading_300 uid c2 U2 A2 d2 Hr2 Hu1) in P2.
    simpl in P2. rewrite U2, A2 in P2. injection P2 as Qr Qd.
    rewrite <- Qr, <- Qd. repeat split; try reflexivity; assumption.
  - intros schedule f.
    assert (Hf : in_flight uid f).
    { apply interleave_in_flight; try assumption.
      split; [exact Hr|]. left. unfold early. simpl. auto. }
    destruct (interleave_awaits c1 c2 schedule (took_off d)) as [Hw1 Hw2].
    fold f in Hw1, Hw2. simpl in Hw1, Hw2.
    split; [|split].
    + intros Hn. apply awaits_settled. lia.
    + intros Hn. apply awaits_settled. lia.
    + intros r1 r2 S1 S2.
      destruct Hf as (_ & [(_ & E1 & _) | (Hu3 & L1 & L2 & Hw)]).
      * destruct E1 as [E | E]; rewrite E in S1; discriminate.
      * unfold late, early, wrote in *.
        assert (R1 : first f = Settled r1) by (destruct (first f); simpl in S1; congruence).
        assert (R2 : second f = Settled r2) by (destruct (second f); simpl in S2; congruence).
        rewrite R1 in *. rewrite R2 in *.
        repeat split; try assumption.
        -- destruct L1 as [[?|?]|[[?|?]|?]]; try discriminate; [left|right]; congruence.
        -- destruct L2 as [[?|?]|[[?|?]|?]]; try discriminate; [left|right]; congruence.
        -- destruct Hw as [[?|?]|[?|?]]; try discriminate; [left|right]; congruence.
Qed.

Lemma debit_two_in_flight_witness :
  reachable account1000 = true /\ users account1000 !! "u"%string = Some 1000 /\
  fst (deductCredits account1000 "u" chat None (Some 700) None) = ok300 /\
  users (store (interleave debit700 debit700 [true; false; true; false; false; true]
                           (took_off account1000))) !! "u"%string = Some 300.
Proof.
  split; [reflexivity|]. split; [reflexivity|].
  destruct (debit_two_in_flight account1000 "u" debit700 debit700
              eq_refl eq_refl eq_refl eq_refl eq_refl eq_refl) as [Hseq Hany].
  split.
  - exact (proj1 Hseq).
  - destruct (Hany [true; false; true; false; false; true]) as (H1 & H2 & H3).
    destruct (H1 ltac:(simpl; lia)) as [r1 S1].
    destruct (H2 ltac:(simpl; lia)) as [r2 S2].
    exact (proj2 (proj2 (proj2 (H3 r1 r2 S1 S2)))).
Defined.

End LedgerSpec.

Module PoolSpec.
Import Pool.

(** ** The [apis] map *)

Lemma status_eqb_eq (a b : Status) : status_eqb a b = true <-> a = b.
Proof. destruct a, b; simpl; split; congruence. Qed.

Lemma apis_get_update (apiId : string) (f : GeminiAPIConfig -> GeminiAPIConfig)
    (l : list GeminiAPIConfig) (api : GeminiAPIConfig) :
  (forall a, api_id (f a) = api_id a) ->
  apis_get apiId l = Some api ->
  apis_get apiId (apis_update apiId f l) = Some (f api).
Proof.
  intros Hf. unfold apis_get, apis_update.
  induction l as [|a l IH]; simpl; [discriminate|].
  destruct (String.eqb (api_id a) apiId) eqn:E; simpl.
  - intros [= ->]. rewrite Hf, E. reflexivity.
  - rewrite E. exact IH.
Qed.

Lemma apis_update_ids (apiId : string) (f : GeminiAPIConfig -> GeminiAPIConfig)
    (l : list GeminiAPIConfig) :
  (forall a, api_id (f a) = api_id a) ->
  map api_id (apis_update apiId f l) = map api_id l.
Proof.
  intros Hf. unfold apis_update. rewrite map_map. apply map_ext.
  intros a. destruct (String.eqb (api_id a) apiId); [apply Hf|reflexivity].
Qed.

Lemma in_apis_update (apiId : string) (f : GeminiAPIConfig -> GeminiAPIConfig)
    (l : list GeminiAPIConfig) (x : GeminiAPIConfig) :
  In x (apis_update apiId f l) ->
  exists y, In y l /\
            x = if String.eqb (api_id y) apiId then f y else y.
Proof.
  unfold apis_update. rewrite in_map_iff. intros (y & <- & Hy). eauto.
Qed.

(** ** Timed reactivation *)

(** C5, as stated, fails: the code resets the failure counter when it
    reactivates from [quota_exceeded], and keeps it when it reactivates from
    [failed].  After one quota failure of [primary] and one transient failure
    of [api_2], an hour later both are active, [primary] with a counter of 0
    and [api_2] with a counter of 1. *)
Lemma reactivation_counter_reset_is_swapped :
  map (fun api => (api_id api, status api, failureCount api))
      (getAllAPIs (manager (history
         [Report "primary" (ErrorObject "429 quota exceeded");
          Report "api_2" (ErrorObject "fetch failed");
          Wait 3600000]
         {| clock := 0; manager := two_keys; handed := [] |}))) =
  [("primary"%string, active, 0); ("api_2"%string, active, 1)].
Proof. vm_compute. reflexivity. Qed.

(** C5 (amended). When a reactivation timer runs on a credential that is
    still in the status the timer was set for, the status becomes [active];
    the failure counter is reset to zero when that status was
    [quota_exceeded], and is left as it was when that status was [failed]. *)
Theorem reactivation_resets_status (m : Manager) (t : Timer) (api : GeminiAPIConfig) :
  apis_get (target t) (apis m) = Some api ->
  status api = expects t ->
  expects t = quota_exceeded \/ expects t = failed ->
  exists api',
    apis_get (target t) (apis (fire t m)) = Some api' /\
    status api' = active /\
    failureCount api' =
      match expects t with
      | quota_exceeded => 0
      | _ => failureCount api
      end.
Proof.
  intros Hget Hst Hkind.
  exists (reactivate (expects t) api). split.
  - unfold fire. simpl. apply apis_get_update; [|assumption].
    intros a. unfold reactivate.
    destruct (status_eqb (status a) (expects t)); [|reflexivity].
    destruct (expects t); reflexivity.
  - unfold reactivate. rewrite Hst.
    destruct Hkind as [-> | ->]; simpl; auto.
Qed.

Lemma reactivation_resets_status_witness :
  exists api',
    apis_get "primary" (apis (fire {| due := 3600000; target := "primary";
                                      expects := quota_exceeded |}
                                   (handleAPIFailure "primary"
                                      (ErrorObject "429 quota exceeded") 0 two_keys)))
      = Some api' /\
    status api' = active /\ failureCount api' = 0.
Proof.
  apply (reactivation_resets_status
           (handleAPIFailure "primary" (ErrorObject "429 quota exceeded") 0 two_keys)
           {| due := 3600000; target := "primary"; expects := quota_exceeded |}
           (with_health quota_exceeded 1 (Some "429 quota exceeded"%string)
                        (fresh_config "primary" "AIzaPrimary" 1))
           ltac:(reflexivity) ltac:(reflexivity) ltac:(left; reflexivity)).
Defined.

(** ** Registration *)

Section RegistrySpec.

Variable sdk_error : string -> option string.

Local Abbreviation stored := (Pool.stored sdk_error).

Lemma existsb_key (secret : string) (l : list GeminiAPIConfig) :
  existsb (fun api => String.eqb (key api) secret) l = true <->
  In secret (map key l).
Proof.
  rewrite existsb_exists, in_map_iff. split.
  - intros (a & Ha & E). apply String.eqb_eq in E. eauto.
  - intros (a & E & Ha). exists a. split; [assumption|]. apply String.eqb_eq, E.
Qed.

Lemma addAPI_duplicate (config : GeminiAPIConfig) (m : Manager) :
  In (key config) (map key (apis m)) -> addAPI sdk_error config m = m.
Proof.
  intros H. apply existsb_key in H. unfold addAPI. rewrite H. reflexivity.
Qed.

Lemma stored_key (config : GeminiAPIConfig) : key (stored config) = key config.
Proof. unfold stored. destruct (sdk_error _); reflexivity. Qed.

Lemma stored_id (config : GeminiAPIConfig) : api_id (stored config) = api_id config.
Proof. unfold stored. destruct (sdk_error _); reflexivity. Qed.

Lemma addAPI_new (config : GeminiAPIConfig) (m : Manager) :
  ~ In (key config) (map key (apis m)) ->
  apis (addAPI sdk_error config m) = apis_set (stored config) (apis m).
Proof.
  intros H. unfold addAPI, stored.
  destruct (existsb _ (apis m)) eqn:E.
  - exfalso. apply H, existsb_key, E.
  - destruct (sdk_error (key config)); simpl.
    + f_equal.
    + reflexivity.
Qed.

Lemma in_apis_set_keys (c : GeminiAPIConfig) (l : list GeminiAPIConfig) (k : string) :
  In k (map key (apis_set c l)) -> k = key c \/ In k (map key l).
Proof.
  induction l as [|a l IH]; simpl.
  - intros [<- | []]. auto.
  - destruct (String.eqb (api_id a) (api_id c)); simpl.
    + intros [<- | H]; auto.
    + intros [<- | H]; auto. destruct (IH H); auto.
Qed.

Lemma apis_set_keys_NoDup (c : GeminiAPIConfig) (l : list GeminiAPIConfig) :
  List.NoDup (map key l) -> ~ In (key c) (map key l) ->
  List.NoDup (map key (apis_set c l)).
Proof.
  induction l as [|a l IH]; simpl; intros Hnd Hnew.
  - apply List.NoDup_cons_iff. split; [simpl; tauto|apply List.NoDup_nil].
  - apply List.NoDup_cons_iff in Hnd as [Ha Hl].
    destruct (String.eqb (api_id a) (api_id c)); simpl.
    + apply List.NoDup_cons_iff. split; [tauto|assumption].
    + apply List.NoDup_cons_iff. split; [|apply IH; tauto].
      intros Hin. apply in_apis_set_keys in Hin as [E | Hin]; [|tauto].
      apply Hnew. left. assumption.
Qed.

Lemma apis_set_absent (c : GeminiAPIConfig) (l : list GeminiAPIConfig) :
  ~ In (api_id c) (map api_id l) -> apis_set c l = l ++ [c].
Proof.
  induction l as [|a l IH]; simpl; intros H; [reflexivity|].
  destruct (String.eqb_spec (api_id a) (api_id c)) as [E|_]; [tauto|].
  rewrite IH; tauto.
Qed.

Lemma addAPI_secrets_distinct (config : GeminiAPIConfig) (m : Manager) :
  List.NoDup (map key (apis m)) -> List.NoDup (map key (apis (addAPI sdk_error config m))).
Proof.
  intros Hnd.
  destruct (in_dec string_dec (key config) (map key (apis m))) as [Hin | Hnew].
  - rewrite addAPI_duplicate; assumption.
  - rewrite addAPI_new by assumption.
    apply apis_set_keys_NoDup; rewrite ?stored_key; assumption.
Qed.

Lemma register_all_secrets_distinct (configs : list GeminiAPIConfig) :
  forall m, List.NoDup (map key (apis m)) ->
            List.NoDup (map key (apis (register_all sdk_error configs m))).
Proof.
  induction configs as [|c configs IH]; intros m Hnd; simpl; [assumption|].
  apply IH, addAPI_secrets_distinct, Hnd.
Qed.

Lemma existsb_eqb_In (secret : string) (seen : list string) :
  existsb (String.eqb secret) seen = true <-> In secret seen.
Proof.
  rewrite existsb_exists. split.
  - intros (x & Hx & E). apply String.eqb_eq in E. congruence.
  - intros H. exists secret. split; [assumption|apply String.eqb_refl].
Qed.

Lemma register_all_first_seen (configs : list GeminiAPIConfig) :
  forall m, coherent (apis m ++ configs) ->
            map key (apis (register_all sdk_error configs m)) =
            fold_left see (map key configs) (map key (apis m)).
Proof.
  induction configs as [|c configs IH]; intros m Hco; simpl; [reflexivity|].
  assert (Hstep : map key (apis (addAPI sdk_error c m)) = see (map key (apis m)) (key c) /\
                  coherent (apis (addAPI sdk_error c m) ++ configs)).
  { unfold see.
    destruct (in_dec string_dec (key c) (map key (apis m))) as [Hin | Hnew].
    - rewrite addAPI_duplicate by assumption.
      rewrite (proj2 (existsb_eqb_In _ _) Hin). split; [reflexivity|].
      intros c1 c2 H1 H2. apply Hco; rewrite in_app_iff in *; simpl; tauto.
    - destruct (existsb (String.eqb (key c)) (map key (apis m))) eqn:E.
      { exfalso. apply Hnew, existsb_eqb_In, E. }
      rewrite addAPI_new by assumption.
      assert (Hid : ~ In (api_id (stored c)) (map api_id (apis m))).
      { rewrite stored_id. intros Hin. apply in_map_iff in Hin as (a & Ea & Ha).
        apply Hnew. apply in_map_iff. exists a. split; [|assumption].
        apply Hco; [| |assumption]; rewrite in_app_iff; simpl; auto. }
      rewrite apis_set_absent by assumption.
      rewrite map_app. simpl. rewrite stored_key. split; [reflexivity|].
      intros c1 c2 H1 H2.
      assert (Hin : forall x, In x ((apis m ++ [stored c]) ++ configs) ->
                      exists y, In y (apis m ++ c :: configs) /\
                                api_id x = api_id y /\ key x = key y).
      { intros x Hx. rewrite !in_app_iff in Hx. simpl in Hx.
        destruct Hx as [[Hx | [<- | []]] | Hx].
        - exists x. rewrite in_app_iff. auto.
        - exists c. rewrite in_app_iff, stored_id, stored_key. simpl. auto.
        - exists x. rewrite in_app_iff. simpl. auto. }
      destruct (Hin c1 H1) as (y1 & Hy1 & I1 & K1).
      destruct (Hin c2 H2) as (y2 & Hy2 & I2 & K2).
      rewrite I1, I2, K1, K2. apply Hco; assumption. }
  destruct Hstep as [Hkeys Hco'].
  unfold register_all in *. simpl. rewrite (IH _ Hco'), Hkeys. reflexivity.
Qed.

End RegistrySpec.

(** C6, as stated, fails on two counts.  [addAPIAtRuntime] answers [true]
    for a secret that is already stored (and stores nothing); and a
    credential registered under an id already in use with another secret
    replaces the stored one, so that of two distinct secrets only the later
    one is listed. *)
Lemma duplicate_registration_reports_added :
  addAPIAtRuntime sdk_fine "again" "AIzaPrimary" None 5 two_keys = (true, two_keys) /\
  map key (getAllAPIs (register_all sdk_fine
             [fresh_config "runtime_x" "AIzaOne" 1; fresh_config "runtime_x" "AIzaTwo" 2]
             empty_manager)) = ["AIzaTwo"%string].
Proof. split; reflexivity. Qed.

(** C6 (amended). Registration is idempotent on the secret as far as the
    store goes: a call whose secret equals that of a stored credential leaves
    the manager as it was ([addAPI] returns nothing, and [addAPIAtRuntime]
    wraps it), so the list never holds two entries with the same secret; and
    when credentials with different secrets never come under the same id, the
    list holds exactly one entry per distinct secret registered, in the order
    of first registration, however often a secret is repeated. *)
Theorem registration_idempotent_on_secret (sdk_error : string -> option string) :
  (forall config m,
     In (key config) (map key (getAllAPIs m)) ->
     addAPI sdk_error config m = m) /\
  (forall keyName apiKey customName now m,
     In apiKey (map key (getAllAPIs m)) ->
     snd (addAPIAtRuntime sdk_error keyName apiKey customName now m) = m) /\
  (forall configs m,
     List.NoDup (map key (getAllAPIs m)) ->
     List.NoDup (map key (getAllAPIs (register_all sdk_error configs m)))) /\
  (forall configs,
     coherent configs ->
     map key (getAllAPIs (register_all sdk_error configs empty_manager)) =
     first_seen (map key configs)).
Proof.
  split; [|split; [|split]].
  - intros config m. apply addAPI_duplicate.
  - intros keyName apiKey customName now m Hin. unfold addAPIAtRuntime.
    destruct (String.prefix "AIza" apiKey); simpl; [|reflexivity].
    apply addAPI_duplicate. exact Hin.
  - intros configs m. apply register_all_secrets_distinct.
  - intros configs Hco. unfold getAllAPIs.
    rewrite register_all_first_seen by exact Hco. reflexivity.
Qed.

Lemma registration_idempotent_on_secret_witness :
  coherent [fresh_config "primary" "AIzaPrimary" 1;
            fresh_config "again" "AIzaPrimary" 7;
            fresh_config "api_2" "AIzaSecond" 2;
            fresh_config "primary" "AIzaPrimary" 1] /\
  map key (getAllAPIs (register_all sdk_fine
            [fresh_config "primary" "AIzaPrimary" 1;
             fresh_config "again" "AIzaPrimary" 7;
             fresh_config "api_2" "AIzaSecond" 2;
             fresh_config "primary" "AIzaPrimary" 1] empty_manager)) =
  ["AIzaPrimary"%string; "AIzaSecond"%string].
Proof.
  assert (H : coherent [fresh_config "primary" "AIzaPrimary" 1;
                        fresh_config "again" "AIzaPrimary" 7;
                        fresh_config "api_2" "AIzaSecond" 2;
                        fresh_config "primary" "AIzaPrimary" 1]).
  { intros c1 c2 H1 H2. simpl in H1, H2.
    repeat (destruct H1 as [<- | H1]); try contradiction;
      repeat (destruct H2 as [<- | H2]); try contradiction;
      simpl; intros E; first [reflexivity | discriminate E]. }
  split; [exact H|].
  exact (proj2 (proj2 (proj2 (registration_idempotent_on_secret sdk_fine))) _ H).
Defined.

(** ** The rate limiter *)

(** [isRateLimited] touches nothing but the window of the credential asked
    about, and answers by that window and the registry alone. *)
Lemma isRateLimited_frame (x : string) (now : Z) (m : Manager) :
  apis (snd (isRateLimited x now m)) = apis m /\
  clients (snd (isRateLimited x now m)) = clients m /\
  timers (snd (isRateLimited x now m)) = timers m /\
  (forall y, y <> x ->
     rateLimitTracker (snd (isRateLimited x now m)) !! y = rateLimitTracker m !! y).
Proof.
  unfold isRateLimited.
  destruct (rateLimitTracker m !! x) as [w|]; [|auto].
  destruct (window_resetTime w <? now); simpl; [|auto].
  repeat split. intros y Hy. apply lookup_insert_ne. congruence.
Qed.

Lemma count_use_ceiling (feature : FeatureType) (now : Z) (api : GeminiAPIConfig) :
  maxRequestsPerMinute (count_use feature now api) = maxRequestsPerMinute api.
Proof. reflexivity. Qed.

Lemma trackUsage_known (x : string) (feature : FeatureType) (now : Z) (m : Manager)
    (api : GeminiAPIConfig) :
  apis_get x (apis m) = Some api ->
  apis_get x (apis (trackUsage x feature now m)) = Some (count_use feature now api) /\
  rateLimitTracker (trackUsage x feature now m) !! x =
    Some match rateLimitTracker m !! x with
         | Some w =>
             if window_resetTime w <? now then
               {| window_requests := 1; window_resetTime := now + 60000 |}
             else {| window_requests := window_requests w + 1;
                     window_resetTime := window_resetTime w |}
         | None => {| window_requests := 1; window_resetTime := now + 60000 |}
         end.
Proof.
  intros Hget. unfold trackUsage. rewrite Hget. simpl. split.
  - apply apis_get_update; [reflexivity|assumption].
  - rewrite lookup_insert_eq. f_equal.
    destruct (rateLimitTracker m !! x) as [w|]; [|reflexivity].
    destruct (window_resetTime w <? now); reflexivity.
Qed.

Lemma record_uses_in_window (x : string) (t1 : Z) (rest : list (FeatureType * Z)) :
  forall (m : Manager) (api : GeminiAPIConfig) (k : Z),
    apis_get x (apis m) = Some api ->
    rateLimitTracker m !! x =
      Some {| window_requests := k; window_resetTime := t1 + 60000 |} ->
    Forall (fun use => snd use <= t1 + 60000) rest ->
    rateLimitTracker (record_uses x rest m) !! x =
      Some {| window_requests := k + Z.of_nat (length rest);
              window_resetTime := t1 + 60000 |} /\
    exists api', apis_get x (apis (record_uses x rest m)) = Some api' /\
                 maxRequestsPerMinute api' = maxRequestsPerMinute api.
Proof.
  induction rest as [|[f t] rest IH]; intros m api k Hget Hw Hall.
  - simpl. rewrite Hw. split; [do 2 f_equal; lia|]. eauto.
  - apply Forall_cons_iff in Hall as [Ht Hall]. simpl in Ht.
    destruct (trackUsage_known x f t m api Hget) as [Hget' Hw'].
    rewrite Hw in Hw'. simpl in Hw'.
    destruct (Z.ltb_spec (t1 + 60000) t) as [Hlt|_]; [lia|].
    destruct (IH _ _ _ Hget' Hw' Hall) as (Hw'' & api' & Ha & Hc).
    unfold record_uses in *. simpl. rewrite Hw''. split.
    + do 2 f_equal. simpl length. lia.
    + exists api'. split; [assumption|]. rewrite Hc. reflexivity.
Qed.

(** C7. For a credential whose [maxRequestsPerMinute] is [n >= 1]: when the
    first of a series of [trackUsage] calls opens a window at [t1] and the
    others fall no later than its reset time [t1 + 60s], then up to that
    reset time [isRateLimited] answers whether the number of calls has
    reached [n], so true after exactly [n] calls and false after [n - 1]
    (also when that is no call at all); and once the reset time is past it
    answers false and restarts the window with a count of 0 and a reset time
    one minute ahead, a window that counts in the same way. *)
Theorem rate_limit_window (m : Manager) (x : string) (api : GeminiAPIConfig) (n : Z)
    (f1 : FeatureType) (t1 : Z) (rest : list (FeatureType * Z)) (now : Z) :
  apis_get x (apis m) = Some api ->
  maxRequestsPerMinute api = Some n ->
  1 <= n ->
  window_closed t1 m x ->
  Forall (fun use => snd use <= t1 + 60000) rest ->
  let uses := (f1, t1) :: rest in
  let calls := Z.of_nat (length uses) in
  (t1 <= now -> fst (isRateLimited x now m) = false) /\
  (now <= t1 + 60000 ->
   fst (isRateLimited x now (record_uses x uses m)) = (n <=? calls) /\
   (calls = n -> fst (isRateLimited x now (record_uses x uses m)) = true) /\
   (calls = n - 1 -> fst (isRateLimited x now (record_uses x uses m)) = false)) /\
  (t1 + 60000 < now ->
   fst (isRateLimited x now (record_uses x uses m)) = false /\
   rateLimitTracker (snd (isRateLimited x now (record_uses x uses m))) !! x =
     Some {| window_requests := 0; window_resetTime := now + 60000 |} /\
   forall again later,
     Forall (fun use => snd use <= now + 60000) again ->
     later <= now + 60000 ->
     fst (isRateLimited x later
            (record_uses x again (snd (isRateLimited x now (record_uses x uses m))))) =
       (n <=? Z.of_nat (length again))).
Proof.
  intros Hget Hmax Hn Hclosed Hall uses calls.
  assert (Hopen : rateLimitTracker (trackUsage x f1 t1 m) !! x =
                  Some {| window_requests := 1; window_resetTime := t1 + 60000 |}).
  { destruct (trackUsage_known x f1 t1 m api Hget) as [_ ->]. f_equal.
    unfold window_closed in Hclosed.
    destruct (rateLimitTracker m !! x) as [w|]; [|reflexivity].
    destruct (Z.ltb_spec (window_resetTime w) t1); [reflexivity|lia]. }
  destruct (record_uses_in_window x t1 rest (trackUsage x f1 t1 m)
              (count_use f1 t1 api) 1
              (proj1 (trackUsage_known x f1 t1 m api Hget)) Hopen Hall)
    as (Hw & api' & Hget' & Hmax').
  change (record_uses x rest (trackUsage x f1 t1 m)) with (record_uses x uses m) in *.
  assert (Hcalls : 1 + Z.of_nat (length rest) = calls) by (unfold calls, uses; simpl; lia).
  rewrite Hcalls in Hw.
  assert (Hceil : ceiling x (record_uses x uses m) = n).
  { unfold ceiling. rewrite Hget', Hmax', count_use_ceiling, Hmax.
    unfold js_or. destruct (Z.eqb_spec n 0); [lia|reflexivity]. }
  split; [|split].
  - intros Hnow. unfold isRateLimited, window_closed in *.
    destruct (rateLimitTracker m !! x) as [w|]; [|reflexivity].
    destruct (Z.ltb_spec (window_resetTime w) now); [reflexivity|lia].
  - intros Hnow.
    assert (E : fst (isRateLimited x now (record_uses x uses m)) = (n <=? calls)).
    { unfold isRateLimited. rewrite Hw. cbn [window_resetTime window_requests].
      destruct (Z.ltb_spec (t1 + 60000) now); [lia|].
      cbn [fst]. rewrite Hceil. reflexivity. }
    rewrite E. split; [reflexivity|]. split; intros Hc.
    + apply Z.leb_le. lia.
    + apply Z.leb_gt. lia.
  - intros Hnow.
    destruct (isRateLimited_frame x now (record_uses x uses m)) as (Hapis & _ & _ & _).
    assert (Hreset : isRateLimited x now (record_uses x uses m) =
              (false,
               with_tracker (<[x := {| window_requests := 0;
                                       window_resetTime := now + 60000 |}]>
                               (rateLimitTracker (record_uses x uses m)))
                            (record_uses x uses m))).
    { unfold isRateLimited. rewrite Hw. cbn [window_resetTime].
      destruct (Z.ltb_spec (t1 + 60000) now); [reflexivity|lia]. }
    rewrite Hreset in *. cbn [fst snd] in *.
    split; [reflexivity|]. split; [simpl; apply lookup_insert_eq|].
    intros again later Hagain Hlater.
    destruct (record_uses_in_window x now again
                (with_tracker (<[x := {| window_requests := 0;
                                         window_resetTime := now + 60000 |}]>
                                 (rateLimitTracker (record_uses x uses m)))
                              (record_uses x uses m))
                api' 0 Hget'
                ltac:(simpl; apply lookup_insert_eq) Hagain)
      as (Hw2 & api2 & Hget2 & Hmax2).
    unfold isRateLimited. rewrite Hw2. cbn [window_resetTime window_requests].
    destruct (Z.ltb_spec (now + 60000) later); [lia|]. cbn [fst].
    unfold ceiling. rewrite Hget2, Hmax2, Hmax', count_use_ceiling, Hmax.
    unfold js_or. destruct (Z.eqb_spec n 0); [lia|reflexivity].
Qed.

Lemma rate_limit_window_witness :
  apis_get "primary" (apis two_a_minute) = Some (capped 2 (fresh_config "primary" "AIzaPrimary" 1)) /\
  window_closed 0 two_a_minute "primary" /\
  fst (isRateLimited "primary" 59000
         (record_uses "primary" [(chat, 0); (imageGeneration, 1000)] two_a_minute)) = true /\
  fst (isRateLimited "primary" 60001
         (record_uses "primary" [(chat, 0); (imageGeneration, 1000)] two_a_minute)) = false.
Proof.
  split; [reflexivity|]. split; [exact I|].
  assert (Hall : Forall (fun use : FeatureType * Z => snd use <= 0 + 60000)
                        [(imageGeneration, 1000)]).
  { repeat constructor. simpl. lia. }
  split.
  - apply (rate_limit_window two_a_minute "primary" _ 2 chat 0
             [(imageGeneration, 1000)] 59000
             eq_refl eq_refl ltac:(lia) I Hall); [lia|reflexivity].
  - apply (rate_limit_window two_a_minute "primary" _ 2 chat 0
             [(imageGeneration, 1000)] 60001
             eq_refl eq_refl ltac:(lia) I Hall). lia.
Defined.

(** ** Selection *)

Lemma in_insert_by {A : Type} (rank : A -> Z) (x y : A) (l : list A) :
  In y (insert_by rank x l) <-> y = x \/ In y l.
Proof.
  induction l as [|z l IH]; simpl.
  - intuition.
  - destruct (rank x <=? rank z); simpl; rewrite ?IH; intuition.
Qed.

Lemma in_sort_by {A : Type} (rank : A -> Z) (y : A) (l : list A) :
  In y (sort_by rank l) <-> In y l.
Proof.
  induction l as [|x l IH]; simpl; [tauto|].
  rewrite in_insert_by, IH. intuition.
Qed.

Lemma sort_by_nil {A : Type} (rank : A -> Z) (l : list A) :
  sort_by rank l = [] -> l = [].
Proof.
  destruct l as [|x l]; [reflexivity|]. simpl. intros H.
  assert (Hin : In x (insert_by rank x (sort_by rank l))) by (apply in_insert_by; auto).
  rewrite H in Hin. destruct Hin.
Qed.

(** The head of the stably sorted selection is the first element of least
    rank among the selected ones. *)
Lemma sort_filter_head {A : Type} (rank : A -> Z) (p : A -> bool) (l : list A) (x : A) :
  head (sort_by rank (List.filter p l)) = Some x ->
  exists before after,
    l = before ++ x :: after /\ p x = true /\
    (forall y, In y before -> p y = true -> rank x < rank y) /\
    (forall y, In y after -> p y = true -> rank x <= rank y).
Proof.
  revert x. induction l as [|a l IH]; intros x; simpl; [discriminate|].
  destruct (p a) eqn:Pa; simpl.
  - destruct (sort_by rank (List.filter p l)) as [|z s] eqn:Es; simpl.
    + intros [= <-]. exists [], l. repeat split; try assumption.
      * intros y [].
      * intros y Hy Py. apply sort_by_nil in Es.
        assert (Hin : In y (List.filter p l)) by (apply filter_In; auto).
        rewrite Es in Hin. destruct Hin.
    + destruct (IH z eq_refl) as (before & after & -> & Pz & Hb & Ha).
      destruct (Z.leb_spec (rank a) (rank z)); simpl; intros [= <-].
      * exists [], (before ++ z :: after). repeat split; try assumption.
        -- intros y [].
        -- intros y Hy Py. apply in_app_iff in Hy as [Hy | [<- | Hy]].
           ++ specialize (Hb y Hy Py). lia.
           ++ assumption.
           ++ specialize (Ha y Hy Py). lia.
      * exists (a :: before), after. repeat split; try assumption.
        intros y [<- | Hy] Py; [assumption|]. apply Hb; assumption.
  - intros H. destruct (IH x H) as (before & after & -> & Px & Hb & Ha).
    exists (a :: before), after. repeat split; try assumption.
    intros y [<- | Hy] Py; [congruence|]. apply Hb; assumption.
Qed.

Lemma find_all {A : Type} (p : A -> bool) (l : list A) :
  (forall x, In x l -> p x = true) -> find p l = head l.
Proof.
  destruct l as [|a l]; simpl; [reflexivity|].
  intros H. rewrite (H a); auto.
Qed.

Lemma limited_agree (x : string) (now : Z) (m1 m : Manager) :
  apis m1 = apis m ->
  rateLimitTracker m1 !! x = rateLimitTracker m !! x ->
  fst (isRateLimited x now m1) = fst (isRateLimited x now m).
Proof.
  intros Ha Hw. unfold isRateLimited, ceiling. rewrite Ha, Hw.
  destruct (rateLimitTracker m !! x) as [w|]; [|reflexivity].
  destruct (window_resetTime w <? now); reflexivity.
Qed.

Lemma keep_available_frame (now : Z) (snapshot : list GeminiAPIConfig) :
  forall m,
    apis (snd (keep_available now snapshot m)) = apis m /\
    clients (snd (keep_available now snapshot m)) = clients m /\
    timers (snd (keep_available now snapshot m)) = timers m.
Proof.
  induction snapshot as [|api rest IH]; intros m; simpl; [auto|].
  destruct (status_eqb (status api) active); [|apply IH].
  destruct (isRateLimited_frame (api_id api) now m) as (Ha & Hc & Ht & _).
  destruct (isRateLimited (api_id api) now m) as [limited m1]. simpl in *.
  specialize (IH m1). destruct (keep_available now rest m1) as [kept m2]. simpl in *.
  destruct IH as (Ha' & Hc' & Ht'). repeat split; congruence.
Qed.

Lemma keep_available_sound (now : Z) (snapshot : list GeminiAPIConfig) :
  forall m api,
    In api (fst (keep_available now snapshot m)) ->
    In api snapshot /\ status api = active.
Proof.
  induction snapshot as [|a rest IH]; intros m api; simpl; [tauto|].
  destruct (status_eqb (status a) active) eqn:Ea.
  - destruct (isRateLimited (api_id a) now m) as [limited m1].
    specialize (IH m1 api). destruct (keep_available now rest m1) as [kept m2]. simpl in *.
    destruct limited; simpl.
    + intros H. destruct (IH H). auto.
    + intros [<- | H].
      * split; [auto|]. apply status_eqb_eq, Ea.
      * destruct (IH H). auto.
  - intros H. destruct (IH m api H). auto.
Qed.

Lemma keep_available_filter (now : Z) (m : Manager) (snapshot : list GeminiAPIConfig) :
  List.NoDup (map api_id snapshot) ->
  forall m1,
    apis m1 = apis m ->
    (forall y, In y (map api_id snapshot) ->
               rateLimitTracker m1 !! y = rateLimitTracker m !! y) ->
    fst (keep_available now snapshot m1) = List.filter (available now m) snapshot.
Proof.
  induction snapshot as [|a rest IH]; intros Hnd m1 Ha Hw; simpl; [reflexivity|].
  apply List.NoDup_cons_iff in Hnd as [Hfresh Hnd].
  unfold available at 1.
  destruct (status_eqb (status a) active); simpl.
  - pose proof (limited_agree (api_id a) now m1 m Ha (Hw _ (or_introl eq_refl))) as Hl.
    destruct (isRateLimited_frame (api_id a) now m1) as (Ha1 & _ & _ & Hw1).
    unfold limited. rewrite <- Hl.
    destruct (isRateLimited (api_id a) now m1) as [lim m2]. simpl in *.
    assert (IH' : fst (keep_available now rest m2) = List.filter (available now m) rest).
    { apply IH; [assumption|congruence|].
      intros y Hy. rewrite Hw1; [apply Hw; right; exact Hy|].
      intros ->. apply Hfresh, Hy. }
    destruct (keep_available now rest m2) as [kept m3]. simpl in *.
    destruct lim; simpl; congruence.
  - apply IH; [assumption..|]. intros y Hy. apply Hw. right. exact Hy.
Qed.

Lemma getBestAPI_sorted (feature : FeatureType) (now : Z) (m : Manager) :
  well_keyed m -> active_have_clients m ->
  fst (getBestAPI feature now m) =
    count_use feature now <$>
      head (sort_by priority (List.filter (available now m) (apis m))).
Proof.
  intros Hk Hc. unfold getBestAPI.
  pose proof (keep_available_filter now m (apis m) Hk m eq_refl (fun _ _ => eq_refl)) as Hf.
  pose proof (keep_available_sound now (apis m) m) as Hs.
  destruct (keep_available_frame now (apis m) m) as (_ & Hcl & _).
  destruct (keep_available now (apis m) m) as [kept m1]. simpl in *. subst kept.
  rewrite find_all.
  - destruct (head _); reflexivity.
  - intros api Hin. apply in_sort_by in Hin. apply bool_decide_eq_true.
    rewrite Hcl. apply Hc; apply (Hs api Hin).
Qed.

(** C8. On a registry whose active credentials have their clients,
    [getBestAPI] hands out the first available credential (status active,
    not rate limited at the time of the call) in ascending priority, the
    earlier registered one among equals; it answers [null] exactly when no
    credential is available, in particular on an empty registry and when
    every credential is disabled.  It is a total function: no call throws. *)
Theorem acquire_first_by_priority (m : Manager) (feature : FeatureType) (now : Z) :
  well_keyed m -> active_have_clients m ->
  (forall config,
     fst (getBestAPI feature now m) = Some config ->
     exists before api after,
       getAllAPIs m = before ++ api :: after /\
       config = count_use feature now api /\
       status api = active /\ limited now m (api_id api) = false /\
       (forall y, In y before -> available now m y = true -> priority api < priority y) /\
       (forall y, In y after -> available now m y = true -> priority api <= priority y)) /\
  (fst (getBestAPI feature now m) = None <->
   forall api, In api (getAllAPIs m) -> available now m api = false) /\
  (getAllAPIs m = [] -> fst (getBestAPI feature now m) = None) /\
  ((forall api, In api (getAllAPIs m) -> status api = disabled) ->
   fst (getBestAPI feature now m) = None).
Proof.
  intros Hk Hc. unfold getAllAPIs.
  pose proof (getBestAPI_sorted feature now m Hk Hc) as Hbest.
  assert (Hnone : fst (getBestAPI feature now m) = None <->
                  forall api, In api (apis m) -> available now m api = false).
  { rewrite Hbest. split.
    - intros H api Hin.
      destruct (sort_by priority (List.filter (available now m) (apis m)))
        as [|z s] eqn:Es; [|discriminate].
      apply sort_by_nil in Es.
      destruct (available now m api) eqn:E; [|reflexivity].
      assert (Hf : In api (List.filter (available now m) (apis m)))
        by (apply filter_In; auto).
      rewrite Es in Hf. destruct Hf.
    - intros H.
      destruct (sort_by priority (List.filter (available now m) (apis m)))
        as [|z s] eqn:Es; [reflexivity|].
      assert (Hz : In z (sort_by priority (List.filter (available now m) (apis m))))
        by (rewrite Es; left; reflexivity).
      apply in_sort_by, filter_In in Hz as [Hz Hav].
      rewrite (H z Hz) in Hav. discriminate. }
  split; [|split; [exact Hnone|split]].
  - intros config Hsome. rewrite Hbest in Hsome.
    destruct (head (sort_by priority (List.filter (available now m) (apis m))))
      as [api|] eqn:Eh; [|discriminate].
    injection Hsome as <-.
    destruct (sort_filter_head priority (available now m) (apis m) api Eh)
      as (before & after & Hl & Hav & Hb & Ha).
    exists before, api, after. unfold available in Hav.
    apply andb_prop in Hav as [Hst Hlim].
    apply status_eqb_eq in Hst. apply negb_true_iff in Hlim.
    repeat split; assumption.
  - intros Hnil. apply Hnone. rewrite Hnil. intros api [].
  - intros Hdis. apply Hnone. intros api Hin. unfold available.
    rewrite (Hdis api Hin). reflexivity.
Qed.

Lemma acquire_first_by_priority_witness :
  well_keyed two_keys /\ active_have_clients two_keys /\
  exists before api after,
    getAllAPIs two_keys = before ++ api :: after /\
    count_use chat 0 (fresh_config "primary" "AIzaPrimary" 1) = count_use chat 0 api /\
    status api = active /\ limited 0 two_keys (api_id api) = false /\
    (forall y, In y before -> available 0 two_keys y = true -> priority api < priority y) /\
    (forall y, In y after -> available 0 two_keys y = true -> priority api <= priority y).
Proof.
  assert (Hk : well_keyed two_keys).
  { unfold well_keyed. simpl.
    apply List.NoDup_cons_iff. split; [simpl; intros [H|[]]; discriminate H|].
    apply List.NoDup_cons_iff. split; [simpl; tauto|apply List.NoDup_nil]. }
  assert (Hc : active_have_clients two_keys).
  { intros api Hin _. simpl in Hin.
    destruct Hin as [<- | [<- | []]];
      (eapply bool_decide_eq_true_1; vm_compute; reflexivity). }
  split; [exact Hk|]. split; [exact Hc|].
  exact (proj1 (acquire_first_by_priority two_keys chat 0 Hk Hc) _ eq_refl).
Defined.

(** ** Well-formed managers *)

Lemma reactivate_id (expected : Status) (api : GeminiAPIConfig) :
  api_id (reactivate expected api) = api_id api.
Proof.
  unfold reactivate. destruct (status_eqb _ _); [|reflexivity].
  destruct expected; reflexivity.
Qed.

Lemma apis_set_ids_NoDup (c : GeminiAPIConfig) (l : list GeminiAPIConfig) :
  List.NoDup (map api_id l) -> List.NoDup (map api_id (apis_set c l)).
Proof.
  induction l as [|a l IH]; simpl; intros Hnd.
  - apply List.NoDup_cons_iff. split; [simpl; tauto|apply List.NoDup_nil].
  - apply List.NoDup_cons_iff in Hnd as [Ha Hl].
    destruct (String.eqb_spec (api_id a) (api_id c)) as [E|E]; simpl.
    + apply List.NoDup_cons_iff. split; [rewrite <- E; assumption|assumption].
    + apply List.NoDup_cons_iff. split; [|apply IH, Hl].
      intros Hin. apply in_map_iff in Hin as (y & Ey & Hy).
      assert (Hcases : y = c \/ In y l).
      { clear -Hy. induction l as [|b l IH]; simpl in Hy.
        - destruct Hy as [<- | []]. auto.
        - destruct (String.eqb (api_id b) (api_id c)); simpl in Hy.
          + destruct Hy as [<- | Hy]; auto. right. right. exact Hy.
          + destruct Hy as [<- | Hy]; [right; left; reflexivity|].
            destruct (IH Hy); auto. right. right. assumption. }
      destruct Hcases as [-> | Hin]; [congruence|].
      apply Ha. apply in_map_iff. eauto.
Qed.

Lemma in_apis_set (c x : GeminiAPIConfig) (l : list GeminiAPIConfig) :
  In x (apis_set c l) -> x = c \/ In x l.
Proof.
  induction l as [|b l IH]; simpl.
  - intros [<- | []]. auto.
  - destruct (String.eqb (api_id b) (api_id c)); simpl.
    + intros [<- | H]; auto.
    + intros [<- | H]; auto. destruct (IH H); auto.
Qed.

Lemma fire_all_frame (ts : list Timer) :
  forall m,
    map api_id (apis (fold_left (fun acc t => fire t acc) ts m)) = map api_id (apis m) /\
    clients (fold_left (fun acc t => fire t acc) ts m) = clients m.
Proof.
  induction ts as [|t ts IH]; intros m; simpl; [auto|].
  destruct (IH (fire t m)) as [Hi Hc]. rewrite Hi, Hc. unfold fire. simpl.
  split; [|reflexivity]. apply apis_update_ids. intros a. apply reactivate_id.
Qed.

(** What every call on the manager keeps: the ids listed (registrations
    apart, which keep them distinct), and the clients built so far. *)
Lemma perform_well_formed (w : World) (c : Command) :
  well_keyed (manager w) /\ all_have_clients (manager w) ->
  well_keyed (manager (perform sdk_fine w c)) /\
  all_have_clients (manager (perform sdk_fine w c)).
Proof.
  assert (Hkeep : forall m m' : Manager,
             map api_id (apis m') = map api_id (apis m) ->
             clients m' = clients m ->
             well_keyed m /\ all_have_clients m ->
             well_keyed m' /\ all_have_clients m').
  { intros m m' Hi Hc [Hk Ha]. unfold well_keyed, all_have_clients in *.
    rewrite Hi, Hc. split; [assumption|].
    intros api Hin.
    assert (Hid : In (api_id api) (map api_id (apis m))) by (rewrite <- Hi; apply in_map, Hin).
    apply in_map_iff in Hid as (y & <- & Hy). apply Ha, Hy. }
  assert (Hadd : forall config m,
             well_keyed m /\ all_have_clients m ->
             well_keyed (addAPI sdk_fine config m) /\
             all_have_clients (addAPI sdk_fine config m)).
  { intros config m [Hk Ha]. unfold addAPI, sdk_fine.
    destruct (existsb _ (apis m)); [auto|].
    unfold well_keyed, all_have_clients. simpl. split.
    - apply apis_set_ids_NoDup, Hk.
    - intros api Hin. apply elem_of_union.
      apply in_apis_set in Hin as [-> | Hin].
      + left. apply elem_of_singleton. reflexivity.
      + right. apply Ha, Hin. }
  intros Hw. destruct c as [config | keyName apiKey customName | apiId st | e]; simpl.
  - apply Hadd, Hw.
  - unfold addAPIAtRuntime. destruct (negb _); simpl; [exact Hw|apply Hadd, Hw].
  - revert Hw. apply Hkeep; [|reflexivity]. simpl.
    apply apis_update_ids. intros a. destruct st; reflexivity.
  - destruct e as [b error | feature | ms]; simpl.
    + revert Hw. unfold handleAPIFailure.
      destruct (apis_get b _); [|tauto].
      apply Hkeep; [|reflexivity]. simpl. apply apis_update_ids. reflexivity.
    + unfold getBestAPI.
      destruct (keep_available_frame (clock w) (apis (manager w)) (manager w))
        as (Ha & Hc & _).
      destruct (keep_available (clock w) (apis (manager w)) (manager w)) as [kept m1].
      simpl in *.
      destruct (find _ (sort_by priority kept)) as [api|]; simpl.
      * revert Hw. unfold trackUsage. destruct (apis_get _ _); simpl.
        -- apply Hkeep; simpl; [|assumption].
           rewrite apis_update_ids by reflexivity. rewrite Ha. reflexivity.
        -- apply Hkeep; [rewrite Ha; reflexivity|assumption].
      * revert Hw. apply Hkeep; [rewrite Ha; reflexivity|assumption].
    + revert Hw. unfold elapse.
      match goal with
      | |- context [fold_left ?f ?ts ?m0] =>
          destruct (fire_all_frame ts m0) as [Hi Hc]
      end.
      apply Hkeep; assumption.
Qed.

(** Whatever is called on a manager that started empty, as long as the SDK
    accepts the keys: ids are distinct and every credential has its
    clients. *)
Lemma reachable_well_formed (commands : list Command) (t0 : Z) :
  well_keyed (manager (fold_left (perform sdk_fine) commands
                         {| clock := t0; manager := empty_manager; handed := [] |})) /\
  active_have_clients (manager (fold_left (perform sdk_fine) commands
                         {| clock := t0; manager := empty_manager; handed := [] |})).
Proof.
  assert (H : forall w, well_keyed (manager w) /\ all_have_clients (manager w) ->
                        well_keyed (manager (fold_left (perform sdk_fine) commands w)) /\
                        all_have_clients (manager (fold_left (perform sdk_fine) commands w))).
  { induction commands as [|c commands IH]; intros w Hw; simpl; [assumption|].
    apply IH, perform_well_formed, Hw. }
  destruct (H {| clock := t0; manager := empty_manager; handed := [] |}) as [Hk Ha].
  - split; [apply List.NoDup_nil|intros api []].
  - split; [exact Hk|]. intros api Hin _. apply Ha, Hin.
Qed.

(** ** Quarantine after a failure *)

Lemma apis_get_In (x : string) (l : list GeminiAPIConfig) (api : GeminiAPIConfig) :
  apis_get x l = Some api -> In api l /\ api_id api = x.
Proof.
  unfold apis_get. intros H. apply find_some in H as [Hin E].
  apply String.eqb_eq in E. auto.
Qed.

Lemma apis_get_None (x : string) (l : list GeminiAPIConfig) :
  apis_get x l = None -> forall api, In api l -> api_id api <> x.
Proof.
  unfold apis_get. intros H api Hin E.
  apply (find_none _ _ H) in Hin. apply String.eqb_neq in Hin. contradiction.
Qed.

Lemma inactive_update_other (a b : string) (f : GeminiAPIConfig -> GeminiAPIConfig)
    (l : list GeminiAPIConfig) :
  b <> a -> (forall y, api_id (f y) = api_id y) ->
  inactive a l -> inactive a (apis_update b f l).
Proof.
  intros Hne Hf Hl api Hin Hid.
  apply in_apis_update in Hin as (y & Hy & ->).
  destruct (String.eqb_spec (api_id y) b) as [E|_].
  - rewrite Hf in Hid. congruence.
  - apply Hl; assumption.
Qed.

Lemma inactive_update_status (a b : string) (f : GeminiAPIConfig -> GeminiAPIConfig)
    (l : list GeminiAPIConfig) :
  (forall y, api_id (f y) = api_id y) -> (forall y, status (f y) = status y) ->
  inactive a l -> inactive a (apis_update b f l).
Proof.
  intros Hf Hs Hl api Hin Hid.
  apply in_apis_update in Hin as (y & Hy & ->).
  destruct (String.eqb (api_id y) b).
  - rewrite Hs. rewrite Hf in Hid. apply Hl; assumption.
  - apply Hl; assumption.
Qed.

Lemma fire_all_inactive (a : string) (ts : list Timer) :
  (forall t, In t ts -> target t <> a) ->
  forall m, inactive a (apis m) ->
            inactive a (apis (fold_left (fun acc t => fire t acc) ts m)) /\
            timers (fold_left (fun acc t => fire t acc) ts m) = timers m.
Proof.
  induction ts as [|t ts IH]; intros Hts m Hm; simpl; [auto|].
  destruct (IH (fun t' Ht' => Hts t' (or_intror Ht')) (fire t m)) as [Hi Ht].
  - unfold fire. simpl. apply inactive_update_other; [|apply reactivate_id|assumption].
    apply Hts. left. reflexivity.
  - split; [exact Hi|]. rewrite Ht. reflexivity.
Qed.

Lemma getBestAPI_facts (a : string) (feature : FeatureType) (now : Z) (m : Manager) :
  timers (snd (getBestAPI feature now m)) = timers m /\
  (inactive a (apis m) -> inactive a (apis (snd (getBestAPI feature now m)))) /\
  (forall config,
     fst (getBestAPI feature now m) = Some config ->
     exists api, In api (apis m) /\ status api = active /\ api_id config = api_id api).
Proof.
  unfold getBestAPI.
  pose proof (keep_available_sound now (apis m) m) as Hs.
  destruct (keep_available_frame now (apis m) m) as (Ha & _ & Ht).
  destruct (keep_available now (apis m) m) as [kept m1]. simpl in *.
  destruct (find _ (sort_by priority kept)) as [api|] eqn:Ef; simpl.
  - apply find_some in Ef as [Hin _]. apply in_sort_by in Hin.
    destruct (Hs api Hin) as [Hin' Hst].
    repeat split.
    + unfold trackUsage. destruct (apis_get _ _); simpl; assumption.
    + intros Hi. unfold trackUsage. destruct (apis_get _ _); simpl.
      * apply inactive_update_status; [reflexivity..|]. rewrite Ha. exact Hi.
      * rewrite Ha. exact Hi.
    + intros config [= <-]. exists api. auto.
  - split; [assumption|]. split; [rewrite Ha; auto|discriminate].
Qed.

Lemma happen_quarantined (a : string) (deadline : Z) (w : World) (e : Event) :
  spares a e -> quarantined a deadline w -> quarantined a deadline (happen w e).
Proof.
  intros Hsp [Hout Hlog]. destruct e as [b error | feature | ms]; simpl in *.
  - (* a failure of another credential is reported *)
    split; [|exact Hlog]. simpl. intros Hc. destruct (Hout Hc) as [Hi Ht].
    unfold handleAPIFailure. destruct (apis_get b _); simpl; [|auto].
    split.
    + apply inactive_update_other; [assumption|reflexivity|assumption].
    + intros t Hin Ha. apply in_app_iff in Hin as [Hin | [<- | []]]; [auto|].
      simpl in Ha. contradiction.
  - (* a credential is asked for *)
    destruct (getBestAPI_facts a feature (clock w) (manager w)) as (Ht & Hi & Hbest).
    destruct (getBestAPI feature (clock w) (manager w)) as [best m']. simpl in *.
    split; simpl.
    + intros Hc. destruct (Hout Hc) as [Hin Htm]. rewrite Ht. auto.
    + intros t b Hin Hlt. destruct best as [config|]; [|eauto].
      destruct Hin as [[= <- <-] | Hin]; [|eauto].
      destruct (Hbest config eq_refl) as (api & Hapi & Hst & ->).
      intros Hb. destruct (Hout Hlt) as [Hina _].
      apply (Hina api Hapi Hb Hst).
  - (* time passes *)
    split; [|exact Hlog]. simpl. intros Hc.
    assert (Hc0 : clock w < deadline) by lia.
    destruct (Hout Hc0) as [Hi Ht]. unfold elapse.
    set (ripe := List.filter (fun t => due t <=? clock w + Z.of_N ms)
                             (timers (manager w))).
    set (pending := List.filter (fun t => negb (due t <=? clock w + Z.of_N ms))
                                (timers (manager w))).
    destruct (fire_all_inactive a (sort_by due ripe)) with
      (m := {| apis := apis (manager w); clients := clients (manager w);
               rateLimitTracker := rateLimitTracker (manager w);
               timers := pending |}) as [Hi' Ht'].
    + intros t Hin Ha. apply in_sort_by in Hin. unfold ripe in Hin.
      apply filter_In in Hin as [Hin Hdue]. apply Z.leb_le in Hdue.
      specialize (Ht t Hin Ha). lia.
    + exact Hi.
    + split; [exact Hi'|]. rewrite Ht'. simpl. intros t Hin Ha.
      unfold pending in Hin. apply filter_In in Hin as [Hin _]. auto.
Qed.

Lemma history_quarantined (a : string) (deadline : Z) (events : list Event) :
  Forall (spares a) events ->
  forall w, quarantined a deadline w -> quarantined a deadline (history events w).
Proof.
  induction events as [|e events IH]; intros Hall w Hw; simpl; [assumption|].
  apply Forall_cons_iff in Hall as [He Hall].
  apply IH; [assumption|]. apply happen_quarantined; assumption.
Qed.

(** Where the quarantine does hold: when no earlier reactivation timer of the
    credential is pending at the time of the report and no further failure
    of it is reported, [getBestAPI] does not hand it out before the hour
    (quota) or the five minutes (otherwise) are over. *)
Lemma quarantine_without_stale_timers (m : Manager) (a : string) (error : Thrown)
    (t0 : Z) (events : list Event) :
  (forall t, In t (timers m) -> target t <> a) ->
  Forall (spares a) events ->
  forall t b,
    In (t, b) (handed (history events
                         {| clock := t0; manager := handleAPIFailure a error t0 m;
                            handed := [] |})) ->
    t < t0 + quarantine error -> b <> a.
Proof.
  intros Hclean Hall.
  apply (history_quarantined a (t0 + quarantine error) events Hall).
  split; simpl; [|intros t b []].
  intros _. unfold handleAPIFailure, quarantine.
  destruct (apis_get a (apis m)) as [api|] eqn:Hget; simpl.
  - split.
    + intros api' Hin Hid. apply in_apis_update in Hin as (y & Hy & ->).
      destruct (String.eqb_spec (api_id y) a) as [E|E]; [|contradiction].
      destruct (indicates_quota _); simpl; discriminate.
    + intros t Hin Ha. apply in_app_iff in Hin as [Hin | [<- | []]].
      * exfalso. apply (Hclean t Hin Ha).
      * simpl. destruct (indicates_quota _); simpl; lia.
  - split.
    + intros api Hin Hid. exfalso. apply (apis_get_None a _ Hget api Hin Hid).
    + intros t Hin Ha. exfalso. apply (Hclean t Hin Ha).
Qed.

(** The status a report gives the credential. *)
Lemma handleAPIFailure_status (m : Manager) (a : string) (error : Thrown) (t0 : Z)
    (api : GeminiAPIConfig) :
  apis_get a (apis m) = Some api ->
  exists api',
    apis_get a (apis (handleAPIFailure a error t0 m)) = Some api' /\
    status api' = (if indicates_quota (error_message error)
                   then quota_exceeded else failed) /\
    failureCount api' = failureCount api + 1.
Proof.
  intros Hget. unfold handleAPIFailure. rewrite Hget. simpl.
  eexists. split; [apply apis_get_update; [reflexivity|exact Hget]|].
  simpl. destruct (indicates_quota _); auto.
Qed.

(** C4 at its failing input.  The reactivation timers are never cancelled,
    and the callback of an older one cannot tell that a later failure was
    reported.  With two quota failures of [primary] at 0 and at 2 s,
    [getBestAPI] hands [primary] out again at 3 600 000 ms, less than an hour
    after the second report; with a quota failure at 0 and a transient one at
    1 s, it hands [primary] out at 301 000 ms, hardly five minutes after the
    quota failure. *)
Theorem quarantine_cut_short_by_stale_timer :
  handed (history two_quota_reports at_start) =
    [(3600000, "primary"%string); (3599999, "api_2"%string)] /\
  handed (history quota_then_transient at_start) =
    [(301000, "primary"%string); (300999, "api_2"%string)].
Proof. split; vm_compute; reflexivity. Qed.

End PoolSpec.

Module CacheSpec.
Import Cache.

Lemma cache_get_set (k : string) (v : CachedResponse) (cache : ResponseCache) :
  cache_get k (cache_set k v cache) = Some v.
Proof.
  unfold cache_get. induction cache as [|entry rest IH]; simpl.
  - rewrite String.eqb_refl. reflexivity.
  - destruct (String.eqb (fst entry) k) eqn:E; simpl.
    + rewrite String.eqb_refl. reflexivity.
    + rewrite E. exact IH.
Qed.

Lemma cache_get_delete_other (k k0 : string) (cache : ResponseCache) :
  k0 <> k -> cache_get k (cache_delete k0 cache) = cache_get k cache.
Proof.
  intros Hne. unfold cache_get, cache_delete.
  induction cache as [|entry rest IH]; simpl; [reflexivity|].
  destruct (String.eqb_spec (fst entry) k0) as [E0|E0]; simpl.
  - destruct (String.eqb_spec (fst entry) k) as [E|E]; [congruence|exact IH].
  - destruct (String.eqb (fst entry) k); [reflexivity|exact IH].
Qed.

(** Setting a key either rewrites its entry where it stands or, when the key
    is new, appends an entry. *)
Lemma cache_set_shape (k : string) (v : CachedResponse) (cache : ResponseCache) :
  length (cache_set k v cache) = length cache \/
  ((forall entry, In entry cache -> fst entry <> k) /\
   cache_set k v cache = cache ++ [(k, v)]).
Proof.
  induction cache as [|entry rest IH]; simpl.
  - right. split; [intros entry []|reflexivity].
  - destruct (String.eqb_spec (fst entry) k) as [E|E]; simpl.
    + left. reflexivity.
    + destruct IH as [IH | [Hnew IH]].
      * left. rewrite IH. reflexivity.
      * right. split; [|rewrite IH; reflexivity].
        intros e [<- | He]; [assumption|apply Hnew, He].
Qed.

(** What was just put is there: the eviction of the oldest entry never takes
    the entry that was set. *)
Lemma set_then_lookup (query response : jsstring) (type : CacheType) (now : Z)
    (cache : ResponseCache) :
  (length cache <= 100)%nat ->
  cache_get (cache_key query type) (setCachedResponse query response type now cache) =
    Some {| content := response; timestamp := now;
            expiryTime := now + CACHE_DURATION;
            queryHash := generateQueryHash query |}.
Proof.
  intros Hsize. unfold setCachedResponse.
  set (k := cache_key query type).
  set (v := {| content := response; timestamp := now;
               expiryTime := now + CACHE_DURATION;
               queryHash := generateQueryHash query |}).
  pose proof (cache_get_set k v cache) as Hget.
  destruct (Nat.ltb_spec 100 (length (cache_set k v cache))) as [Hbig|_]; [|exact Hget].
  destruct (cache_set_shape k v cache) as [Hsame | [Hnew Happ]]; [lia|].
  rewrite Happ in *.
  destruct cache as [|[k0 v0] rest]; [simpl in *; lia|].
  rewrite <- app_comm_cons in *. cbv beta iota.
  destruct (String.eqb k0 ""); [exact Hget|].
  rewrite cache_get_delete_other; [exact Hget|].
  apply (Hnew (k0, v0)). left. reflexivity.
Qed.

Lemma put_then_get (query response : jsstring) (type : CacheType) (now later : Z)
    (cache : ResponseCache) :
  (length cache <= 100)%nat -> later < now + CACHE_DURATION ->
  fst (getCachedResponse query type later
         (setCachedResponse query response type now cache)) = Some response.
Proof.
  intros Hsize Hlater. unfold getCachedResponse.
  rewrite set_then_lookup by assumption. simpl.
  destruct (Z.ltb_spec later (now + CACHE_DURATION)); [reflexivity|lia].
Qed.

Lemma cache_delete_length (k : string) (cache : ResponseCache) :
  (length (cache_delete k cache) <= length cache)%nat.
Proof.
  unfold cache_delete. induction cache as [|entry rest IH]; simpl; [lia|].
  destruct (negb _); simpl; lia.
Qed.

Lemma cache_key_not_empty (query : jsstring) (type : CacheType) :
  cache_key query type <> ""%string.
Proof. destruct type; discriminate. Qed.

(** The bound that [set_then_lookup] relies on is kept by both operations. *)
Lemma bounded_kept (query response : jsstring) (type : CacheType) (now : Z)
    (cache : ResponseCache) :
  bounded cache ->
  bounded (setCachedResponse query response type now cache) /\
  bounded (snd (getCachedResponse query type now cache)).
Proof.
  intros [Hsize Hkeys]. split.
  - unfold setCachedResponse.
    set (k := cache_key query type).
    set (v := {| content := response; timestamp := now;
                 expiryTime := now + CACHE_DURATION;
                 queryHash := generateQueryHash query |}).
    assert (Hk1 : forall entry, In entry (cache_set k v cache) -> fst entry <> ""%string).
    { clear Hsize. induction cache as [|e rest IH]; simpl.
      - intros entry [<- | []]. apply cache_key_not_empty.
      - destruct (String.eqb (fst e) k); simpl.
        + intros entry [<- | Hin]; [apply cache_key_not_empty|].
          apply Hkeys. right. exact Hin.
        + intros entry [<- | Hin]; [apply Hkeys; left; reflexivity|].
          apply IH; [|exact Hin]. intros e' He'. apply Hkeys. right. exact He'. }
    destruct (Nat.ltb_spec 100 (length (cache_set k v cache))) as [Hbig|Hok];
      [|split; assumption].
    destruct (cache_set_shape k v cache) as [Hsame | [_ Happ]]; [lia|].
    destruct (cache_set k v cache) as [|[k0 v0] rest] eqn:Ec; [simpl in Hbig; lia|].
    destruct (String.eqb_spec k0 "") as [E|E].
    + exfalso. apply (Hk1 (k0, v0)); [left; reflexivity|exact E].
    + split.
      * unfold cache_delete. simpl. rewrite String.eqb_refl. simpl.
        pose proof (cache_delete_length k0 rest) as Hd. unfold cache_delete in Hd.
        assert (Hl : length ((k0, v0) :: rest) = S (length cache))
          by (rewrite Happ, length_app; simpl; lia).
        simpl in Hl. lia.
      * intros entry Hin. apply filter_In in Hin as [Hin _]. apply Hk1, Hin.
  - unfold getCachedResponse.
    destruct (cache_get _ cache) as [cached|]; [|split; assumption].
    destruct (now <? expiryTime cached); [split; assumption|]. simpl. split.
    + pose proof (cache_delete_length (cache_key query type) cache). lia.
    + intros entry Hin. apply filter_In in Hin as [Hin _]. apply Hkeys, Hin.
Qed.

Lemma same_hash_same_entry (q1 q2 : jsstring) (type : CacheType) (now : Z)
    (cache : ResponseCache) :
  generateQueryHash q1 = generateQueryHash q2 ->
  getCachedResponse q1 type now cache = getCachedResponse q2 type now cache.
Proof.
  intros H. unfold getCachedResponse, cache_key. rewrite H. reflexivity.
Qed.

Example phrase_plain_normalized :
  normalize phrase_plain = [116; 111; 32; 110; 104; 32; 99; 111; 110; 32; 109; 111] /\
  generateQueryHash phrase_plain = "-910268735"%string.
Proof. split; vm_compute; reflexivity. Qed.

Lemma phrasings_same_hash :
  generateQueryHash phrase_padded = generateQueryHash phrase_plain.
Proof. vm_compute. reflexivity. Qed.

(** C9. The phrasings "  Tạo Ảnh   con mèo!" and "tạo ảnh con mèo" are
    normalised to the same text and so have the same hash and, for the same
    feature, the same cache key; hence on a cache within its bound of 100
    entries, after one [setCachedResponse] under either phrasing,
    [getCachedResponse] under the other one returns the stored payload as
    long as the entry has not expired. *)
Theorem normalized_phrasings_share_entry (type : CacheType) (cache : ResponseCache)
    (payload : jsstring) (now later : Z) :
  (length cache <= 100)%nat ->
  later < now + CACHE_DURATION ->
  normalize phrase_padded = normalize phrase_plain /\
  cache_key phrase_padded type = cache_key phrase_plain type /\
  fst (getCachedResponse phrase_plain type later
         (setCachedResponse phrase_padded payload type now cache)) = Some payload /\
  fst (getCachedResponse phrase_padded type later
         (setCachedResponse phrase_plain payload type now cache)) = Some payload.
Proof.
  intros Hsize Hlater.
  split; [vm_compute; reflexivity|].
  split; [unfold cache_key; rewrite phrasings_same_hash; reflexivity|].
  split.
  - rewrite <- (same_hash_same_entry _ _ type later _ phrasings_same_hash).
    apply put_then_get; assumption.
  - rewrite (same_hash_same_entry _ _ type later _ phrasings_same_hash).
    apply put_then_get; assumption.
Qed.

Lemma normalized_phrasings_share_entry_witness :
  fst (getCachedResponse phrase_plain chat 1000
         (setCachedResponse phrase_padded [109; 101; 111; 119] chat 0 [])) =
    Some [109; 101; 111; 119].
Proof.
  exact (proj1 (proj2 (proj2
           (normalized_phrasings_share_entry chat [] [109; 101; 111; 119] 0 1000
              ltac:(simpl; lia) ltac:(reflexivity))))).
Defined.

End CacheSpec.

(* ===================================================================== *)
(** * Further properties of the response cache *)
(* ===================================================================== *)

Module CacheExtra.
Import Cache.

Ltac booleans :=
  repeat first
    [ rewrite andb_true_iff in * | rewrite orb_true_iff in *
    | rewrite andb_false_iff in * | rewrite orb_false_iff in *
    | rewrite negb_true_iff in * | rewrite negb_false_iff in *
    | rewrite Z.leb_le in * | rewrite Z.leb_gt in *
    | rewrite Z.ltb_lt in * | rewrite Z.ltb_ge in *
    | rewrite Z.eqb_eq in * | rewrite Z.eqb_neq in * ].

(** ** The hash *)

Lemma to_int32_range (z : Z) : -2147483648 <= to_int32 z <= 2147483647.
Proof.
  unfold to_int32.
  pose proof (Z.mod_pos_bound z 4294967296 ltac:(lia)) as H.
  destruct (Z.ltb_spec (z mod 4294967296) 2147483648); lia.
Qed.

Lemma to_int32_shift (z k : Z) : to_int32 (z + k * 4294967296) = to_int32 z.
Proof. unfold to_int32. rewrite Z_mod_plus_full. reflexivity. Qed.

Lemma to_int32_wraps (z : Z) : exists k, to_int32 z = z + k * 4294967296.
Proof.
  unfold to_int32.
  pose proof (Z.div_mod z 4294967296 ltac:(lia)) as H.
  destruct (Z.ltb_spec (z mod 4294967296) 2147483648).
  - exists (- (z / 4294967296)). lia.
  - exists (- (z / 4294967296) - 1). lia.
Qed.

Lemma hash_step_wraps (hash char : Z) :
  hash_step hash char = to_int32 (31 * hash + char).
Proof.
  unfold hash_step. rewrite Z.land_diag, Z.shiftl_mul_pow2 by lia.
  destruct (to_int32_wraps hash) as [k1 ->].
  destruct (to_int32_wraps ((hash + k1 * 4294967296) * 2 ^ 5)) as [k2 ->].
  replace ((hash + k1 * 4294967296) * 2 ^ 5 + k2 * 4294967296 - hash + char)
    with (31 * hash + char + (32 * k1 + k2) * 4294967296) by lia.
  apply to_int32_shift.
Qed.

Lemma fold_hash_step (text : jsstring) :
  forall h1 h2 k,
    h1 = h2 + k * 4294967296 ->
    exists k', fold_left hash_step text h1 =
               fold_left (fun hash char => 31 * hash + char) text h2 + k' * 4294967296.
Proof.
  induction text as [|c text IH]; intros h1 h2 k E; simpl.
  - eauto.
  - rewrite hash_step_wraps.
    destruct (to_int32_wraps (31 * h1 + c)) as [k1 E1].
    apply (IH _ _ (31 * k + k1)). lia.
Qed.

Lemma fold_hash_step_range (text : jsstring) (h : Z) :
  -2147483648 <= h <= 2147483647 ->
  -2147483648 <= fold_left hash_step text h <= 2147483647.
Proof.
  revert h. induction text as [|c text IH]; intros h Hh; simpl; [assumption|].
  apply IH. rewrite hash_step_wraps. apply to_int32_range.
Qed.

Lemma to_int32_fixed (z : Z) :
  -2147483648 <= z <= 2147483647 -> to_int32 z = z.
Proof.
  intros Hz. unfold to_int32.
  destruct (Z.leb_spec 0 z).
  - rewrite Z.mod_small by lia. destruct (Z.ltb_spec z 2147483648); lia.
  - replace z with (z + 4294967296 + (-1) * 4294967296) by lia.
    rewrite Z_mod_plus_full, Z.mod_small by lia.
    destruct (Z.ltb_spec (z + 4294967296) 2147483648); lia.
Qed.

(** X1. The loop of [generateQueryHash] computes the 32-bit wrap-around of
    the polynomial [31 * hash + char] over the normalised text (the hash Java
    gives a string): the number it prints is that wrapped value, and it lies
    between -2^31 and 2^31 - 1 whatever the query. *)
Theorem query_hash_is_wrapped_polynomial (query : jsstring) :
  fold_left hash_step (normalize query) 0 = to_int32 (polynomial (normalize query)) /\
  generateQueryHash query = toString (to_int32 (polynomial (normalize query))) /\
  -2147483648 <= fold_left hash_step (normalize query) 0 <= 2147483647.
Proof.
  assert (Hr : -2147483648 <= fold_left hash_step (normalize query) 0 <= 2147483647)
    by (apply fold_hash_step_range; lia).
  assert (He : fold_left hash_step (normalize query) 0 =
               to_int32 (polynomial (normalize query))).
  { destruct (fold_hash_step (normalize query) 0 0 0 ltac:(lia)) as [k Hk].
    unfold polynomial.
    rewrite <- (to_int32_fixed _ Hr) at 1. rewrite Hk. apply to_int32_shift. }
  split; [exact He|]. split; [|exact Hr].
  unfold generateQueryHash. rewrite He. reflexivity.
Qed.

(** ** Normalisation *)

Ltac split_ifs :=
  repeat match goal with
         | |- context [if ?b then _ else _] => destruct b eqn:?
         end.

Lemma lower_unit_not_capital (u c : Z) :
  In c (lower_unit u) -> ~ (65 <= c <= 90).
Proof.
  unfold lower_unit. split_ifs; simpl; booleans;
    intros Hin; repeat (destruct Hin as [<- | Hin]); try contradiction; lia.
Qed.

Lemma lower_unit_space (c : Z) : is_space c = true -> lower_unit c = [c].
Proof.
  unfold is_space, lower_unit. intros H. split_ifs; try reflexivity;
    exfalso; booleans; lia.
Qed.

Lemma lower_unit_small_ascii (c : Z) : lower_unit (small_ascii c) = lower_unit c.
Proof.
  unfold small_ascii. destruct ((65 <=? c) && (c <=? 90)) eqn:E; [|reflexivity].
  unfold lower_unit at 2. rewrite E.
  unfold lower_unit. split_ifs; try reflexivity; exfalso; booleans; lia.
Qed.

Lemma toLowerCase_spaces (ws : jsstring) :
  forallb is_space ws = true -> toLowerCase ws = ws.
Proof.
  unfold toLowerCase. induction ws as [|c ws IH]; simpl; [reflexivity|].
  intros H. apply andb_prop in H as [Hc Hws].
  rewrite (lower_unit_space c Hc), IH by assumption. reflexivity.
Qed.

Lemma toLowerCase_small_ascii (q : jsstring) :
  toLowerCase (map small_ascii q) = toLowerCase q.
Proof.
  unfold toLowerCase. induction q as [|c q IH]; simpl; [reflexivity|].
  rewrite lower_unit_small_ascii, IH. reflexivity.
Qed.

Lemma trimStart_spaces (ws s : jsstring) :
  forallb is_space ws = true -> trimStart (ws ++ s) = trimStart s.
Proof.
  induction ws as [|c ws IH]; simpl; [reflexivity|].
  intros H. apply andb_prop in H as [-> Hws]. apply IH, Hws.
Qed.

Lemma trimStart_app (s t : jsstring) :
  trimStart s <> [] -> trimStart (s ++ t) = trimStart s ++ t.
Proof.
  induction s as [|c s IH]; simpl; [congruence|].
  destruct (is_space c); [exact IH|reflexivity].
Qed.

Lemma trimStart_all_spaces (s : jsstring) :
  trimStart s = [] -> forallb is_space s = true.
Proof.
  induction s as [|c s IH]; simpl; [reflexivity|].
  destruct (is_space c); [exact IH|discriminate].
Qed.

Lemma forallb_rev {A : Type} (p : A -> bool) (l : list A) :
  forallb p (rev l) = forallb p l.
Proof.
  induction l as [|x l IH]; simpl; [reflexivity|].
  rewrite forallb_app, IH. simpl. rewrite andb_true_r. apply andb_comm.
Qed.

Lemma trim_padding (ws1 ws2 s : jsstring) :
  forallb is_space ws1 = true -> forallb is_space ws2 = true ->
  trim (ws1 ++ s ++ ws2) = trim s.
Proof.
  intros H1 H2. unfold trim. rewrite trimStart_spaces by assumption.
  destruct (trimStart s) as [|c s'] eqn:Es.
  - assert (Hall : forallb is_space (s ++ ws2) = true).
    { rewrite forallb_app, (trimStart_all_spaces s Es). exact H2. }
    rewrite <- (app_nil_r (s ++ ws2)), trimStart_spaces by exact Hall.
    reflexivity.
  - rewrite trimStart_app by congruence. rewrite Es, rev_app_distr.
    rewrite trimStart_spaces by (rewrite forallb_rev; exact H2). reflexivity.
Qed.

Lemma in_trimStart (c : Z) (s : jsstring) : In c (trimStart s) -> In c s.
Proof.
  induction s as [|d s IH]; simpl; [tauto|].
  destruct (is_space d); [auto|]. simpl. tauto.
Qed.

Lemma in_trim (c : Z) (s : jsstring) : In c (trim s) -> In c s.
Proof.
  unfold trim. intros H. apply in_rev in H. apply in_trimStart in H.
  apply in_rev in H. apply in_trimStart, H.
Qed.

Lemma in_collapse (c : Z) (s : jsstring) : forall in_run,
  In c (collapse in_run s) ->
  (c = 32 \/ In c s) /\ (is_space c = true -> c = 32).
Proof.
  induction s as [|d s IH]; intros in_run; simpl; [tauto|].
  destruct (is_space d) eqn:Ed.
  - destruct in_run; simpl.
    + intros H. destruct (IH true H) as [[-> | Hin] Hs]; auto.
    + intros [<- | H]; [auto|]. destruct (IH true H) as [[-> | Hin] Hs]; auto.
  - simpl. intros [<- | H].
    + split; [auto|]. congruence.
    + destruct (IH false H) as [[-> | Hin] Hs]; auto.
Qed.

Lemma is_space_not_word (c : Z) : is_space c = true -> is_word c = false.
Proof.
  unfold is_space, is_word. intros H.
  destruct (((65 <=? c) && (c <=? 90)) || ((97 <=? c) && (c <=? 122)) ||
            ((48 <=? c) && (c <=? 57)) || (c =? 95)) eqn:E; [|reflexivity].
  exfalso. booleans. lia.
Qed.

Lemma word_units_trimStart (s : jsstring) :
  List.filter is_word (trimStart s) = List.filter is_word s.
Proof.
  induction s as [|c s IH]; simpl; [reflexivity|].
  destruct (is_space c) eqn:Ec; [|reflexivity].
  rewrite (is_space_not_word c Ec). exact IH.
Qed.

Lemma word_units_trim (s : jsstring) :
  List.filter is_word (trim s) = List.filter is_word s.
Proof.
  unfold trim.
  rewrite List.filter_rev, word_units_trimStart, List.filter_rev, rev_involutive.
  apply word_units_trimStart.
Qed.

Lemma word_units_collapse (s : jsstring) : forall in_run,
  List.filter is_word (collapse in_run s) = List.filter is_word s.
Proof.
  induction s as [|c s IH]; intros in_run; simpl; [reflexivity|].
  destruct (is_space c) eqn:Ec.
  - rewrite (is_space_not_word c Ec).
    destruct in_run; simpl; apply IH.
  - simpl. rewrite IH. reflexivity.
Qed.

Lemma word_units_strip (s : jsstring) :
  List.filter is_word (strip s) = List.filter is_word s.
Proof.
  unfold strip. induction s as [|c s IH]; simpl; [reflexivity|].
  destruct (is_word c) eqn:Ew; simpl; [rewrite Ew, IH; reflexivity|].
  destruct (is_space c); simpl; [rewrite Ew|]; exact IH.
Qed.

Lemma lower_unit_ascii (c : Z) : 0 <= c < 128 -> lower_unit c = [small_ascii c].
Proof.
  intros Hc. unfold lower_unit, small_ascii.
  split_ifs; try reflexivity; exfalso; booleans; lia.
Qed.

Lemma is_word_small_ascii (c : Z) : is_word (small_ascii c) = is_word c.
Proof.
  unfold small_ascii. destruct ((65 <=? c) && (c <=? 90)) eqn:E; [|reflexivity].
  unfold is_word. rewrite E. simpl.
  destruct ((65 <=? c + 32) && (c + 32 <=? 90) || (97 <=? c + 32) && (c + 32 <=? 122) ||
            (48 <=? c + 32) && (c + 32 <=? 57) || (c + 32 =? 95)) eqn:E2; [reflexivity|].
  exfalso. booleans. lia.
Qed.

(** X2. Whatever the query, its normalised text keeps the word units (small
    ASCII letters, digits and the underscore) of the lower-cased query, all
    of them and in their order, and holds nothing else but U+0020 spaces:
    white space is removed or becomes that space, every other code unit is
    dropped.  For a query in ASCII, the word units kept are those of the
    query itself, capitals made small. *)
Theorem normalized_text_is_plain (query : jsstring) :
  forallb plain_unit (normalize query) = true /\
  List.filter is_word (normalize query) = List.filter is_word (toLowerCase query) /\
  (forall c, In c (normalize query) -> is_word c = false -> c = 32) /\
  ((forall c, In c query -> 0 <= c < 128) ->
   List.filter is_word (normalize query) = map small_ascii (List.filter is_word query)).
Proof.
  assert (Hplain : forall c, In c (normalize query) -> plain_unit c = true).
  { intros c Hin. unfold normalize, strip in Hin.
    apply filter_In in Hin as [Hin Hkeep].
    destruct (in_collapse c _ false Hin) as [Hfrom Hspace].
    unfold plain_unit.
    destruct (is_space c) eqn:Es.
    - rewrite (Hspace eq_refl). reflexivity.
    - rewrite orb_false_r in Hkeep.
      destruct Hfrom as [-> | Hfrom]; [reflexivity|].
      apply in_trim in Hfrom. unfold toLowerCase in Hfrom.
      apply in_flat_map in Hfrom as (u & _ & Hu).
      apply lower_unit_not_capital in Hu.
      unfold is_word in Hkeep. booleans.
      destruct Hkeep as [[[Hk | Hk] | Hk] | Hk].
      + lia.
      + left. left. left. exact Hk.
      + left. left. right. exact Hk.
      + left. right. exact Hk. }
  assert (Hword : List.filter is_word (normalize query) =
                  List.filter is_word (toLowerCase query)).
  { unfold normalize.
    rewrite word_units_strip, word_units_collapse, word_units_trim. reflexivity. }
  split; [apply forallb_forall, Hplain|]. split; [exact Hword|]. split.
  - intros c Hin Hw. specialize (Hplain c Hin).
    unfold plain_unit in Hplain. unfold is_word in Hw. booleans.
    destruct Hplain as [[[Hp | Hp] | Hp] | Hp]; [| |lia|exact Hp].
    + destruct Hw as [[[_ Hw] _] _]. lia.
    + destruct Hw as [[_ Hw] _]. lia.
  - intros Hascii. rewrite Hword. clear Hplain Hword.
    unfold toLowerCase. induction query as [|c query IH]; simpl; [reflexivity|].
    rewrite (lower_unit_ascii c) by (apply Hascii; left; reflexivity). simpl.
    rewrite is_word_small_ascii.
    rewrite IH by (intros x Hx; apply Hascii; right; exact Hx).
    destruct (is_word c); reflexivity.
Qed.

(** X3. White space around a query and the case of its ASCII letters never
    matter: padded with any white space, or with its ASCII capitals made
    small, a query has the same normalised text, hence the same hash and,
    for each feature, the same cache key. *)
Theorem padding_and_case_share_key (query left right : jsstring) (type : CacheType) :
  forallb is_space left = true ->
  forallb is_space right = true ->
  normalize (left ++ query ++ right) = normalize query /\
  normalize (map small_ascii query) = normalize query /\
  cache_key (left ++ map small_ascii query ++ right) type = cache_key query type.
Proof.
  intros Hl Hr.
  assert (Hpad : forall q, normalize (left ++ q ++ right) = normalize q).
  { intros q. unfold normalize, toLowerCase.
    rewrite !flat_map_app.
    fold (toLowerCase left). fold (toLowerCase right). fold (toLowerCase q).
    rewrite (toLowerCase_spaces left Hl), (toLowerCase_spaces right Hr).
    rewrite trim_padding by assumption. reflexivity. }
  assert (Hcase : normalize (map small_ascii query) = normalize query).
  { unfold normalize. rewrite toLowerCase_small_ascii. reflexivity. }
  split; [apply Hpad|]. split; [exact Hcase|].
  unfold cache_key, generateQueryHash. rewrite Hpad, Hcase. reflexivity.
Qed.

Lemma padding_and_case_share_key_witness :
  cache_key ([32; 9] ++ map small_ascii [72; 105; 33] ++ [10]) chat =
  cache_key [72; 105; 33] chat.
Proof.
  exact (proj2 (proj2 (padding_and_case_share_key [72; 105; 33] [32; 9] [10] chat
                         ltac:(reflexivity) ltac:(reflexivity)))).
Defined.

(** ** Entries over time *)

Lemma cache_get_delete (k : string) (cache : ResponseCache) :
  cache_get k (cache_delete k cache) = None.
Proof.
  unfold cache_get, cache_delete. induction cache as [|entry rest IH]; simpl; [reflexivity|].
  destruct (String.eqb (fst entry) k) eqn:E; simpl; [exact IH|].
  rewrite E. exact IH.
Qed.

Lemma cache_get_set_other (k k' : string) (v : CachedResponse) (cache : ResponseCache) :
  k <> k' -> cache_get k' (cache_set k v cache) = cache_get k' cache.
Proof.
  intros Hne. unfold cache_get. induction cache as [|entry rest IH]; simpl.
  - destruct (String.eqb_spec k k'); [contradiction|reflexivity].
  - destruct (String.eqb_spec (fst entry) k) as [E|E]; simpl.
    + destruct (String.eqb_spec k k'); [contradiction|].
      destruct (String.eqb_spec (fst entry) k'); [congruence|reflexivity].
    + destruct (String.eqb (fst entry) k'); [reflexivity|exact IH].
Qed.

(** X4. Round trip and expiry, for every query and feature on a cache within
    its bound: what [setCachedResponse] stored is what [getCachedResponse]
    returns for as long as less than 30 minutes have passed; from 30 minutes
    on, the same call returns [null] and removes the entry. *)
Theorem put_get_round_trip_until_expiry (query payload : jsstring) (type : CacheType)
    (now later : Z) (cache : ResponseCache) :
  (length cache <= 100)%nat ->
  (later < now + 1800000 ->
   getCachedResponse query type later (setCachedResponse query payload type now cache) =
     (Some payload, setCachedResponse query payload type now cache)) /\
  (now + 1800000 <= later ->
   fst (getCachedResponse query type later
          (setCachedResponse query payload type now cache)) = None /\
   cache_get (cache_key query type)
     (snd (getCachedResponse query type later
             (setCachedResponse query payload type now cache))) = None).
Proof.
  intros Hsize.
  pose proof (CacheSpec.set_then_lookup query payload type now cache Hsize) as Hget.
  unfold getCachedResponse. rewrite Hget. cbn [expiryTime content].
  change CACHE_DURATION with 1800000.
  split; intros Hlater.
  - destruct (Z.ltb_spec later (now + 1800000)); [reflexivity|lia].
  - destruct (Z.ltb_spec later (now + 1800000)); [lia|]. simpl.
    split; [reflexivity|apply cache_get_delete].
Qed.

Lemma put_get_round_trip_until_expiry_witness :
  getCachedResponse [104; 105] chat 1799999 (setCachedResponse [104; 105] [111; 107] chat 0 []) =
    (Some [111; 107], setCachedResponse [104; 105] [111; 107] chat 0 []) /\
  fst (getCachedResponse [104; 105] chat 1800000
         (setCachedResponse [104; 105] [111; 107] chat 0 [])) = None.
Proof.
  destruct (put_get_round_trip_until_expiry [104; 105] [111; 107] chat 0 1799999 []
              ltac:(simpl; lia)) as [Hhit _].
  destruct (put_get_round_trip_until_expiry [104; 105] [111; 107] chat 0 1800000 []
              ltac:(simpl; lia)) as [_ Hmiss].
  split; [apply Hhit; lia|apply Hmiss; lia].
Defined.

Lemma type_name_separates (q1 q2 : jsstring) (t1 t2 : CacheType) :
  cache_key q1 t1 = cache_key q2 t2 -> t1 = t2.
Proof.
  unfold cache_key. destruct t1, t2; simpl; intros H; try reflexivity; discriminate H.
Qed.

(** X5. Entries of different features never meet: the keys of two features
    differ whatever the queries, and below the bound of 100 entries a
    [setCachedResponse] under one key leaves what [getCachedResponse] returns
    under any other key as it was. *)
Theorem put_leaves_other_keys (q1 q2 payload : jsstring) (t1 t2 : CacheType)
    (now later : Z) (cache : ResponseCache) :
  (length cache < 100)%nat ->
  cache_key q1 t1 <> cache_key q2 t2 ->
  (forall qa qb ta tb, ta <> tb -> cache_key qa ta <> cache_key qb tb) /\
  fst (getCachedResponse q2 t2 later (setCachedResponse q1 payload t1 now cache)) =
  fst (getCachedResponse q2 t2 later cache).
Proof.
  intros Hsize Hne. split.
  - intros qa qb ta tb Hab E. apply Hab. eapply type_name_separates, E.
  - assert (Hset : setCachedResponse q1 payload t1 now cache =
                   cache_set (cache_key q1 t1)
                     {| content := payload; timestamp := now;
                        expiryTime := now + CACHE_DURATION;
                        queryHash := generateQueryHash q1 |} cache).
    { unfold setCachedResponse.
      match goal with |- context [cache_set ?k ?v cache] =>
        destruct (CacheSpec.cache_set_shape k v cache) as [Hl | [_ Hl]];
        destruct (Nat.ltb_spec 100 (length (cache_set k v cache))) as [Hbig|_];
        try reflexivity
      end.
      - lia.
      - rewrite Hl, length_app in Hbig. simpl in Hbig. lia. }
    rewrite Hset. unfold getCachedResponse.
    rewrite cache_get_set_other by exact Hne.
    destruct (cache_get (cache_key q2 t2) cache) as [e|]; [|reflexivity].
    destruct (later <? expiryTime e); reflexivity.
Qed.

Lemma put_leaves_other_keys_witness :
  fst (getCachedResponse [104; 105] learning 5
         (setCachedResponse [104; 105] [111; 107] chat 0 [])) =
  fst (getCachedResponse [104; 105] learning 5 []).
Proof.
  exact (proj2 (put_leaves_other_keys [104; 105] [104; 105] [111; 107] chat learning 0 5 []
                  ltac:(simpl; lia) ltac:(discriminate))).
Defined.

(** ** Eviction *)

Lemma cache_delete_absent (k : string) (cache : ResponseCache) :
  ~ In k (map fst cache) -> cache_delete k cache = cache.
Proof.
  unfold cache_delete. induction cache as [|entry rest IH]; simpl; [reflexivity|].
  intros H. destruct (String.eqb_spec (fst entry) k) as [E|E]; simpl.
  - exfalso. apply H. left. exact E.
  - rewrite IH; [reflexivity|]. intros Hin. apply H. right. exact Hin.
Qed.

Lemma cache_set_present_keys (k : string) (v : CachedResponse) (cache : ResponseCache) :
  In k (map fst cache) -> map fst (cache_set k v cache) = map fst cache.
Proof.
  induction cache as [|entry rest IH]; simpl; [tauto|].
  destruct (String.eqb_spec (fst entry) k) as [E|E]; simpl.
  - intros _. rewrite E. reflexivity.
  - intros [H | H]; [contradiction|]. rewrite IH by exact H. reflexivity.
Qed.

(** X6. Eviction is first in, first out, and reading or rewriting an entry
    does not renew it.  On a full cache (100 entries, distinct non-empty
    keys) a [setCachedResponse] under a new key drops the oldest entry and
    appends the new one, keeping all the others in order; under a key that
    is already there it keeps every key at its place; and a hit of
    [getCachedResponse] leaves the cache as it is. *)
Theorem eviction_is_first_in_first_out (query payload : jsstring) (type : CacheType)
    (now : Z) (oldest : string * CachedResponse) (others : ResponseCache) :
  distinct_keys (oldest :: others) ->
  bounded (oldest :: others) ->
  length (oldest :: others) = 100%nat ->
  (~ In (cache_key query type) (map fst (oldest :: others)) ->
   setCachedResponse query payload type now (oldest :: others) =
     others ++ [(cache_key query type,
                 {| content := payload; timestamp := now;
                    expiryTime := now + CACHE_DURATION;
                    queryHash := generateQueryHash query |})]) /\
  (In (cache_key query type) (map fst (oldest :: others)) ->
   map fst (setCachedResponse query payload type now (oldest :: others)) =
     map fst (oldest :: others)) /\
  (forall q t later hit,
     fst (getCachedResponse q t later (oldest :: others)) = Some hit ->
     snd (getCachedResponse q t later (oldest :: others)) = oldest :: others).
Proof.
  intros Hkeys [_ Hnonempty] Hfull.
  set (k := cache_key query type).
  set (v := {| content := payload; timestamp := now;
               expiryTime := now + CACHE_DURATION;
               queryHash := generateQueryHash query |}).
  split; [|split].
  - intros Hnew. unfold setCachedResponse. fold k. fold v.
    destruct (CacheSpec.cache_set_shape k v (oldest :: others)) as [Hl | [_ Happ]].
    + exfalso. apply Hnew. clear -Hl.
      induction (oldest :: others) as [|e l IH]; simpl in *; [lia|].
      destruct (String.eqb_spec (fst e) k); [left; assumption|].
      right. apply IH. simpl in Hl. lia.
    + rewrite Happ.
      destruct (Nat.ltb_spec 100 (length ((oldest :: others) ++ [(k, v)]))) as [_|Hsmall].
      2:{ rewrite length_app, Hfull in Hsmall. simpl in Hsmall. lia. }
      rewrite <- app_comm_cons. destruct oldest as [k0 v0]. cbv beta iota.
      destruct (String.eqb_spec k0 "") as [E|_].
      { exfalso. apply (Hnonempty (k0, v0)); [left; reflexivity|exact E]. }
      unfold cache_delete. simpl. rewrite String.eqb_refl. simpl.
      apply List.NoDup_cons_iff in Hkeys as [Hfresh _]. simpl in Hfresh.
      fold (cache_delete k0 (others ++ [(k, v)])).
      apply cache_delete_absent. rewrite map_app, in_app_iff. simpl.
      intros [H | [H | []]]; [exact (Hfresh H)|].
      apply Hnew. left. symmetry. exact H.
  - intros Hold. unfold setCachedResponse. fold k. fold v.
    assert (Hsame : map fst (cache_set k v (oldest :: others)) = map fst (oldest :: others))
      by (apply cache_set_present_keys, Hold).
    destruct (Nat.ltb_spec 100 (length (cache_set k v (oldest :: others)))) as [Hbig|_];
      [|exact Hsame].
    exfalso. rewrite <- (length_map fst), Hsame, length_map, Hfull in Hbig. lia.
  - intros q t later hit. unfold getCachedResponse.
    destruct (cache_get (cache_key q t) (oldest :: others)) as [e|]; [|discriminate].
    destruct (later <? expiryTime e); [reflexivity|discriminate].
Qed.

Lemma distinctb_NoDup (l : list string) : distinctb l = true -> List.NoDup l.
Proof.
  induction l as [|k rest IH]; simpl; intros H; [apply List.NoDup_nil|].
  apply andb_prop in H as [Hk Hrest].
  apply List.NoDup_cons_iff. split; [|apply IH, Hrest].
  intros Hin. apply negb_true_iff in Hk.
  assert (Hex : existsb (String.eqb k) rest = true).
  { apply existsb_exists. exists k. split; [exact Hin|apply String.eqb_refl]. }
  congruence.
Qed.

Lemma full_cache_distinct : distinct_keys full_cache.
Proof. apply distinctb_NoDup. vm_compute. reflexivity. Qed.

Lemma full_cache_bounded : bounded full_cache.
Proof.
  split; [apply Nat.leb_le; vm_compute; reflexivity|].
  intros entry Hin.
  assert (Hall : forallb (fun e : string * CachedResponse =>
                            negb (String.eqb (fst e) "")) full_cache = true)
    by (vm_compute; reflexivity).
  rewrite forallb_forall in Hall. specialize (Hall entry Hin).
  apply negb_true_iff, String.eqb_neq in Hall. exact Hall.
Qed.

Lemma eviction_is_first_in_first_out_witness :
  setCachedResponse [104; 105] [111; 107] chat 5 full_cache =
    tl full_cache ++
    [(cache_key [104; 105] chat,
      {| content := [111; 107]; timestamp := 5; expiryTime := 5 + CACHE_DURATION;
         queryHash := generateQueryHash [104; 105] |})].
Proof.
  assert (Hshape : full_cache = hd ("!"%string, {| content := []; timestamp := 0;
                                                   expiryTime := 0; queryHash := "" |})
                                   full_cache :: tl full_cache)
    by (vm_compute; reflexivity).
  pose proof full_cache_distinct as Hd. pose proof full_cache_bounded as Hb.
  rewrite Hshape in Hd, Hb.
  destruct (eviction_is_first_in_first_out [104; 105] [111; 107] chat 5 _ _ Hd Hb
              ltac:(vm_compute; reflexivity)) as [Hnew _].
  rewrite <- Hshape in Hnew. apply Hnew.
  intros Hin.
  assert (Hno : existsb (String.eqb (cache_key [104; 105] chat)) (map fst full_cache) = false)
    by (vm_compute; reflexivity).
  assert (Hyes : existsb (String.eqb (cache_key [104; 105] chat)) (map fst full_cache) = true).
  { apply existsb_exists. eexists. split; [exact Hin|apply String.eqb_refl]. }
  congruence.
Defined.

(** ** Cleaning up *)

Lemma cleanup_fold (now : Z) (rest : ResponseCache) :
  forall (kept : ResponseCache) (removed : Z),
    List.NoDup (map fst (kept ++ rest)) ->
    fold_left
      (fun acc entry =>
         if expiryTime (snd entry) <=? now
         then (fst acc + 1, cache_delete (fst entry) (snd acc))
         else acc)
      rest (removed, kept ++ rest) =
    (removed + Z.of_nat (length rest) - Z.of_nat (length (List.filter (valid_at now) rest)),
     kept ++ List.filter (valid_at now) rest).
Proof.
  induction rest as [|entry rest IH]; intros kept removed Hnd; simpl.
  - f_equal. lia.
  - assert (Ev : valid_at now entry = negb (expiryTime (snd entry) <=? now))
      by (unfold valid_at; apply Z.ltb_antisym).
    rewrite Ev. destruct (expiryTime (snd entry) <=? now); simpl.
    + assert (Hdel : cache_delete (fst entry) (kept ++ entry :: rest) = kept ++ rest).
      { rewrite map_app in Hnd. simpl in Hnd.
        apply NoDup_remove in Hnd as [_ Hfresh]. rewrite in_app_iff in Hfresh.
        unfold cache_delete. rewrite List.filter_app. simpl.
        rewrite String.eqb_refl. simpl.
        fold (cache_delete (fst entry) kept). fold (cache_delete (fst entry) rest).
        rewrite !cache_delete_absent by tauto. reflexivity. }
      rewrite Hdel, IH.
      * f_equal. lia.
      * rewrite map_app in *. simpl in Hnd. apply NoDup_remove_1 in Hnd. exact Hnd.
    + replace (kept ++ entry :: rest) with ((kept ++ [entry]) ++ rest)
        by (rewrite <- app_assoc; reflexivity).
      rewrite IH.
      * rewrite <- app_assoc. simpl. f_equal. lia.
      * rewrite <- app_assoc. exact Hnd.
Qed.

Lemma cleanup_result (now : Z) (cache : ResponseCache) :
  distinct_keys cache ->
  cleanupExpiredCache now cache =
    (Z.of_nat (length cache) - Z.of_nat (length (List.filter (valid_at now) cache)),
     List.filter (valid_at now) cache).
Proof.
  intros Hkeys. unfold cleanupExpiredCache.
  exact (cleanup_fold now cache [] 0 Hkeys).
Qed.

(** X7. [cleanupExpiredCache] removes exactly the entries whose expiry time
    is not after the current time, in place, and returns how many they were,
    which is the [expiredEntries] that [getCacheStats] reports at that time;
    afterwards the statistics show no expired entry and the same valid ones,
    a second clean-up removes nothing, and no later read is changed by it. *)
Theorem cleanup_removes_expired_only (now : Z) (cache : ResponseCache) :
  distinct_keys cache ->
  snd (cleanupExpiredCache now cache) = List.filter (valid_at now) cache /\
  fst (cleanupExpiredCache now cache) = expiredEntries (getCacheStats now cache) /\
  expiredEntries (getCacheStats now (snd (cleanupExpiredCache now cache))) = 0 /\
  validEntries (getCacheStats now (snd (cleanupExpiredCache now cache))) =
    validEntries (getCacheStats now cache) /\
  fst (cleanupExpiredCache now (snd (cleanupExpiredCache now cache))) = 0 /\
  (forall query type later,
     now <= later ->
     fst (getCachedResponse query type later (snd (cleanupExpiredCache now cache))) =
     fst (getCachedResponse query type later cache)).
Proof.
  intros Hkeys.
  pose proof (cleanup_result now cache Hkeys) as Hfold.
  assert (Hidem : List.filter (valid_at now) (List.filter (valid_at now) cache) =
                  List.filter (valid_at now) cache).
  { clear. induction cache as [|e l IH]; simpl; [reflexivity|].
    destruct (valid_at now e) eqn:E; simpl; rewrite ?E, IH; reflexivity. }
  assert (Hkeys' : distinct_keys (List.filter (valid_at now) cache)).
  { clear -Hkeys. unfold distinct_keys in *.
    induction cache as [|e l IH]; simpl; [exact Hkeys|].
    apply List.NoDup_cons_iff in Hkeys as [Hfresh Hl].
    destruct (valid_at now e); simpl; [|apply IH, Hl].
    apply List.NoDup_cons_iff. split; [|apply IH, Hl].
    intros Hin. apply Hfresh. apply in_map_iff in Hin as (x & Ex & Hx).
    apply filter_In in Hx as [Hx _]. apply in_map_iff. eauto. }
  rewrite Hfold. cbn [fst snd].
  split; [reflexivity|]. split; [reflexivity|].
  unfold getCacheStats. cbn [expiredEntries validEntries].
  fold (valid_at now). rewrite Hidem.
  split; [lia|]. split; [reflexivity|]. split.
  - rewrite (cleanup_result now _ Hkeys'), Hidem. simpl. lia.
  - intros query type later Hlater. unfold getCachedResponse.
    set (k := cache_key query type).
    assert (Hget : cache_get k (List.filter (valid_at now) cache) =
                   match cache_get k cache with
                   | Some e => if now <? expiryTime e then Some e else None
                   | None => None
                   end).
    { clear -Hkeys. unfold cache_get, distinct_keys in *.
      induction cache as [|e l IH]; simpl; [reflexivity|].
      apply List.NoDup_cons_iff in Hkeys as [Hfresh Hl]. specialize (IH Hl).
      unfold valid_at at 1.
      destruct (String.eqb_spec (fst e) k) as [E|E]; simpl.
      - destruct (now <? expiryTime (snd e)) eqn:Ev; simpl.
        + destruct (String.eqb_spec (fst e) k); [reflexivity|contradiction].
        + rewrite IH.
          destruct (find (fun entry => String.eqb (fst entry) k) l) as [x|] eqn:Ef;
            [|reflexivity].
          exfalso. apply find_some in Ef as [Hx Ex]. apply String.eqb_eq in Ex.
          apply Hfresh. apply in_map_iff. exists x. split; [congruence|exact Hx].
      - destruct (now <? expiryTime (snd e)); simpl.
        + destruct (String.eqb_spec (fst e) k); [contradiction|exact IH].
        + exact IH. }
    rewrite Hget. destruct (cache_get k cache) as [e|]; [|reflexivity].
    destruct (Z.ltb_spec now (expiryTime e)); simpl.
    + destruct (later <? expiryTime e); reflexivity.
    + destruct (Z.ltb_spec later (expiryTime e)); [lia|reflexivity].
Qed.

Lemma cleanup_removes_expired_only_witness :
  distinct_keys full_cache /\
  fst (cleanupExpiredCache 1009 full_cache) = 10 /\
  length (snd (cleanupExpiredCache 1009 full_cache)) = 90%nat.
Proof.
  split; [exact full_cache_distinct|].
  destruct (cleanup_removes_expired_only 1009 full_cache full_cache_distinct)
    as (Hsnd & Hfst & _).
  split.
  - rewrite Hfst. vm_compute. reflexivity.
  - rewrite Hsnd. vm_compute. reflexivity.
Defined.

(** ** Prompts *)

Lemma collapse_single_spaced (s : jsstring) :
  forall b, single_spaced b (collapse b s) = true.
Proof.
  induction s as [|d rest IH]; intros b; simpl; [reflexivity|].
  destruct (is_space d) eqn:Ed.
  - destruct b; [apply IH|]. simpl. apply IH.
  - simpl. rewrite Ed. apply IH.
Qed.

Lemma single_spaced_relax (s : jsstring) (b : bool) :
  single_spaced b s = true -> single_spaced false s = true.
Proof.
  destruct s as [|c rest]; simpl; [reflexivity|].
  destruct (is_space c); [|tauto].
  intros H. apply andb_prop in H as [H Hrest]. apply andb_prop in H as [Hc _].
  rewrite Hc, Hrest. reflexivity.
Qed.

Lemma single_spaced_trimStart (s : jsstring) :
  forall b, single_spaced b s = true -> single_spaced true (trimStart s) = true.
Proof.
  induction s as [|c rest IH]; intros b; simpl; [reflexivity|].
  destruct (is_space c) eqn:Ec.
  - intros H. apply andb_prop in H as [_ Hrest]. apply (IH true Hrest).
  - intros H. simpl. rewrite Ec. exact H.
Qed.

Lemma single_spaced_prefix (x y : jsstring) :
  forall b, single_spaced b (x ++ y) = true -> single_spaced b x = true.
Proof.
  induction x as [|c rest IH]; intros b; simpl; [reflexivity|].
  destruct (is_space c).
  - intros H. apply andb_prop in H as [H Hrest]. rewrite H. apply (IH true Hrest).
  - apply IH.
Qed.

Lemma single_spaced_units (s : jsstring) :
  forall b c, single_spaced b s = true -> In c s -> is_space c = true -> c = 32.
Proof.
  induction s as [|d rest IH]; intros b c; simpl; [tauto|].
  destruct (is_space d) eqn:Ed.
  - intros H [<- | Hin] Hc.
    + apply andb_prop in H as [H _]. apply andb_prop in H as [H _].
      apply Z.eqb_eq, H.
    + apply andb_prop in H as [_ Hrest]. apply (IH true c Hrest Hin Hc).
  - intros H [<- | Hin] Hc; [congruence|]. apply (IH false c H Hin Hc).
Qed.

Lemma trimStart_suffix (s : jsstring) : exists p, s = p ++ trimStart s.
Proof.
  induction s as [|c rest [p IH]]; simpl.
  - exists []. reflexivity.
  - destruct (is_space c).
    + exists (c :: p). simpl. f_equal. exact IH.
    + exists []. reflexivity.
Qed.

Lemma trim_prefix (s : jsstring) : exists t, trimStart s = trim s ++ t.
Proof.
  unfold trim. destruct (trimStart_suffix (rev (trimStart s))) as [p Hp].
  exists (rev p). rewrite <- rev_app_distr, <- Hp, rev_involutive. reflexivity.
Qed.

Lemma collapse_newlines_none (s : jsstring) :
  ~ In 10 s -> forall b, collapse_newlines b s = s.
Proof.
  induction s as [|c rest IH]; intros Hno b; simpl; [reflexivity|].
  destruct (Z.eqb_spec c 10) as [E|E].
  - exfalso. apply Hno. left. exact E.
  - rewrite IH; [reflexivity|]. intros Hin. apply Hno. right. exact Hin.
Qed.

Lemma collapse_no_newline (s : jsstring) (b : bool) : ~ In 10 (collapse b s).
Proof.
  intros Hin. destruct (in_collapse 10 s b Hin) as [_ H].
  specialize (H eq_refl). discriminate H.
Qed.

(** X8. [optimizePrompt] returns at most 8000 code units in which the only
    white space is the single space U+0020, never twice in a row and never
    in front: every tab, line break and other white space of the prompt has
    become a space before the line breaks are looked at, so no line break is
    ever kept. *)
Theorem optimized_prompt_is_single_spaced (prompt : jsstring) :
  Z.of_nat (length (optimizePrompt prompt)) <= 8000 /\
  single_spaced true (optimizePrompt prompt) = true /\
  (forall c, In c (optimizePrompt prompt) -> is_space c = true -> c = 32) /\
  ~ In 10 (optimizePrompt prompt) /\
  optimizePrompt prompt = firstn (Z.to_nat 8000) (trim (collapse false prompt)).
Proof.
  assert (Hsame : optimizePrompt prompt =
                  firstn (Z.to_nat 8000) (trim (collapse false prompt))).
  { unfold optimizePrompt.
    rewrite collapse_newlines_none by apply collapse_no_newline. reflexivity. }
  assert (Hspaced : single_spaced true (optimizePrompt prompt) = true).
  { rewrite Hsame.
    pose proof (single_spaced_trimStart _ false (collapse_single_spaced prompt false)) as H.
    destruct (trim_prefix (collapse false prompt)) as [t Ht]. rewrite Ht in H.
    apply single_spaced_prefix in H.
    rewrite <- (firstn_skipn (Z.to_nat 8000) (trim (collapse false prompt))) in H.
    apply single_spaced_prefix in H. exact H. }
  split; [|split; [exact Hspaced|split; [|split; [|exact Hsame]]]].
  - unfold optimizePrompt.
    pose proof (firstn_le_length (Z.to_nat 8000)
                  (trim (collapse_newlines false (collapse false prompt)))) as Hlen.
    apply Nat2Z.inj_le in Hlen. rewrite Z2Nat.id in Hlen by lia. exact Hlen.
  - intros c. apply (single_spaced_units _ true c Hspaced).
  - rewrite Hsame. intros Hin.
    assert (Hin' : In 10 (trim (collapse false prompt))).
    { rewrite <- (firstn_skipn (Z.to_nat 8000)). apply in_or_app. left. exact Hin. }
    apply in_trim in Hin'. exact (collapse_no_newline _ _ Hin').
Qed.

End CacheExtra.

(* ===================================================================== *)
(** * Further properties of the credit ledger *)
(* ===================================================================== *)

Module LedgerExtra.
Import Ledger Reports.

Lemma int4_cost (creditType : CreditType) :
  int4 (CREDIT_COSTS creditType) = true /\ int4 (- CREDIT_COSTS creditType) = true /\
  0 < CREDIT_COSTS creditType.
Proof. destruct creditType; repeat split; reflexivity. Qed.

(** What the two writes do when the database accepts them. *)
Lemma write_back_ok (d : DB) (uid : string) (balance : Z)
    (row : CreditTransaction) (ok : Outcome) :
  reachable d = true -> int4 balance = true ->
  int4 (amount row) = true -> balanceAfter row = balance ->
  write_back d uid balance row ok =
    (ok, {| users := match users d !! uid with
                     | Some _ => <[uid := balance]> (users d)
                     | None => users d
                     end;
            creditTransactions := creditTransactions d ++ [row];
            reachable := true |}).
Proof.
  intros Hr Hb Ha Hrow. unfold write_back, update_credits, insert_transaction.
  rewrite Hr, Hb. simpl. rewrite Ha, Hrow, Hb. simpl. reflexivity.
Qed.

(** ** Check, then debit *)

(** X9. [canAfford] and [deductCredits] agree on the configured price.  When
    [canAfford] answers no, the debit is refused with the balance and the
    price in its message and leaves the database as it is: no transaction is
    recorded.  When it answers yes on a reachable database and an existing
    account, the debit succeeds, stores the balance less the price and logs
    one row of minus the price with that balance. *)
Theorem check_then_debit (d : DB) (uid : string) (creditType : CreditType)
    (mid : option string) (descr : option string) :
  (canAfford_ok (canAfford d uid creditType) = false ->
   deductCredits d uid creditType mid None descr =
     ({| success := false; newBalance := getUserCredits d uid;
         message := NotEnough (CREDIT_COSTS creditType) (getUserCredits d uid) |}, d)) /\
  (forall b,
     canAfford_ok (canAfford d uid creditType) = true ->
     reachable d = true -> users d !! uid = Some b -> int4 b = true ->
     fst (deductCredits d uid creditType mid None descr) =
       {| success := true; newBalance := b - CREDIT_COSTS creditType;
          message := Used (CREDIT_COSTS creditType) (b - CREDIT_COSTS creditType) |} /\
     users (snd (deductCredits d uid creditType mid None descr)) !! uid =
       Some (b - CREDIT_COSTS creditType) /\
     creditTransactions (snd (deductCredits d uid creditType mid None descr)) =
       creditTransactions d ++
       [debit_row uid creditType mid (CREDIT_COSTS creditType)
                  (b - CREDIT_COSTS creditType) descr]).
Proof.
  unfold canAfford, deductCredits. simpl. split.
  - intros Hno. apply Z.leb_gt in Hno.
    destruct (Z.ltb_spec (getUserCredits d uid) (CREDIT_COSTS creditType)); [reflexivity|lia].
  - intros b Hyes Hr Hu Hb.
    rewrite (LedgerSpec.getUserCredits_row d uid b Hr Hu) in *.
    apply Z.leb_le in Hyes.
    destruct (Z.ltb_spec b (CREDIT_COSTS creditType)); [lia|].
    destruct (int4_cost creditType) as (_ & Hneg & Hpos).
    rewrite write_back_ok; try assumption; try reflexivity.
    + simpl. rewrite Hu. split; [reflexivity|]. split; [apply lookup_insert_eq|reflexivity].
    + unfold int4 in *. apply andb_prop in Hb as [Hlo Hhi].
      apply Z.leb_le in Hlo, Hhi. apply andb_true_intro. split; apply Z.leb_le; lia.
Qed.

Lemma check_then_debit_witness :
  fst (deductCredits account1000 "u" videoAnalysis None None None) =
    {| success := true; newBalance := 700; message := Used 300 700 |}.
Proof.
  exact (proj1 (proj2 (check_then_debit account1000 "u" videoAnalysis None None)
                  1000 eq_refl eq_refl eq_refl eq_refl)).
Defined.

(** X10. The custom amount of a debit.  An amount of 0 is read as no amount
    at all and the configured price is charged; a negative amount is never
    refused for insufficient funds on a non-negative balance and, on a
    reachable database and an existing account, is a success that raises the
    stored balance by that much. *)
Theorem debit_custom_amount_edges (d : DB) (uid : string) (creditType : CreditType)
    (mid : option string) (descr : option string) :
  deductCredits d uid creditType mid (Some 0) descr =
    deductCredits d uid creditType mid None descr /\
  (forall a b,
     a < 0 -> reachable d = true -> users d !! uid = Some b -> 0 <= b ->
     int4 (b - a) = true ->
     success (fst (deductCredits d uid creditType mid (Some a) descr)) = true /\
     users (snd (deductCredits d uid creditType mid (Some a) descr)) !! uid = Some (b - a) /\
     b < b - a).
Proof.
  split; [reflexivity|].
  intros a b Ha Hr Hu Hb Hint. unfold deductCredits, debit_amount, js_or.
  destruct (Z.eqb_spec a 0); [lia|].
  rewrite (LedgerSpec.getUserCredits_row d uid b Hr Hu).
  destruct (Z.ltb_spec b a); [lia|].
  rewrite write_back_ok; try assumption; try reflexivity.
  - simpl. rewrite Hu. split; [reflexivity|]. split; [apply lookup_insert_eq|lia].
  - simpl. unfold int4 in *.
    apply andb_prop in Hint as [Hlo Hhi]. apply Z.leb_le in Hlo, Hhi.
    apply andb_true_intro. split; apply Z.leb_le; lia.
Qed.

Lemma debit_custom_amount_edges_witness :
  success (fst (deductCredits account1000 "u" chat None (Some (-50)) None)) = true /\
  users (snd (deductCredits account1000 "u" chat None (Some (-50)) None)) !! "u"%string =
    Some (1000 - -50).
Proof.
  destruct (proj2 (debit_custom_amount_edges account1000 "u" chat None None)
              (-50) 1000 ltac:(lia) eq_refl eq_refl ltac:(lia) eq_refl) as (H1 & H2 & _).
  split; [exact H1|exact H2].
Defined.

(** X11. Credits for an account that does not exist.  On a reachable
    database with no row for the user, [addCredits] and [setCredits] report
    a success with the amount as new balance and log a row for the user, but
    no balance is stored: the user's credits still read 0 and [users] is
    unchanged. *)
Theorem credit_to_missing_account (d : DB) (uid : string) (amt : Z) (descr : string) :
  reachable d = true -> users d !! uid = None -> int4 amt = true ->
  (success (fst (addCredits d uid amt descr)) = true /\
   newBalance (fst (addCredits d uid amt descr)) = amt /\
   users (snd (addCredits d uid amt descr)) = users d /\
   getUserCredits (snd (addCredits d uid amt descr)) uid = 0 /\
   creditTransactions (snd (addCredits d uid amt descr)) =
     creditTransactions d ++ [admin_row uid amt amt descr]) /\
  (success (fst (setCredits d uid amt descr)) = true /\
   newBalance (fst (setCredits d uid amt descr)) = amt /\
   users (snd (setCredits d uid amt descr)) = users d /\
   getUserCredits (snd (setCredits d uid amt descr)) uid = 0 /\
   creditTransactions (snd (setCredits d uid amt descr)) =
     creditTransactions d ++ [admin_row uid amt amt descr]).
Proof.
  intros Hr Hu Hint.
  assert (H0 : getUserCredits d uid = 0).
  { unfold getUserCredits, select_credits. rewrite Hr, Hu. reflexivity. }
  unfold addCredits, setCredits. rewrite H0. simpl. rewrite Z.sub_0_r.
  rewrite !write_back_ok by (try assumption; reflexivity).
  simpl. rewrite Hu.
  assert (H0' : forall rows,
             getUserCredits {| users := users d; creditTransactions := rows;
                               reachable := true |} uid = 0).
  { intros rows. unfold getUserCredits, select_credits. simpl. rewrite Hu. reflexivity. }
  rewrite !H0'. repeat split.
Qed.

Lemma credit_to_missing_account_witness :
  success (fst (addCredits account1000 "nobody" 500 "gift")) = true /\
  getUserCredits (snd (addCredits account1000 "nobody" 500 "gift")) "nobody" = 0.
Proof.
  destruct (proj1 (credit_to_missing_account account1000 "nobody" 500 "gift"
                     eq_refl eq_refl eq_refl)) as (H1 & _ & _ & H2 & _).
  split; [exact H1|exact H2].
Defined.

(** ** History *)

Lemma rows_of_app (uid : string) (xs ys : list CreditTransaction) :
  rows_of uid (xs ++ ys) = rows_of uid xs ++ rows_of uid ys.
Proof. unfold rows_of. apply List.filter_app. Qed.

Lemma getCreditHistory_reachable (d : DB) (uid : string) (limit : Z) :
  reachable d = true -> 0 <= limit ->
  getCreditHistory d uid limit =
    firstn (Z.to_nat limit) (rev (rows_of uid (creditTransactions d))).
Proof.
  intros Hr Hl. unfold getCreditHistory, select_history. rewrite Hr.
  destruct (Z.ltb_spec limit 0); [lia|reflexivity].
Qed.

Lemma in_firstn {A : Type} (x : A) (n : nat) (l : list A) : In x (firstn n l) -> In x l.
Proof.
  intros H. rewrite <- (firstn_skipn n l). apply in_or_app. left. exact H.
Qed.

(** An operation on an existing account that reports success has written the
    balance it reports and appended one row with it. *)
Lemma apply_op_success (d : DB) (o : Op) (b : Z) :
  users d !! op_user o = Some b ->
  success (fst (apply_op d o)) = true ->
  exists row,
    creditTransactions (snd (apply_op d o)) = creditTransactions d ++ [row] /\
    userId row = op_user o /\
    balanceAfter row = newBalance (fst (apply_op d o)) /\
    users (snd (apply_op d o)) !! op_user o = Some (balanceAfter row) /\
    reachable d = true /\ reachable (snd (apply_op d o)) = true.
Proof.
  intros Hu Hs.
  pose proof (LedgerSpec.succeeded_not_Failure d o Hs) as Hm.
  assert (Hstep : forall balance row ok,
             apply_op d o = write_back d (op_user o) balance row ok ->
             message ok <> Failure -> userId row = op_user o ->
             balanceAfter row = balance -> newBalance ok = balance ->
             exists row,
               creditTransactions (snd (apply_op d o)) = creditTransactions d ++ [row] /\
               userId row = op_user o /\
               balanceAfter row = newBalance (fst (apply_op d o)) /\
               users (snd (apply_op d o)) !! op_user o = Some (balanceAfter row) /\
               reachable d = true /\ reachable (snd (apply_op d o)) = true).
  { intros balance row ok E Hok Hrow Hbal Hnew.
    destruct (apply_op d o) as [r d'] eqn:Eo. simpl in *. symmetry in E.
    apply LedgerSpec.write_back_done in E as (-> & Hr & Hr' & Ht & Hl);
      [|assumption..].
    exists row. repeat split; try assumption; try congruence.
    rewrite Hl. destruct (decide (op_user o = op_user o)); [|congruence].
    rewrite Hu, Hbal. reflexivity. }
  destruct o as [u ct mid custom descr | u amt descr | u newAmount descr]; simpl in *.
  - unfold deductCredits in *.
    destruct (getUserCredits d u <? debit_amount ct custom); [discriminate Hs|].
    eapply Hstep; [reflexivity|discriminate|reflexivity..].
  - eapply Hstep; [reflexivity|discriminate|reflexivity..].
  - eapply Hstep; [reflexivity|discriminate|reflexivity..].
Qed.

Lemma getCreditHistory_basics (d : DB) (uid : string) (limit : Z) :
  (forall row, In row (getCreditHistory d uid limit) ->
               userId row = uid /\ In row (creditTransactions d)) /\
  (0 <= limit -> Z.of_nat (length (getCreditHistory d uid limit)) <= limit) /\
  (reachable d = false -> getCreditHistory d uid limit = []) /\
  (reachable d = true -> limit < 0 ->
   getCreditHistory d uid limit = rev (rows_of uid (creditTransactions d))).
Proof.
  split; [|split; [|split]].
  - intros row Hin. unfold getCreditHistory, select_history in Hin.
    destruct (reachable d); [|destruct Hin].
    assert (Hall : In row (rev (List.filter (fun row => String.eqb (userId row) uid)
                                            (creditTransactions d)))).
    { destruct (limit <? 0); [exact Hin|exact (in_firstn _ _ _ Hin)]. }
    apply in_rev, filter_In in Hall as [Hrow Hid].
    apply String.eqb_eq in Hid. auto.
  - intros Hl. unfold getCreditHistory, select_history.
    destruct (reachable d); [|simpl; lia].
    destruct (Z.ltb_spec limit 0); [lia|].
    pose proof (firstn_le_length (Z.to_nat limit)
                  (rev (List.filter (fun row => String.eqb (userId row) uid)
                                    (creditTransactions d)))) as Hlen.
    lia.
  - unfold getCreditHistory, select_history. intros ->. reflexivity.
  - unfold getCreditHistory, select_history. intros -> Hneg.
    destruct (Z.ltb_spec limit 0); [reflexivity|lia].
Qed.

(** X12. [getCreditHistory] returns rows of the user only, newest first: at
    most [limit] of them when the limit is not negative, every one of them
    when it is negative (no [LIMIT] is sent then), and none when the read
    fails.  After an operation that succeeds on an existing account, the
    history starts with the row of that operation, followed by the history
    as it was; that row carries the balance the operation reported, which is
    the balance now stored. *)
Theorem history_starts_with_last_operation (d : DB) (o : Op) (uid : string)
    (b limit : Z) :
  (forall row, In row (getCreditHistory d uid limit) ->
               userId row = uid /\ In row (creditTransactions d)) /\
  (0 <= limit -> Z.of_nat (length (getCreditHistory d uid limit)) <= limit) /\
  (reachable d = false -> getCreditHistory d uid limit = []) /\
  (reachable d = true -> limit < 0 ->
   getCreditHistory d uid limit = rev (rows_of uid (creditTransactions d))) /\
  (users d !! uid = Some b -> op_user o = uid ->
   success (fst (apply_op d o)) = true -> 1 <= limit ->
   exists row,
     getCreditHistory (snd (apply_op d o)) uid limit =
       row :: getCreditHistory d uid (limit - 1) /\
     userId row = uid /\
     balanceAfter row = newBalance (fst (apply_op d o)) /\
     getUserCredits (snd (apply_op d o)) uid = balanceAfter row).
Proof.
  destruct (getCreditHistory_basics d uid limit) as (H1 & H2 & H3 & H4).
  split; [exact H1|]. split; [exact H2|]. split; [exact H3|]. split; [exact H4|].
  intros Hu Huser Hs Hlimit. subst uid.
  destruct (apply_op_success d o b Hu Hs) as (row & Ht & Hrow & Hbal & Hl & Hr & Hr').
  exists row.
  rewrite (getCreditHistory_reachable _ _ limit Hr') by lia.
  rewrite (getCreditHistory_reachable _ _ (limit - 1) Hr) by lia.
  rewrite Ht, rows_of_app, rev_app_distr.
  unfold rows_of at 1. simpl. rewrite Hrow, String.eqb_refl. simpl.
  replace (Z.to_nat limit) with (S (Z.to_nat (limit - 1))) by lia. simpl.
  repeat split; try assumption.
  apply (LedgerSpec.getUserCredits_row _ _ _ Hr' Hl).
Qed.

Lemma history_starts_with_last_operation_witness :
  getCreditHistory (snd (run account1000 sample_ops)) "u" (-1) =
    rev (rows_of "u" (creditTransactions (snd (run account1000 sample_ops)))) /\
  length (getCreditHistory (snd (run account1000 sample_ops)) "u" (-1)) = 4%nat /\
  length (getCreditHistory (snd (run account1000 sample_ops)) "u" 2) = 2%nat /\
  exists row,
    getCreditHistory (snd (apply_op account1000 (Credit "u" 50 "gift"))) "u" 20 =
      row :: getCreditHistory account1000 "u" (20 - 1) /\
    balanceAfter row = 1050.
Proof.
  split;
    [exact (proj1 (proj2 (proj2 (proj2
              (history_starts_with_last_operation (snd (run account1000 sample_ops))
                 (Credit "u" 50 "gift") "u" 0 (-1))))) eq_refl ltac:(lia))|].
  split; [vm_compute; reflexivity|]. split; [vm_compute; reflexivity|].
  destruct (proj2 (proj2 (proj2 (proj2
              (history_starts_with_last_operation account1000 (Credit "u" 50 "gift")
                 "u" 1000 20)))) eq_refl eq_refl eq_refl ltac:(lia))
    as (row & Hh & _ & Hb & _).
  exists row. split; [exact Hh|exact Hb].
Defined.

(** ** Analytics *)








(** ** The most used feature *)

Lemma TxType_eqb_spec (a b : TxType) : reflect (a = b) (TxType_eqb a b).
Proof.
  destruct a as [x|], b as [y|]; simpl; try (constructor; congruence).
  destruct x, y; simpl; constructor; congruence.
Qed.

Lemma debits_of_app (t : TxType) (xs ys : list CreditTransaction) :
  debits_of t (xs ++ ys) = debits_of t xs + debits_of t ys.
Proof.
  unfold debits_of. rewrite List.filter_app, length_app. lia.
Qed.

(** What [bump] does to the entries, when no type is listed twice. *)
Lemma bump_entries (t : TxType) (counts : list (TxType * Z)) :
  List.NoDup (map fst counts) ->
  List.NoDup (map fst (bump t counts)) /\
  (forall u m, In (u, m) (bump t counts) ->
               (u <> t /\ In (u, m) counts) \/
               (u = t /\ ((exists n, In (t, n) counts /\ m = n + 1) \/
                          (~ In t (map fst counts) /\ m = 1)))) /\
  (forall u m, u <> t -> In (u, m) counts -> In (u, m) (bump t counts)) /\
  (exists m, In (t, m) (bump t counts)).
Proof.
  induction counts as [|[v n] rest IH]; simpl; intros Hnd.
  - split; [apply List.NoDup_cons_iff; split; [simpl; tauto|apply List.NoDup_nil]|].
    split; [|split; [tauto|eauto]].
    intros u m [[= <- <-] | []]. right. split; [reflexivity|]. right. tauto.
  - apply List.NoDup_cons_iff in Hnd as [Hfresh Hrest]. simpl in Hfresh.
    destruct (TxType_eqb_spec v t) as [->|Hne]; simpl.
    + split; [apply List.NoDup_cons_iff; split; assumption|].
      split; [|split; [|eauto]].
      * intros u m [[= <- <-] | Hin].
        -- right. split; [reflexivity|]. left. exists n. split; [auto|].
           unfold js_or. destruct (Z.eqb_spec n 0); lia.
        -- left. split; [|auto]. intros ->. apply Hfresh.
           apply in_map_iff. exists (t, m). auto.
      * intros u m Hu [[= -> ->] | Hin]; [contradiction|auto].
    + destruct (IH Hrest) as (Hnd' & Hin' & Hkeep & Hnew).
      split; [|split; [|split]].
      * apply List.NoDup_cons_iff. split; [|exact Hnd'].
        intros Hv. apply in_map_iff in Hv as ([v' m'] & Ev & Hv). simpl in Ev. subst v'.
        destruct (Hin' v m' Hv) as [[_ H] | [E _]]; [|congruence].
        apply Hfresh. apply in_map_iff. exists (v, m'). auto.
      * intros u m [[= <- <-] | Hin]; [left; auto|].
        destruct (Hin' u m Hin) as [[Hu H] | [-> [(k & Hk & ->) | [Hno ->]]]].
        -- left. auto.
        -- right. split; [reflexivity|]. left. exists k. auto.
        -- right. split; [reflexivity|]. right. split; [|reflexivity].
           intros [E | H]; [congruence|contradiction].
      * intros u m Hu [[= -> ->] | Hin]; [left; reflexivity|right; auto].
      * destruct Hnew as [m Hm]. exists m. right. exact Hm.
Qed.

(** The entries of [featureCount] are the types that have debits, each
    once, with the number of its debits. *)
Lemma featureCount_entries (rows : list CreditTransaction) :
  forall (counts : list (TxType * Z)) (seen : list CreditTransaction),
    List.NoDup (map fst counts) ->
    (forall u m, In (u, m) counts -> m = debits_of u seen /\ 0 < m) ->
    (forall u, 0 < debits_of u seen -> exists m, In (u, m) counts) ->
    let final :=
      fold_left (fun acc row => if amount row <? 0 then bump (type row) acc else acc)
                rows counts in
    List.NoDup (map fst final) /\
    (forall u m, In (u, m) final -> m = debits_of u (seen ++ rows) /\ 0 < m) /\
    (forall u, 0 < debits_of u (seen ++ rows) -> exists m, In (u, m) final).
Proof.
  induction rows as [|row rows IH]; intros counts seen Hnd Hcount Hall; simpl.
  - rewrite app_nil_r. auto.
  - replace (seen ++ row :: rows) with ((seen ++ [row]) ++ rows)
      by (rewrite <- app_assoc; reflexivity).
    assert (Hone : forall u, debits_of u (seen ++ [row]) =
                             debits_of u seen +
                             (if (amount row <? 0) && TxType_eqb (type row) u
                              then 1 else 0)).
    { intros u. rewrite debits_of_app. unfold debits_of at 2. simpl.
      destruct ((amount row <? 0) && TxType_eqb (type row) u); reflexivity. }
    destruct (amount row <? 0) eqn:Eneg; simpl in Hone.
    + destruct (bump_entries (type row) counts Hnd) as (Hnd' & Hin' & Hkeep & Hnew).
      apply IH; [exact Hnd'| |].
      * intros u m Hin. rewrite Hone.
        destruct (Hin' u m Hin) as [[Hu H] | [-> [(k & Hk & ->) | [Hno ->]]]].
        -- destruct (TxType_eqb_spec (type row) u); [congruence|].
           destruct (Hcount u m H). lia.
        -- destruct (TxType_eqb_spec (type row) (type row)); [|congruence].
           destruct (Hcount _ k Hk). lia.
        -- destruct (TxType_eqb_spec (type row) (type row)); [|congruence].
           assert (Hz : ~ 0 < debits_of (type row) seen).
           { intros Hpos. destruct (Hall _ Hpos) as [m Hm]. apply Hno.
             apply in_map_iff. exists (type row, m). auto. }
           unfold debits_of in *. lia.
      * intros u Hpos. rewrite Hone in Hpos.
        destruct (TxType_eqb_spec (type row) u) as [E|Hne].
        { rewrite <- E. exact Hnew. }
        destruct (Hall u ltac:(lia)) as [m Hm]. exists m. apply Hkeep; [congruence|exact Hm].
    + apply IH; [exact Hnd| |].
      * intros u m Hin. rewrite Hone, Z.add_0_r. apply Hcount, Hin.
      * intros u Hpos. rewrite Hone, Z.add_0_r in Hpos. apply Hall, Hpos.
Qed.

Lemma filter_all {A : Type} (l : list A) : List.filter (fun _ => true) l = l.
Proof. induction l as [|x l IH]; simpl; [reflexivity|]. rewrite IH. reflexivity. Qed.

(** X14. [getMostUsedFeature] answers "no activity" exactly when the rows
    hold no debit (no negative amount), never its "undetermined" text, and
    otherwise a transaction type that has at least one debit and at least as
    many debits as every other type (a negative administrative adjustment
    counts as a debit of type [admin_adjustment]). *)
Theorem most_used_feature_has_most_debits (transactions : list CreditTransaction) :
  (getMostUsedFeature transactions = NoActivity <->
   forall row, In row transactions -> 0 <= amount row) /\
  getMostUsedFeature transactions <> Undetermined /\
  (forall t, getMostUsedFeature transactions = Top t ->
             0 < debits_of t transactions /\
             forall u, debits_of u transactions <= debits_of t transactions).
Proof.
  destruct (featureCount_entries transactions [] [] (List.NoDup_nil _)
              ltac:(intros u m [])
              ltac:(intros u H; unfold debits_of in H; simpl in H; lia))
    as (Hnd & Hcount & Hall).
  simpl in Hcount, Hall. fold (featureCount transactions) in *.
  unfold getMostUsedFeature.
  assert (Hdebit : forall row, In row transactions -> amount row < 0 ->
                               0 < debits_of (type row) transactions).
  { intros row Hin Hneg. unfold debits_of.
    assert (Hf : In row (List.filter
                           (fun r => (amount r <? 0) && TxType_eqb (type r) (type row))
                           transactions)).
    { apply filter_In. split; [exact Hin|]. apply andb_true_intro. split.
      - apply Z.ltb_lt, Hneg.
      - destruct (TxType_eqb_spec (type row) (type row)); congruence. }
    destruct (List.filter _ transactions); [destruct Hf|simpl; lia]. }
  destruct (featureCount transactions) as [|e entries] eqn:Ef.
  - split; [|split; [discriminate|discriminate]].
    split; [|reflexivity]. intros _ row Hin.
    destruct (Z.leb_spec 0 (amount row)) as [|Hneg]; [assumption|].
    destruct (Hall _ (Hdebit row Hin Hneg)) as [m []].
  - destruct (sort_by (fun entry => - snd entry) (e :: entries)) as [|[t n] sorted] eqn:Es.
    { apply PoolSpec.sort_by_nil in Es. discriminate Es. }
    assert (Hhead : head (sort_by (fun entry : TxType * Z => - snd entry)
                            (List.filter (fun _ => true) (e :: entries))) = Some (t, n))
      by (rewrite filter_all, Es; reflexivity).
    apply PoolSpec.sort_filter_head in Hhead as (before & after & Hsplit & _ & Hb & Ha).
    assert (Hmax : forall u m, In (u, m) (e :: entries) -> m <= n).
    { intros u m Hin. rewrite Hsplit in Hin.
      apply in_app_iff in Hin as [Hin | [[= <- <-] | Hin]].
      - specialize (Hb _ Hin eq_refl). simpl in Hb. lia.
      - lia.
      - specialize (Ha _ Hin eq_refl). simpl in Ha. lia. }
    assert (Ht : In (t, n) (e :: entries))
      by (rewrite Hsplit; apply in_or_app; right; left; reflexivity).
    destruct (Hcount t n Ht) as [Hn Hpos].
    split; [|split; [discriminate|]].
    + split; [discriminate|]. intros Hnone. exfalso.
      unfold debits_of in Hn.
      destruct (List.filter (fun row => (amount row <? 0) && TxType_eqb (type row) t)
                            transactions) as [|row l] eqn:Efl; [simpl in Hn; lia|].
      assert (Hrow : In row (row :: l)) by (left; reflexivity).
      rewrite <- Efl in Hrow. apply filter_In in Hrow as [Hin Hc].
      apply andb_prop in Hc as [Hneg _]. apply Z.ltb_lt in Hneg.
      specialize (Hnone row Hin). lia.
    + intros t' [= <-]. split; [lia|]. intros u.
      destruct (Z.ltb_spec 0 (debits_of u transactions)) as [Hu|Hu]; [|lia].
      destruct (Hall u Hu) as [m Hm]. destruct (Hcount u m Hm) as [-> _].
      rewrite <- Hn. apply (Hmax u _ Hm).
Qed.

End LedgerExtra.

(* ===================================================================== *)
(** * Further properties of the provider pool *)
(* ===================================================================== *)

Module PoolExtra.
Import Pool.

(** ** The status summary *)

Lemma count_statuses (l : list GeminiAPIConfig) :
  count_status active l + count_status failed l + count_status quota_exceeded l +
  count_status disabled l = Z.of_nat (length l).
Proof.
  unfold count_status. induction l as [|api l IH]; simpl; [reflexivity|].
  destruct (status api); simpl; lia.
Qed.

Lemma count_status_zero (st : Status) (l : list GeminiAPIConfig) :
  count_status st l = 0 <-> forall api, In api l -> status api <> st.
Proof.
  unfold count_status. split.
  - intros H api Hin Hst.
    assert (Hf : In api (List.filter (fun a => status_eqb (status a) st) l)).
    { apply filter_In. split; [exact Hin|]. apply PoolSpec.status_eqb_eq, Hst. }
    destruct (List.filter _ l); [destruct Hf|simpl in H; lia].
  - intros H.
    destruct (List.filter (fun a => status_eqb (status a) st) l) as [|api l'] eqn:E;
      [reflexivity|].
    assert (Hf : In api (api :: l')) by (left; reflexivity).
    rewrite <- E in Hf. apply filter_In in Hf as [Hin Hst].
    apply PoolSpec.status_eqb_eq in Hst. exfalso. exact (H api Hin Hst).
Qed.

(** X15. The counts of [getStatusSummary] partition the registry: active,
    failed and quota-exceeded credentials plus the disabled ones make the
    total.  There is one warning per credential whose request counter is
    above 1000, in registry order, and [getQuotaWarningMessage] is [null]
    exactly when no credential is quota-exceeded and none is above 1000
    requests; otherwise its text has the line on exhausted credentials if
    and only if there is one, and the recommendation if and only if there is
    a warning. *)
Theorem status_summary_partitions_registry (m : Manager) :
  activeAPIs (getStatusSummary m) + failedAPIs (getStatusSummary m) +
    quotaExceededAPIs (getStatusSummary m) + count_status disabled (apis m) =
    totalAPIs (getStatusSummary m) /\
  map warning_usage (quotaWarnings (getStatusSummary m)) =
    List.filter (fun n => 1000 <? n) (map (fun api => requests (quotaUsage api)) (apis m)) /\
  (getQuotaWarningMessage m = None <->
   forall api, In api (apis m) ->
               status api <> quota_exceeded /\ requests (quotaUsage api) <= 1000) /\
  (forall text, getQuotaWarningMessage m = Some text ->
     (exhausted_line text = None <->
      forall api, In api (apis m) -> status api <> quota_exceeded) /\
     (recommendation text = false <->
      forall api, In api (apis m) -> requests (quotaUsage api) <= 1000) /\
     consumer_lines text = quotaWarnings (getStatusSummary m)).
Proof.
  assert (Hwarn : forall l : list GeminiAPIConfig,
             (0 <? Z.of_nat (length (List.filter
                                       (fun api => 1000 <? requests (quotaUsage api)) l)))
             = false <->
             forall api, In api l -> requests (quotaUsage api) <= 1000).
  { intros l. rewrite Z.ltb_ge. split.
    - intros H api Hin. destruct (Z.leb_spec (requests (quotaUsage api)) 1000); [assumption|].
      assert (Hf : In api (List.filter (fun a => 1000 <? requests (quotaUsage a)) l)).
      { apply filter_In. split; [exact Hin|]. apply Z.ltb_lt. assumption. }
      destruct (List.filter _ l); [destruct Hf|simpl in H; lia].
    - intros H.
      destruct (List.filter (fun a => 1000 <? requests (quotaUsage a)) l) as [|api l'] eqn:E;
        [simpl; lia|].
      assert (Hf : In api (api :: l')) by (left; reflexivity).
      rewrite <- E in Hf. apply filter_In in Hf as [Hin Hover].
      apply Z.ltb_lt in Hover. specialize (H api Hin). lia. }
  assert (Hquota : (0 <? count_status quota_exceeded (apis m)) = false <->
                   forall api, In api (apis m) -> status api <> quota_exceeded).
  { rewrite <- count_status_zero. rewrite Z.ltb_ge. unfold count_status. lia. }
  split; [apply count_statuses|]. split; [|split].
  - simpl. rewrite map_map. simpl. clear Hquota.
    induction (apis m) as [|api l IH]; simpl; [reflexivity|].
    destruct (1000 <? requests (quotaUsage api)); simpl; rewrite IH; reflexivity.
  - unfold getQuotaWarningMessage. cbn [quotaExceededAPIs quotaWarnings getStatusSummary].
    rewrite length_map.
    pose proof (Hwarn (apis m)) as Hw.
    destruct (0 <? count_status quota_exceeded (apis m));
      destruct (0 <? Z.of_nat (length (List.filter
                  (fun api => 1000 <? requests (quotaUsage api)) (apis m))));
      simpl; split; intros H; try discriminate H; try reflexivity.
    + exfalso. assert (Hno : true = false); [|discriminate Hno].
      apply Hquota. intros api Hin. apply H, Hin.
    + exfalso. assert (Hno : true = false); [|discriminate Hno].
      apply Hquota. intros api Hin. apply H, Hin.
    + exfalso. assert (Hno : true = false); [|discriminate Hno].
      apply Hw. intros api Hin. apply H, Hin.
    + intros api Hin. split; [apply (proj1 Hquota eq_refl), Hin|apply (proj1 Hw eq_refl), Hin].
  - intros text. unfold getQuotaWarningMessage.
    cbn [quotaExceededAPIs quotaWarnings getStatusSummary totalAPIs].
    rewrite length_map.
    destruct ((0 <? count_status quota_exceeded (apis m)) || _); [|discriminate].
    intros [= <-]. cbn [exhausted_line recommendation consumer_lines].
    split; [|split; [apply Hwarn|reflexivity]].
    rewrite <- Hquota.
    destruct (0 <? count_status quota_exceeded (apis m)); split; congruence.
Qed.

(** X16. [getHeaviestFeature] weighs the credential's total counters with
    each feature's rates, not the use each feature made of it.  With
    non-negative counters small enough for its sums to be exact (the
    heaviest of them within 2^53), its answer is decided by the totals of
    tokens, images and videos alone: video analysis when images are fewer than 100
    times the tokens plus the videos, else image generation when there are
    tokens or images at all, else chat.  It is never web scraping, deep
    search or learning, and a credential without images that has just served
    a chat request is reported under video analysis. *)
Theorem heaviest_feature_by_totals (api : GeminiAPIConfig) :
  0 <= requests (quotaUsage api) -> 0 <= tokens (quotaUsage api) ->
  0 <= images (quotaUsage api) -> 0 <= videos (quotaUsage api) ->
  within_doubles (quotaUsage api) ->
  getHeaviestFeature api =
    (if images (quotaUsage api) <? 100 * tokens (quotaUsage api) + videos (quotaUsage api)
     then videoAnalysis
     else if 0 <? tokens (quotaUsage api) + images (quotaUsage api)
          then imageGeneration else chat) /\
  getHeaviestFeature api <> webScraping /\
  getHeaviestFeature api <> deepSearch /\
  getHeaviestFeature api <> learning /\
  (forall now, images (quotaUsage api) = 0 ->
               within_doubles (quotaUsage (count_use chat now api)) ->
               getHeaviestFeature (count_use chat now api) = videoAnalysis).
Proof.
  intros Hr Ht Hi Hv _.
  assert (Hchar : forall a : GeminiAPIConfig,
             0 <= requests (quotaUsage a) -> 0 <= tokens (quotaUsage a) ->
             0 <= images (quotaUsage a) -> 0 <= videos (quotaUsage a) ->
             getHeaviestFeature a =
               (if images (quotaUsage a) <? 100 * tokens (quotaUsage a) + videos (quotaUsage a)
                then videoAnalysis
                else if 0 <? tokens (quotaUsage a) + images (quotaUsage a)
                     then imageGeneration else chat)).
  { clear. intros a Hr Ht Hi Hv.
    unfold getHeaviestFeature, features, feature_cost.
    destruct (quotaUsage a) as [r t i v reset].
    cbn [fold_left QUOTA_RATES rate_requests rate_tokens rate_images rate_videos
         requests tokens images videos] in *.
    repeat match goal with
           | |- context [?x <? ?y] =>
               lazymatch x with context [Z.ltb] => fail | _ => idtac end;
               destruct (Z.ltb_spec x y); cbn [fst snd] in *
           end; try reflexivity; lia. }
  rewrite (Hchar api Hr Ht Hi Hv).
  split; [reflexivity|].
  split; [destruct (_ <? _); [discriminate|destruct (_ <? _); discriminate]|].
  split; [destruct (_ <? _); [discriminate|destruct (_ <? _); discriminate]|].
  split; [destruct (_ <? _); [discriminate|destruct (_ <? _); discriminate]|].
  intros now Hzero _.
  rewrite Hchar by (simpl; lia). simpl. rewrite Hzero.
  destruct (Z.ltb_spec 0 (100 * (tokens (quotaUsage api) + 100) + videos (quotaUsage api)));
    [reflexivity|lia].
Qed.

Lemma heaviest_feature_by_totals_witness :
  within_doubles (quotaUsage (count_use chat 0 (fresh_config "primary" "AIzaPrimary" 1))) /\
  getHeaviestFeature (count_use chat 0 (fresh_config "primary" "AIzaPrimary" 1)) =
    videoAnalysis.
Proof.
  assert (Hsafe : within_doubles
                    (quotaUsage (count_use chat 0 (fresh_config "primary" "AIzaPrimary" 1))))
    by (unfold within_doubles; simpl; lia).
  split; [exact Hsafe|].
  exact (proj1 (heaviest_feature_by_totals
                  (count_use chat 0 (fresh_config "primary" "AIzaPrimary" 1))
                  ltac:(simpl; lia) ltac:(simpl; lia) ltac:(simpl; lia) ltac:(simpl; lia)
                  Hsafe)).
Defined.

(** X17. The credit price of every feature is the token weight of its quota
    rate, as the comment on [CREDIT_COSTS] says, and every feature weighs
    one request. *)
Theorem credit_costs_match_quota_rates (feature : FeatureType) :
  Ledger.CREDIT_COSTS (credit_type feature) = rate_tokens (QUOTA_RATES feature) /\
  rate_requests (QUOTA_RATES feature) = 1.
Proof. destruct feature; split; reflexivity. Qed.

(** ** Failed and disabled credentials *)

Lemma handleAPIFailure_inactive (m : Manager) (a : string) (error : Thrown) (now : Z) :
  inactive a (apis (handleAPIFailure a error now m)).
Proof.
  unfold handleAPIFailure.
  destruct (apis_get a (apis m)) as [api|] eqn:Hget; simpl.
  - intros api' Hin Hid. apply PoolSpec.in_apis_update in Hin as (y & Hy & ->).
    destruct (String.eqb_spec (api_id y) a) as [E|E]; [|contradiction].
    destruct (indicates_quota _); simpl; discriminate.
  - intros api Hin Hid. exfalso. exact (PoolSpec.apis_get_None a _ Hget api Hin Hid).
Qed.

Lemma instant_keeps_inactive (a : string) (w : World) (e : Event) :
  instant e ->
  inactive a (apis (manager w)) /\ (forall t b, In (t, b) (handed w) -> b <> a) ->
  inactive a (apis (manager (happen w e))) /\
  (forall t b, In (t, b) (handed (happen w e)) -> b <> a).
Proof.
  intros Hinst [Hin Hlog]. destruct e as [b error | feature | ms]; simpl in *.
  - split; [|exact Hlog]. destruct (String.eqb_spec b a) as [->|Hne].
    + apply handleAPIFailure_inactive.
    + unfold handleAPIFailure. destruct (apis_get b _); simpl; [|exact Hin].
      apply PoolSpec.inactive_update_other; [assumption|reflexivity|assumption].
  - destruct (PoolSpec.getBestAPI_facts a feature (clock w) (manager w))
      as (_ & Hkeep & Hbest).
    destruct (getBestAPI feature (clock w) (manager w)) as [best m']. simpl in *.
    split; [apply Hkeep, Hin|].
    intros t b Hh. destruct best as [config|]; [|eauto].
    destruct Hh as [[= <- <-] | Hh]; [|eauto].
    destruct (Hbest config eq_refl) as (api & Hapi & Hst & ->).
    intros Hb. exact (Hin api Hapi Hb Hst).
  - contradiction.
Qed.

(** X18. Failover: once [handleAPIFailure] was called for a credential,
    [getBestAPI] does not hand it out, whatever the error, the pending
    timers and the credentials registered, for as long as no time passes:
    neither the next call nor any later one in a run of further reports and
    acquisitions returns it. *)
Theorem failed_credential_not_handed_out_at_once (m : Manager) (a : string)
    (error : Thrown) (now : Z) (feature : FeatureType) (events : list Event) :
  (forall config,
     fst (getBestAPI feature now (handleAPIFailure a error now m)) = Some config ->
     api_id config <> a) /\
  (Forall instant events ->
   forall t b,
     In (t, b) (handed (history events
                          {| clock := now; manager := handleAPIFailure a error now m;
                             handed := [] |})) ->
     b <> a).
Proof.
  split.
  - intros config Hbest.
    destruct (PoolSpec.getBestAPI_facts a feature now (handleAPIFailure a error now m))
      as (_ & _ & Hfacts).
    destruct (Hfacts config Hbest) as (api & Hin & Hst & ->).
    intros Hid. exact (handleAPIFailure_inactive m a error now api Hin Hid Hst).
  - intros Hall.
    assert (H : forall w,
               inactive a (apis (manager w)) /\
               (forall t b, In (t, b) (handed w) -> b <> a) ->
               inactive a (apis (manager (history events w))) /\
               (forall t b, In (t, b) (handed (history events w)) -> b <> a)).
    { induction events as [|e events IH]; intros w Hw; simpl; [exact Hw|].
      apply Forall_cons_iff in Hall as [He Hall].
      apply (IH Hall), instant_keeps_inactive; assumption. }
    apply H. simpl. split; [apply handleAPIFailure_inactive|intros t b []].
Qed.

Lemma failed_credential_not_handed_out_at_once_witness :
  Forall instant [Acquire chat; Report "api_2" (ErrorObject "fetch failed"); Acquire chat] /\
  ~ In (0, "primary"%string)
       (handed (history [Acquire chat; Report "api_2" (ErrorObject "fetch failed");
                         Acquire chat]
                  {| clock := 0;
                     manager := handleAPIFailure "primary" (ErrorObject "fetch failed") 0
                                                 two_keys;
                     handed := [] |})).
Proof.
  assert (Hall : Forall instant
                   [Acquire chat; Report "api_2" (ErrorObject "fetch failed"); Acquire chat])
    by (repeat constructor).
  split; [exact Hall|].
  intros Hin.
  exact (proj2 (failed_credential_not_handed_out_at_once two_keys "primary"
                  (ErrorObject "fetch failed") 0 chat
                  [Acquire chat; Report "api_2" (ErrorObject "fetch failed"); Acquire chat])
               Hall 0 "primary"%string Hin eq_refl).
Defined.

Lemma switched_off_update (a b : string) (f : GeminiAPIConfig -> GeminiAPIConfig)
    (l : list GeminiAPIConfig) :
  (forall y, api_id (f y) = api_id y) ->
  (b = a -> forall y, status y = disabled -> status (f y) = disabled) ->
  switched_off a l -> switched_off a (apis_update b f l).
Proof.
  intros Hf Hs Hl api Hin Hid.
  apply PoolSpec.in_apis_update in Hin as (y & Hy & ->).
  destruct (String.eqb_spec (api_id y) b) as [E|_].
  - rewrite Hf in Hid. apply Hs; [congruence|]. apply Hl; assumption.
  - apply Hl; assumption.
Qed.

Lemma reactivate_disabled (expected : Status) (api : GeminiAPIConfig) :
  expected <> disabled -> status api = disabled ->
  status (reactivate expected api) = disabled.
Proof.
  intros Hne Hst. unfold reactivate. rewrite Hst.
  destruct expected; simpl; try assumption. contradiction.
Qed.

Lemma fire_all_switched_off (a : string) (ts : list Timer) :
  (forall t, In t ts -> expects t <> disabled) ->
  forall m, switched_off a (apis m) ->
            switched_off a (apis (fold_left (fun acc t => fire t acc) ts m)) /\
            timers (fold_left (fun acc t => fire t acc) ts m) = timers m.
Proof.
  induction ts as [|t ts IH]; intros Hts m Hm; simpl; [auto|].
  destruct (IH (fun t' Ht' => Hts t' (or_intror Ht')) (fire t m)) as [Hi Ht].
  - unfold fire. simpl. apply switched_off_update; [apply PoolSpec.reactivate_id| |assumption].
    intros _ y. apply reactivate_disabled, Hts. left. reflexivity.
  - split; [exact Hi|]. rewrite Ht. reflexivity.
Qed.

Lemma getBestAPI_switched_off (a : string) (feature : FeatureType) (now : Z) (m : Manager) :
  switched_off a (apis m) -> switched_off a (apis (snd (getBestAPI feature now m))).
Proof.
  unfold getBestAPI.
  destruct (PoolSpec.keep_available_frame now (apis m) m) as (Ha & _ & _).
  destruct (keep_available now (apis m) m) as [kept m1]. simpl in *.
  destruct (find _ (sort_by priority kept)) as [api|]; simpl; [|rewrite Ha; auto].
  intros Hoff. unfold trackUsage.
  destruct (apis_get (api_id api) (apis m1)); simpl; [|rewrite Ha; exact Hoff].
  rewrite Ha. apply switched_off_update; [reflexivity| |exact Hoff].
  intros _ y Hy. exact Hy.
Qed.

Lemma switched_off_inactive (a : string) (l : list GeminiAPIConfig) :
  switched_off a l -> inactive a l.
Proof. intros H api Hin Hid. rewrite (H api Hin Hid). discriminate. Qed.

Lemma updateAPIStatus_switched_off (a : string) (m : Manager) :
  switched_off a (apis (updateAPIStatus a disabled m)).
Proof.
  intros api Hin Hid. simpl in Hin.
  apply PoolSpec.in_apis_update in Hin as (y & Hy & ->).
  destruct (String.eqb_spec (api_id y) a) as [E|E]; [reflexivity|].
  contradiction.
Qed.

(** X19. A credential switched off with [updateAPIStatus] stays off: the
    reactivation timers of its earlier failures find a status they do not
    expect and leave it, so however much time passes, and whatever is
    reported about other credentials, it remains disabled and [getBestAPI]
    never hands it out, as long as no failure of it is reported. *)
Theorem disabled_credential_stays_out (m : Manager) (a : string) (now : Z)
    (events : list Event) :
  (forall t, In t (timers m) -> expects t <> disabled) ->
  Forall (spares a) events ->
  switched_off a (apis (manager (history events
     {| clock := now; manager := updateAPIStatus a disabled m; handed := [] |}))) /\
  (forall t b,
     In (t, b) (handed (history events
        {| clock := now; manager := updateAPIStatus a disabled m; handed := [] |})) ->
     b <> a).
Proof.
  intros Htimers Hall.
  assert (H : forall w,
             switched_off a (apis (manager w)) /\
             (forall t, In t (timers (manager w)) -> expects t <> disabled) /\
             (forall t b, In (t, b) (handed w) -> b <> a) ->
             switched_off a (apis (manager (history events w))) /\
             (forall t, In t (timers (manager (history events w))) -> expects t <> disabled) /\
             (forall t b, In (t, b) (handed (history events w)) -> b <> a)).
  { induction events as [|e events IH]; intros w Hw; simpl; [exact Hw|].
    apply Forall_cons_iff in Hall as [He Hall]. apply (IH Hall). clear IH Hall.
    destruct Hw as (Hoff & Hexp & Hlog).
    destruct e as [b error | feature | ms]; simpl in *.
    - unfold handleAPIFailure. destruct (apis_get b _); simpl; [|auto].
      split; [|split; [|exact Hlog]].
      + apply switched_off_update; [reflexivity|congruence|assumption].
      + intros t Hin. apply in_app_iff in Hin as [Hin | [<- | []]]; [auto|].
        simpl. destruct (indicates_quota _); discriminate.
    - pose proof (getBestAPI_switched_off a feature (clock w) (manager w) Hoff) as Hoff'.
      destruct (PoolSpec.getBestAPI_facts a feature (clock w) (manager w))
        as (Ht & _ & Hbest).
      destruct (getBestAPI feature (clock w) (manager w)) as [best m']. simpl in *.
      split; [exact Hoff'|]. split; [rewrite Ht; exact Hexp|].
      intros t b Hh. destruct best as [config|]; [|eauto].
      destruct Hh as [[= <- <-] | Hh]; [|eauto].
      destruct (Hbest config eq_refl) as (api & Hapi & Hst & ->).
      intros Hb. rewrite (Hoff api Hapi Hb) in Hst. discriminate.
    - unfold elapse.
      destruct (fire_all_switched_off a
                  (sort_by due (List.filter (fun t => due t <=? clock w + Z.of_N ms)
                                            (timers (manager w))))) with
        (m := {| apis := apis (manager w); clients := clients (manager w);
                 rateLimitTracker := rateLimitTracker (manager w);
                 timers := List.filter (fun t => negb (due t <=? clock w + Z.of_N ms))
                                       (timers (manager w)) |}) as [Hoff' Ht'].
      + intros t Hin. apply PoolSpec.in_sort_by, filter_In in Hin as [Hin _]. auto.
      + exact Hoff.
      + split; [exact Hoff'|]. split; [|exact Hlog].
        rewrite Ht'. simpl. intros t Hin. apply filter_In in Hin as [Hin _]. auto. }
  destruct (H {| clock := now; manager := updateAPIStatus a disabled m; handed := [] |})
    as (Hoff & _ & Hlog).
  - simpl. split; [apply updateAPIStatus_switched_off|]. split; [exact Htimers|].
    intros t b [].
  - split; assumption.
Qed.

Lemma disabled_credential_stays_out_witness :
  Forall (spares "primary") [Wait 3600000; Acquire chat] /\
  switched_off "primary"
    (apis (manager (history [Wait 3600000; Acquire chat]
       {| clock := 0;
          manager := updateAPIStatus "primary" disabled
                       (handleAPIFailure "primary" (ErrorObject "fetch failed") 0 two_keys);
          handed := [] |}))).
Proof.
  assert (Ht : forall t,
             In t (timers (handleAPIFailure "primary" (ErrorObject "fetch failed") 0
                             two_keys)) ->
             expects t <> disabled).
  { intros t [<- | []]. vm_compute. discriminate. }
  assert (Hs : Forall (spares "primary") [Wait 3600000; Acquire chat])
    by (repeat constructor).
  split; [exact Hs|].
  exact (proj1 (disabled_credential_stays_out
                  (handleAPIFailure "primary" (ErrorObject "fetch failed") 0 two_keys)
                  "primary" 0 [Wait 3600000; Acquire chat] Ht Hs)).
Defined.

(** ** The rate ceiling over a run *)

Lemma apis_get_apis_update (x b : string) (f : GeminiAPIConfig -> GeminiAPIConfig)
    (l : list GeminiAPIConfig) :
  (forall y, api_id (f y) = api_id y) ->
  apis_get x (apis_update b f l) =
    option_map (fun y => if String.eqb (api_id y) b then f y else y) (apis_get x l).
Proof.
  intros Hf. unfold apis_get, apis_update.
  induction l as [|a l IH]; simpl; [reflexivity|].
  assert (E : api_id (if String.eqb (api_id a) b then f a else a) = api_id a)
    by (destruct (String.eqb (api_id a) b); [apply Hf|reflexivity]).
  rewrite E. destruct (String.eqb (api_id a) x); [reflexivity|exact IH].
Qed.

Lemma ceiling_update (x b : string) (f : GeminiAPIConfig -> GeminiAPIConfig)
    (m m' : Manager) :
  (forall y, api_id (f y) = api_id y) ->
  (forall y, maxRequestsPerMinute (f y) = maxRequestsPerMinute y) ->
  apis m' = apis_update b f (apis m) ->
  ceiling x m' = ceiling x m.
Proof.
  intros Hf Hmax Ha. unfold ceiling. rewrite Ha, apis_get_apis_update by exact Hf.
  destruct (apis_get x (apis m)) as [api|]; simpl; [|reflexivity].
  destruct (String.eqb (api_id api) b); [rewrite Hmax|]; reflexivity.
Qed.

Lemma ceiling_same_apis (x : string) (m m' : Manager) :
  apis m' = apis m -> ceiling x m' = ceiling x m.
Proof. intros Ha. unfold ceiling. rewrite Ha. reflexivity. Qed.

Lemma reactivate_ceiling (expected : Status) (api : GeminiAPIConfig) :
  maxRequestsPerMinute (reactivate expected api) = maxRequestsPerMinute api.
Proof.
  unfold reactivate. destruct (status_eqb _ _); [|reflexivity].
  destruct expected; reflexivity.
Qed.

Lemma fire_all_window (x : string) (ts : list Timer) :
  forall m,
    ceiling x (fold_left (fun acc t => fire t acc) ts m) = ceiling x m /\
    rateLimitTracker (fold_left (fun acc t => fire t acc) ts m) = rateLimitTracker m.
Proof.
  induction ts as [|t ts IH]; intros m; simpl; [auto|].
  destruct (IH (fire t m)) as [Hc Hw]. rewrite Hc, Hw. split; [|reflexivity].
  apply (ceiling_update x (target t) (reactivate (expects t)));
    [apply PoolSpec.reactivate_id|apply reactivate_ceiling|reflexivity].
Qed.

Lemma isRateLimited_window (x y : string) (now from till : Z) (m : Manager) :
  window_count now (snd (isRateLimited y now m)) x = window_count now m x /\
  (till <= now + 60000 -> window_outside from till m x ->
   window_outside from till (snd (isRateLimited y now m)) x).
Proof.
  unfold isRateLimited.
  destruct (rateLimitTracker m !! y) as [w|] eqn:Hy; [|auto].
  destruct (Z.ltb_spec (window_resetTime w) now) as [Hlt|Hge]; [|auto].
  unfold window_count, window_outside. simpl.
  destruct (String.eqb_spec x y) as [->|Hne].
  - rewrite lookup_insert_eq, Hy. simpl.
    destruct (Z.ltb_spec (window_resetTime w) now); [|lia].
    destruct (now + 60 * 1000 <? now); split; [reflexivity|lia|reflexivity|lia].
  - rewrite lookup_insert_ne by congruence. auto.
Qed.

Lemma isRateLimited_room (x : string) (now : Z) (m : Manager) :
  fst (isRateLimited x now m) = false ->
  window_count now m x < ceiling x m \/ window_count now m x = 0.
Proof.
  unfold isRateLimited, window_count.
  destruct (rateLimitTracker m !! x) as [w|]; [|auto].
  destruct (window_resetTime w <? now); [auto|]. simpl.
  intros H. apply Z.leb_gt in H. auto.
Qed.

Lemma keep_available_window (x : string) (now from till : Z)
    (snapshot : list GeminiAPIConfig) :
  forall m,
    window_count now (snd (keep_available now snapshot m)) x = window_count now m x /\
    (till <= now + 60000 -> window_outside from till m x ->
     window_outside from till (snd (keep_available now snapshot m)) x) /\
    (forall api, In api (fst (keep_available now snapshot m)) -> api_id api = x ->
                 window_count now m x < ceiling x m \/ window_count now m x = 0).
Proof.
  induction snapshot as [|a rest IH]; intros m; simpl.
  - split; [reflexivity|]. split; [auto|]. intros api [].
  - destruct (status_eqb (status a) active); [|apply IH].
    destruct (isRateLimited_window x (api_id a) now from till m) as [Hc Ho].
    pose proof (isRateLimited_room (api_id a) now m) as Hroom.
    destruct (PoolSpec.isRateLimited_frame (api_id a) now m) as (Ha & _).
    destruct (isRateLimited (api_id a) now m) as [limited m1]. simpl in *.
    destruct (IH m1) as (Hc' & Ho' & Hk').
    destruct (keep_available now rest m1) as [kept m2]. simpl in *.
    split; [congruence|]. split; [auto|].
    intros api Hin Hid.
    assert (Hrest : In api kept ->
                    window_count now m x < ceiling x m \/ window_count now m x = 0).
    { intros Hin'. rewrite <- Hc, <- (ceiling_same_apis x m m1 Ha).
      exact (Hk' api Hin' Hid). }
    destruct limited; [auto|].
    destruct Hin as [<- | Hin]; [|auto].
    rewrite <- Hid. auto.
Qed.

Lemma trackUsage_window (x y : string) (feature : FeatureType) (now from till : Z)
    (m : Manager) (api : GeminiAPIConfig) :
  apis_get y (apis m) = Some api ->
  from <= now -> till <= now + 60000 ->
  window_outside from till m x ->
  window_outside from till (trackUsage y feature now m) x /\
  window_count now (trackUsage y feature now m) x =
    window_count now m x + (if String.eqb y x then 1 else 0) /\
  ceiling x (trackUsage y feature now m) = ceiling x m.
Proof.
  intros Hget Hfrom Htill Hout.
  split; [|split].
  - destruct (String.eqb_spec y x) as [->|Hne].
    + destruct (PoolSpec.trackUsage_known x feature now m api Hget) as [_ Hw].
      unfold window_outside in *. rewrite Hw.
      destruct (rateLimitTracker m !! x) as [w|]; [|simpl; lia].
      destruct (Z.ltb_spec (window_resetTime w) now); simpl; lia.
    + unfold window_outside, trackUsage in *. rewrite Hget. simpl.
      rewrite lookup_insert_ne by congruence. exact Hout.
  - destruct (String.eqb_spec y x) as [->|Hne].
    + destruct (PoolSpec.trackUsage_known x feature now m api Hget) as [_ Hw].
      unfold window_count. rewrite Hw.
      destruct (rateLimitTracker m !! x) as [w|]; simpl.
      * destruct (Z.ltb_spec (window_resetTime w) now) as [Hlt|Hge]; simpl.
        -- destruct (Z.ltb_spec (now + 60000) now); lia.
        -- destruct (Z.ltb_spec (window_resetTime w) now); lia.
      * destruct (Z.ltb_spec (now + 60000) now); lia.
    + unfold window_count, trackUsage. rewrite Hget. simpl.
      rewrite lookup_insert_ne by congruence. lia.
  - unfold trackUsage. rewrite Hget.
    apply (ceiling_update x y (count_use feature now)); reflexivity.
Qed.

Lemma apis_get_registered (api : GeminiAPIConfig) (l : list GeminiAPIConfig) :
  In api l -> exists api', apis_get (api_id api) l = Some api'.
Proof.
  intros Hin. destruct (apis_get (api_id api) l) as [api'|] eqn:Hget; [eauto|].
  exfalso. exact (PoolSpec.apis_get_None _ _ Hget api Hin eq_refl).
Qed.

Lemma clock_never_goes_back (events : list Event) :
  forall w, clock w <= clock (history events w).
Proof.
  induction events as [|e events IH]; intros w; simpl; [lia|].
  specialize (IH (happen w e)).
  assert (clock w <= clock (happen w e)); [|unfold history in *; lia].
  destruct e as [b error | feature | ms]; simpl; [lia| |lia].
  destruct (getBestAPI feature (clock w) (manager w)) as [best m']. simpl. lia.
Qed.

(** X20. The rate ceiling holds over a whole run of the pool.  From a state
    in which a credential has no running window, [getBestAPI] hands it out
    at most [maxRequestsPerMinute || 60] times within the next minute,
    whatever failures are reported and whatever timers run in between, and
    at most once when that ceiling is zero or negative (the first call
    finds no window and is never refused). *)
Theorem handed_out_within_ceiling (m : Manager) (x : string) (t0 : Z)
    (events : list Event) :
  window_closed t0 m x ->
  clock (history events {| clock := t0; manager := m; handed := [] |}) <= t0 + 60000 ->
  handed_to x (history events {| clock := t0; manager := m; handed := [] |})
    <= Z.max 1 (ceiling x m).
Proof.
  intros Hclosed Hclock.
  set (till := t0 + 60000) in *.
  set (good := fun w : World =>
         t0 <= clock w /\
         ceiling x (manager w) = ceiling x m /\
         window_outside t0 till (manager w) x /\
         window_count (clock w) (manager w) x = handed_to x w /\
         handed_to x w <= Z.max 1 (ceiling x m)).
  assert (Hstep : forall w e, good w -> clock (happen w e) <= till -> good (happen w e)).
  { intros w e (Ht0 & Hceil & Hout & Hcount & Hbound) Htill.
    destruct e as [b error | feature | ms].
    - (* a failure is reported: the windows are not touched *)
      unfold good. simpl in *. unfold handed_to in *. simpl.
      unfold handleAPIFailure. destruct (apis_get b _); simpl.
      + repeat split; try assumption.
        rewrite <- Hceil.
        apply (ceiling_update x b
                 (fun api => with_health
                               (fst (if indicates_quota (error_message error)
                                     then (quota_exceeded, 60 * 60 * 1000)
                                     else (failed, 5 * 60 * 1000)))
                               (failureCount api + 1) (Some (error_text error)) api));
          reflexivity.
      + repeat split; assumption.
    - (* a credential is asked for *)
      unfold good. simpl in *. unfold getBestAPI in *.
      destruct (keep_available_window x (clock w) t0 till (apis (manager w)) (manager w))
        as (Hc1 & Ho1 & Hroom).
      pose proof (PoolSpec.keep_available_sound (clock w) (apis (manager w)) (manager w))
        as Hsound.
      destruct (PoolSpec.keep_available_frame (clock w) (apis (manager w)) (manager w))
        as (Ha1 & _).
      destruct (keep_available (clock w) (apis (manager w)) (manager w)) as [kept m1].
      simpl in *.
      assert (Htill' : till <= clock w + 60000) by (unfold till; lia).
      destruct (find _ (sort_by priority kept)) as [api|] eqn:Ef; simpl in *.
      + apply find_some in Ef as [Hin _]. apply PoolSpec.in_sort_by in Hin.
        destruct (Hsound api Hin) as [Hreg _].
        destruct (apis_get_registered api (apis (manager w)) Hreg) as [api' Hget].
        rewrite <- Ha1 in Hget.
        destruct (trackUsage_window x (api_id api) feature (clock w) t0 till m1 api'
                    Hget Ht0 Htill' (Ho1 Htill' Hout)) as (Ho2 & Hc2 & Hceil2).
        split; [assumption|].
        split; [rewrite Hceil2, (ceiling_same_apis x (manager w) m1 Ha1); exact Hceil|].
        split; [exact Ho2|].
        rewrite Hc2, Hc1.
        unfold handed_to in *. simpl.
        destruct (String.eqb_spec (api_id api) x) as [E|E]; simpl length.
        * specialize (Hroom api Hin E). rewrite Hceil in Hroom. split; lia.
        * split; lia.
      + split; [assumption|].
        split; [rewrite (ceiling_same_apis x (manager w) m1 Ha1); exact Hceil|].
        split; [auto|]. unfold handed_to in *. simpl.
        split; [rewrite Hc1; exact Hcount|exact Hbound].
    - (* time passes: the timers touch neither windows nor ceilings *)
      unfold good. simpl in *. unfold elapse.
      destruct (fire_all_window x
                  (sort_by due (List.filter (fun t => due t <=? clock w + Z.of_N ms)
                                            (timers (manager w))))
                  {| apis := apis (manager w); clients := clients (manager w);
                     rateLimitTracker := rateLimitTracker (manager w);
                     timers := List.filter (fun t => negb (due t <=? clock w + Z.of_N ms))
                                           (timers (manager w)) |}) as [Hc Hw].
      split; [lia|].
      split; [rewrite Hc; exact Hceil|].
      unfold window_outside, window_count, handed_to in *. rewrite Hw. simpl.
      split; [exact Hout|]. split; [|exact Hbound].
      rewrite <- Hcount.
      destruct (rateLimitTracker (manager w) !! x) as [win|]; [|reflexivity].
      destruct (Z.ltb_spec (window_resetTime win) (clock w + Z.of_N ms));
        destruct (Z.ltb_spec (window_resetTime win) (clock w)); lia. }
  assert (Hrun : forall w, good w -> clock (history events w) <= till ->
                           good (history events w)).
  { clear Hclock. induction events as [|e events IH]; intros w Hw Hc; simpl; [exact Hw|].
    apply IH; [|exact Hc]. apply Hstep; [exact Hw|].
    pose proof (clock_never_goes_back events (happen w e)). unfold history in *.
    simpl in Hc. lia. }
  destruct (Hrun {| clock := t0; manager := m; handed := [] |}) as (_ & _ & _ & _ & H);
    [|exact Hclock|exact H].
  unfold good, window_outside, window_count, window_closed, handed_to in *. simpl.
  split; [lia|]. split; [reflexivity|].
  destruct (rateLimitTracker m !! x) as [win|].
  - split; [lia|]. destruct (Z.ltb_spec (window_resetTime win) t0); [split; lia|lia].
  - split; [exact I|split; lia].
Qed.

Lemma handed_out_within_ceiling_witness :
  window_closed 0 two_a_minute "primary" /\
  handed_to "primary"
    (history [Acquire chat; Acquire chat; Acquire chat; Wait 60000; Acquire learning]
       {| clock := 0; manager := two_a_minute; handed := [] |}) <= 2.
Proof.
  split; [exact I|].
  apply (handed_out_within_ceiling two_a_minute "primary" 0
           [Acquire chat; Acquire chat; Acquire chat; Wait 60000; Acquire learning]).
  - exact I.
  - vm_compute. discriminate.
Defined.

End PoolExtra.

(* ===================================================================== *)
(** * Properties of the loading of credentials *)
(* ===================================================================== *)

Module LoaderExtra.
Import Pool Loader.

Lemma toString_inj (a b : Z) : Cache.toString a = Cache.toString b -> a = b.
Proof.
  unfold Cache.toString. intros H.
  assert (Hi : forall z, NilZero.int_of_string (NilZero.string_of_int (Z.to_int z)) =
                         Some (Z.to_int z)).
  { intros z. apply NilZero.isi; destruct z; simpl; try discriminate;
      intros [= E]; exact (DecimalPos.Unsigned.to_uint_nonnil _ E). }
  pose proof (Hi a) as Ha. rewrite H, Hi in Ha. injection Ha as E.
  rewrite <- (DecimalZ.of_to a), <- (DecimalZ.of_to b), E. reflexivity.
Qed.

Lemma numbered_id_inj (i j : Z) : numbered_id i = numbered_id j -> i = j.
Proof. unfold numbered_id. simpl. intros [= E]. apply toString_inj, E. Qed.

Lemma grows_refl (m : Manager) : grows m m.
Proof. split; auto. Qed.

Lemma grows_trans (m1 m2 m3 : Manager) : grows m1 m2 -> grows m2 m3 -> grows m1 m3.
Proof. intros [K1 I1] [K2 I2]. split; auto. Qed.

Section Registering.

Variable sdk_error : string -> option string.

Lemma addAPI_in (c api : GeminiAPIConfig) (m : Manager) :
  In api (apis (addAPI sdk_error c m)) -> In api (apis m) \/ api_id api = api_id c.
Proof.
  unfold addAPI. destruct (existsb _ (apis m)); [auto|].
  destruct (sdk_error (key c)); simpl; intros H;
    apply PoolSpec.in_apis_set in H as [-> | H]; auto.
Qed.

Lemma addAPI_ids (c : GeminiAPIConfig) (x : string) (m : Manager) :
  In x (map api_id (apis (addAPI sdk_error c m))) ->
  x = api_id c \/ In x (map api_id (apis m)).
Proof.
  intros H. apply in_map_iff in H as (api & <- & Hin).
  apply addAPI_in in Hin as [Hin | E]; [right; apply in_map, Hin|auto].
Qed.

Lemma addAPI_grows (c : GeminiAPIConfig) (m : Manager) :
  ~ In (api_id c) (map api_id (apis m)) ->
  grows m (addAPI sdk_error c m) /\ In (key c) (map key (apis (addAPI sdk_error c m))).
Proof.
  intros Hfresh.
  destruct (in_dec string_dec (key c) (map key (apis m))) as [Hin | Hnew].
  - rewrite PoolSpec.addAPI_duplicate by assumption. split; [apply grows_refl|assumption].
  - unfold grows. rewrite PoolSpec.addAPI_new by assumption.
    rewrite PoolSpec.apis_set_absent by (rewrite PoolSpec.stored_id; assumption).
    rewrite !map_app. simpl. rewrite PoolSpec.stored_key.
    split; [split; intros; apply in_or_app; auto|].
    apply in_or_app. simpl. auto.
Qed.

End Registering.

Lemma apis_get_listed (x : string) (l : list GeminiAPIConfig) :
  In x (map api_id l) -> exists api, apis_get x l = Some api.
Proof.
  intros H. apply in_map_iff in H as (api & <- & Hin).
  destruct (apis_get (api_id api) l) as [api'|] eqn:Hget; [eauto|].
  exfalso. exact (PoolSpec.apis_get_None _ _ Hget api Hin eq_refl).
Qed.

Lemma apis_get_unlisted (x : string) (l : list GeminiAPIConfig) :
  apis_get x l = None -> ~ In x (map api_id l).
Proof.
  intros Hget H. apply in_map_iff in H as (api & E & Hin).
  exact (PoolSpec.apis_get_None _ _ Hget api Hin E).
Qed.

Section Reloading.

Variable sdk_error : string -> option string.
Variable env : Env.
Variables built_at built_again : string -> Z.

Lemma load_primary_settles (m : Manager) :
  ~ In "primary"%string (map api_id (apis m)) ->
  grows m (load_primary sdk_error env built_at m) /\
  (forall x, In x (map api_id (apis (load_primary sdk_error env built_at m))) ->
             x = "primary"%string \/ In x (map api_id (apis m))) /\
  (forall m2, grows (load_primary sdk_error env built_at m) m2 ->
              load_primary sdk_error env built_again m2 = m2).
Proof.
  intros Hfresh. unfold load_primary.
  destruct (truthy (env_get "GEMINI_API_KEY" env)) as [k|].
  - destruct (addAPI_grows sdk_error
                (loaded "primary" k 1 "Gemini Primary API" (built_at "GEMINI_API_KEY")) m
                Hfresh) as [Hg Hk].
    split; [exact Hg|]. split; [intros x Hx; apply addAPI_ids in Hx; exact Hx|].
    intros m2 [Hkeys _]. apply PoolSpec.addAPI_duplicate. simpl. apply Hkeys, Hk.
  - split; [apply grows_refl|]. split; auto.
Qed.

Lemma load_numbered_settles (fuel : nat) :
  forall i m m1,
    2 <= i ->
    (forall x, In x (map api_id (apis m)) -> early i x) ->
    load_numbered sdk_error env built_at fuel i m = Some m1 ->
    grows m m1 /\
    (forall j k, i <= j <= 50 -> truthy (env_get (numbered_name j) env) = Some k ->
                 In k (map key (apis m1))) /\
    (forall m2, grows m1 m2 -> load_numbered sdk_error env built_again fuel i m2 = Some m2).
Proof.
  induction fuel as [|fuel IH]; intros i m m1 Hi Hearly Hload; simpl in *; [discriminate|].
  destruct (truthy (env_get (numbered_name i) env)) as [k|] eqn:Hk.
  - assert (Hfresh : ~ In (numbered_id i) (map api_id (apis m))).
    { intros Hin. apply Hearly in Hin as [E | (j & Hj & E)]; [discriminate E|].
      apply numbered_id_inj in E. lia. }
    set (c := loaded (numbered_id i) k i (String.append "Gemini API " (Cache.toString i))
                     (built_at (numbered_name i))) in *.
    destruct (addAPI_grows sdk_error c m Hfresh) as [Hg Hkey].
    simpl in Hkey.
    destruct (IH (i + 1) (addAPI sdk_error c m) m1 ltac:(lia)) as (Hg1 & Hkeys & Hagain);
      [|exact Hload|].
    { intros x Hx. apply addAPI_ids in Hx as [-> | Hx].
      - right. exists i. split; [lia|reflexivity].
      - apply Hearly in Hx as [E | (j & Hj & E)]; [left; exact E|].
        right. exists j. split; [lia|exact E]. }
    split; [exact (grows_trans _ _ _ Hg Hg1)|]. split.
    + intros j k' Hj Hk'. destruct (Z.eq_dec j i) as [->|Hne].
      * rewrite Hk in Hk'. injection Hk' as <-. apply Hg1, Hkey.
      * apply (Hkeys j k'); [lia|exact Hk'].
    + intros m2 Hm2. rewrite PoolSpec.addAPI_duplicate; [exact (Hagain m2 Hm2)|].
      simpl. apply Hm2, Hg1, Hkey.
  - destruct (Z.leb_spec i 50) as [Hle|Hgt].
    + destruct (IH (i + 1) m m1 ltac:(lia)) as (Hg1 & Hkeys & Hagain); [|exact Hload|].
      { intros x Hx. apply Hearly in Hx as [E | (j & Hj & E)]; [left; exact E|].
        right. exists j. split; [lia|exact E]. }
      split; [exact Hg1|]. split; [|exact Hagain].
      intros j k' Hj Hk'. destruct (Z.eq_dec j i) as [->|Hne]; [congruence|].
      apply (Hkeys j k'); [lia|exact Hk'].
    + injection Hload as <-. split; [apply grows_refl|]. split; [intros; lia|reflexivity].
Qed.

Lemma load_custom_settles (m : Manager) (envKey : string) :
  grows m (load_custom sdk_error env built_at m envKey) /\
  (forall m2, grows (load_custom sdk_error env built_at m envKey) m2 ->
              load_custom sdk_error env built_again m2 envKey = m2).
Proof.
  unfold load_custom. destruct (is_custom envKey); [|split; [apply grows_refl|reflexivity]].
  destruct (truthy (env_get envKey env)) as [k|]; [|split; [apply grows_refl|reflexivity]].
  destruct (apis_get (custom_id envKey) (apis m)) as [api|] eqn:Hget.
  - split; [apply grows_refl|]. intros m2 [_ Hids].
    apply PoolSpec.apis_get_In in Hget as [Hin Hid].
    destruct (apis_get_listed (custom_id envKey) (apis m2)) as [api2 ->]; [|reflexivity].
    apply Hids. rewrite <- Hid. apply in_map, Hin.
  - apply apis_get_unlisted in Hget.
    match goal with
    | |- grows m (addAPI sdk_error ?c m) /\ _ =>
        destruct (addAPI_grows sdk_error c m Hget) as [Hg Hk]
    end.
    split; [exact Hg|]. intros m2 [Hkeys _].
    destruct (apis_get (custom_id envKey) (apis m2)); [reflexivity|].
    apply PoolSpec.addAPI_duplicate. simpl. apply Hkeys, Hk.
Qed.

Lemma load_customs_settle (names : list string) :
  forall m,
    grows m (fold_left (load_custom sdk_error env built_at) names m) /\
    (forall m2, grows (fold_left (load_custom sdk_error env built_at) names m) m2 ->
                fold_left (load_custom sdk_error env built_again) names m2 = m2).
Proof.
  induction names as [|envKey names IH]; intros m; simpl.
  - split; [apply grows_refl|reflexivity].
  - destruct (load_custom_settles m envKey) as [Hg Hagain].
    destruct (IH (load_custom sdk_error env built_at m envKey)) as [Hg1 Hagain1].
    split; [exact (grows_trans _ _ _ Hg Hg1)|].
    intros m2 Hm2. rewrite (Hagain m2 (grows_trans _ _ _ Hg1 Hm2)). exact (Hagain1 m2 Hm2).
Qed.

End Reloading.

(** The events keep the secrets and the ids of the registry. *)
Lemma apis_update_keys (apiId : string) (f : GeminiAPIConfig -> GeminiAPIConfig)
    (l : list GeminiAPIConfig) :
  (forall a, key (f a) = key a) ->
  map key (apis_update apiId f l) = map key l.
Proof.
  intros Hf. unfold apis_update. rewrite map_map. apply map_ext.
  intros a. destruct (String.eqb (api_id a) apiId); [apply Hf|reflexivity].
Qed.

Lemma reactivate_key (expected : Status) (api : GeminiAPIConfig) :
  key (reactivate expected api) = key api.
Proof.
  unfold reactivate. destruct (status_eqb _ _); [|reflexivity].
  destruct expected; reflexivity.
Qed.

Lemma fire_all_registry (ts : list Timer) :
  forall m,
    map key (apis (fold_left (fun acc t => fire t acc) ts m)) = map key (apis m) /\
    map api_id (apis (fold_left (fun acc t => fire t acc) ts m)) = map api_id (apis m).
Proof.
  induction ts as [|t ts IH]; intros m; simpl; [auto|].
  destruct (IH (fire t m)) as [Hk Hi]. rewrite Hk, Hi. unfold fire. simpl.
  split; [apply apis_update_keys|apply PoolSpec.apis_update_ids]; intros a.
  - apply reactivate_key.
  - apply PoolSpec.reactivate_id.
Qed.

Lemma happen_registry (w : World) (e : Event) :
  map key (apis (manager (happen w e))) = map key (apis (manager w)) /\
  map api_id (apis (manager (happen w e))) = map api_id (apis (manager w)).
Proof.
  destruct e as [b error | feature | ms]; simpl.
  - unfold handleAPIFailure. destruct (apis_get b _); simpl; [|auto].
    split; [apply apis_update_keys|apply PoolSpec.apis_update_ids]; reflexivity.
  - unfold getBestAPI.
    destruct (PoolSpec.keep_available_frame (clock w) (apis (manager w)) (manager w))
      as (Ha & _).
    destruct (keep_available (clock w) (apis (manager w)) (manager w)) as [kept m1].
    simpl in *.
    destruct (find _ (sort_by priority kept)) as [api|]; simpl; [|rewrite Ha; auto].
    unfold trackUsage. destruct (apis_get (api_id api) (apis m1)); simpl;
      [|rewrite Ha; auto].
    rewrite Ha. split; [apply apis_update_keys|apply PoolSpec.apis_update_ids]; reflexivity.
  - unfold elapse.
    match goal with
    | |- context [fold_left _ ?ts ?m0] => destruct (fire_all_registry ts m0) as [Hk Hi]
    end.
    rewrite Hk, Hi. auto.
Qed.

Lemma history_registry (events : list Event) :
  forall w,
    map key (apis (manager (history events w))) = map key (apis (manager w)) /\
    map api_id (apis (manager (history events w))) = map api_id (apis (manager w)).
Proof.
  induction events as [|e events IH]; intros w; simpl; [auto|].
  destruct (IH (happen w e)) as [Hk Hi]. destruct (happen_registry w e) as [Hk' Hi'].
  unfold history in *. rewrite Hk, Hi, Hk', Hi'. auto.
Qed.

(** X21. The periodic rediscovery finds nothing new in an unchanged
    environment: when the constructor's [loadAPIConfigurations] has built
    the pool from the empty manager, a later run of it on that pool, after
    any failures, acquisitions and lapses of time, returns and leaves the
    manager exactly as it is. *)
Theorem rediscovery_leaves_pool_unchanged (sdk_error : string -> option string)
    (env : Env) (built_at built_again : string -> Z) (fuel : nat) (m1 : Manager)
    (t0 : Z) (events : list Event) :
  loadAPIConfigurations sdk_error env built_at fuel empty_manager = Some m1 ->
  loadAPIConfigurations sdk_error env built_again fuel
    (manager (history events {| clock := t0; manager := m1; handed := [] |})) =
  Some (manager (history events {| clock := t0; manager := m1; handed := [] |})).
Proof.
  unfold loadAPIConfigurations. intros Hload.
  destruct (load_numbered sdk_error env built_at fuel 2
              (load_primary sdk_error env built_at empty_manager)) as [m'|] eqn:Hnum;
    [|discriminate].
  injection Hload as <-.
  destruct (load_primary_settles sdk_error env built_at built_again empty_manager)
    as (Hg0 & Hids0 & Hagain0); [simpl; tauto|].
  destruct (load_numbered_settles sdk_error env built_at built_again fuel 2
              (load_primary sdk_error env built_at empty_manager) m' ltac:(lia))
    as (Hg1 & _ & Hagain1); [|exact Hnum|].
  { intros x Hx. apply Hids0 in Hx as [-> | []]. left. reflexivity. }
  destruct (load_customs_settle sdk_error env built_at built_again (map fst env) m')
    as [Hg2 Hagain2].
  set (m2 := manager (history events _)).
  assert (Hm2 : grows (fold_left (load_custom sdk_error env built_at) (map fst env) m') m2).
  { destruct (history_registry events
                {| clock := t0;
                   manager := fold_left (load_custom sdk_error env built_at)
                                        (map fst env) m';
                   handed := [] |}) as [Hk Hi].
    subst m2. unfold grows. rewrite Hk, Hi. split; auto. }
  rewrite (Hagain0 m2 (grows_trans _ _ _ Hg1 (grows_trans _ _ _ Hg2 Hm2))).
  rewrite (Hagain1 m2 (grows_trans _ _ _ Hg2 Hm2)).
  rewrite (Hagain2 m2 Hm2). reflexivity.
Qed.

Lemma rediscovery_leaves_pool_unchanged_witness :
  loadAPIConfigurations sdk_fine sample_env epoch 60 empty_manager = Some sample_pool /\
  loadAPIConfigurations sdk_fine sample_env epoch 60
    (manager (history [Acquire chat; Report "primary" (ErrorObject "fetch failed");
                       Wait 300000]
                {| clock := 0; manager := sample_pool; handed := [] |})) =
  Some (manager (history [Acquire chat; Report "primary" (ErrorObject "fetch failed");
                          Wait 300000]
                   {| clock := 0; manager := sample_pool; handed := [] |})).
Proof.
  assert (H : loadAPIConfigurations sdk_fine sample_env epoch 60 empty_manager =
              Some sample_pool) by (vm_compute; reflexivity).
  split; [exact H|].
  exact (rediscovery_leaves_pool_unchanged sdk_fine sample_env epoch epoch 60 sample_pool 0
           [Acquire chat; Report "primary" (ErrorObject "fetch failed"); Wait 300000] H).
Defined.

Section Gap.

Variable sdk_error : string -> option string.
Variable env : Env.
Variable built_at : string -> Z.

Lemma load_numbered_stops (g : Z) (fuel : nat) :
  50 < g -> truthy (env_get (numbered_name g) env) = None ->
  forall i m,
    i <= g -> (Z.to_nat (g - i) < fuel)%nat ->
    exists m',
      load_numbered sdk_error env built_at fuel i m = Some m' /\
      forall api, In api (apis m') ->
                  In api (apis m) \/ exists j, i <= j < g /\ api_id api = numbered_id j.
Proof.
  intros Hg Hgap. induction fuel as [|fuel IH]; intros i m Hi Hfuel; [lia|]. simpl.
  destruct (truthy (env_get (numbered_name i) env)) as [k|] eqn:Hk.
  - assert (i < g) by (destruct (Z.eq_dec i g) as [->|]; [congruence|lia]).
    destruct (IH (i + 1)
                 (addAPI sdk_error
                    (loaded (numbered_id i) k i
                            (String.append "Gemini API " (Cache.toString i))
                            (built_at (numbered_name i))) m))
      as (m' & Hload & Hin); [lia|lia|].
    exists m'. split; [exact Hload|].
    intros api Hapi. destruct (Hin api Hapi) as [Hold | (j & Hj & E)].
    + apply addAPI_in in Hold as [Hold | E]; [auto|].
      right. exists i. split; [lia|exact E].
    + right. exists j. split; [lia|exact E].
  - destruct (Z.leb_spec i 50) as [Hle|Hgt].
    + destruct (IH (i + 1) m) as (m' & Hload & Hin); [lia|lia|].
      exists m'. split; [exact Hload|].
      intros api Hapi. destruct (Hin api Hapi) as [Hold | (j & Hj & E)]; [auto|].
      right. exists j. split; [lia|exact E].
    + exists m. split; [reflexivity|auto].
Qed.

Lemma load_customs_in (names : list string) :
  forall m api,
    In api (apis (fold_left (load_custom sdk_error env built_at) names m)) ->
    In api (apis m) \/ exists envKey, api_id api = custom_id envKey.
Proof.
  induction names as [|envKey names IH]; intros m api; simpl; [auto|].
  intros H. apply IH in H as [H | H]; [|auto].
  unfold load_custom in H.
  destruct (is_custom envKey); [|auto].
  destruct (truthy (env_get envKey env)); [|auto].
  destruct (apis_get (custom_id envKey) (apis m)); [auto|].
  apply addAPI_in in H as [H | H]; [auto|]. right. exists envKey. exact H.
Qed.

End Gap.

(** X22. The numbered variables are read up to the first gap above 50.
    When [GEMINI_API_KEY_g] is unset or empty for some [g] above 50, the load
    returns after at most [g] turns of its loop, and no credential comes in
    under the id [api_n] of a number [n] from [g] on, whatever the variable
    of that number holds.  Below that, gaps do not matter: run on the empty
    manager, the load registers the secret of every numbered variable from
    2 to 50 that is set. *)
Theorem numbered_keys_end_at_first_gap (sdk_error : string -> option string)
    (env : Env) (built_at : string -> Z) (g : Z) (fuel : nat) (m : Manager) :
  50 < g -> truthy (env_get (numbered_name g) env) = None ->
  (Z.to_nat g <= fuel)%nat ->
  exists m',
    loadAPIConfigurations sdk_error env built_at fuel m = Some m' /\
    (forall n api, g <= n -> In api (apis m') -> api_id api = numbered_id n ->
                   In api (apis m)) /\
    (m = empty_manager ->
     forall i k, 2 <= i <= 50 -> truthy (env_get (numbered_name i) env) = Some k ->
                 In k (map key (apis m'))).
Proof.
  intros Hg Hgap Hfuel. unfold loadAPIConfigurations.
  destruct (load_numbered_stops sdk_error env built_at g fuel Hg Hgap 2
              (load_primary sdk_error env built_at m)) as (m' & Hload & Hin); [lia|lia|].
  rewrite Hload. eexists. split; [reflexivity|]. split.
  - intros n api Hn Hapi Hid.
    apply load_customs_in in Hapi as [Hapi | (envKey & E)].
    + apply Hin in Hapi as [Hapi | (j & Hj & E)].
      * unfold load_primary in Hapi.
        destruct (truthy (env_get "GEMINI_API_KEY" env)); [|exact Hapi].
        apply addAPI_in in Hapi as [Hapi | E]; [exact Hapi|].
        rewrite Hid in E. discriminate E.
      * rewrite Hid in E. apply numbered_id_inj in E. lia.
    + rewrite Hid in E. discriminate E.
  - intros -> i k Hi Hk.
    destruct (load_primary_settles sdk_error env built_at built_at empty_manager)
      as (_ & Hids0 & _); [simpl; tauto|].
    destruct (load_numbered_settles sdk_error env built_at built_at fuel 2
                (load_primary sdk_error env built_at empty_manager) m' ltac:(lia))
      as (_ & Hkeys & _); [|exact Hload|].
    { intros x Hx. apply Hids0 in Hx as [-> | []]. left. reflexivity. }
    destruct (load_customs_settle sdk_error env built_at built_at (map fst env) m')
      as [[Hgrow _] _].
    apply Hgrow, (Hkeys i k); [lia|exact Hk].
Qed.

Lemma numbered_keys_end_at_first_gap_witness :
  50 < 51 /\ truthy (env_get (numbered_name 51) sample_env) = None /\
  (Z.to_nat 51 <= 60)%nat /\
  env_get (numbered_name 52) sample_env = Some "AIzaLate"%string /\
  ~ In "api_52"%string (map api_id (apis sample_pool)).
Proof.
  assert (Hgap : truthy (env_get (numbered_name 51) sample_env) = None) by reflexivity.
  assert (Hfuel : (Z.to_nat 51 <= 60)%nat) by (vm_compute; lia).
  split; [lia|]. split; [exact Hgap|]. split; [exact Hfuel|]. split; [reflexivity|].
  destruct (numbered_keys_end_at_first_gap sdk_fine sample_env epoch 51 60 empty_manager
              ltac:(lia) Hgap Hfuel) as (m' & Hload & Hnone & _).
  assert (E : m' = sample_pool).
  { unfold sample_pool. rewrite Hload. reflexivity. }
  subst m'. intros Hin. apply in_map_iff in Hin as (api & Hid & Hin).
  exact (Hnone 52 api ltac:(lia) Hin Hid).
Defined.

End LoaderExtra.
